(** * Stereo-to-Spatial: session and job orchestration layer

    A shallow embedding of the server side of the repository:

    - [server/services/session-store.ts]  the in-memory [SessionStore];
    - [server/services/ircam.ts]          the bearer token cache,
                                          [uploadToIrcamStorage] and
                                          [spatializeAudio] (submit, poll,
                                          final report, downloads);
    - [server/routes.ts]                  [cleanupOldFiles], the
                                          [/api/spatialize] handler, the
                                          routes for the token, uploads,
                                          the current file and downloads,
                                          the file filter and the file
                                          names of the disk storage;
    - [server/middleware/upload.ts]       [validateAudioFile];
    - [server/index.ts]                   [cleanupTempDirectory].

    Asynchronous functions are sequential between two [await]s, so they are
    written in a state and exception monad over a [World] that holds the
    module-level variables, the session map, the temp directory, the clock
    and a trace of what was sent to the outside.  What the outside answers
    is read from an environment [Env]. *)

From Stdlib Require Import ZArith List String Ascii Bool Arith Lia Sorted.
From Stdlib Require QArith_base.
Import ListNotations.

Set Implicit Arguments.
Local Open Scope string_scope.
Local Open Scope Z_scope.

(* ================================================================== *)
(** * Part I: definitions                                              *)
(* ================================================================== *)

(** ** JavaScript values *)

(** Truthiness of an optional string ([undefined], [null] and the empty
    string are falsy) and of an optional number ([0] is falsy). *)
Definition truthy_str (v : option string) : bool :=
  match v with
  | Some s => negb (String.eqb s "")
  | None => false
  end.

Definition truthy_num (v : option Z) : bool :=
  match v with
  | Some n => negb (Z.eqb n 0)
  | None => false
  end.

(** ** [Map<string, V>]: entries are kept in insertion order *)

Module JsMap.
Section Ops.
Variable V : Type.

Definition t := list (string * V).

Definition empty : t := [].

Fixpoint get (k : string) (m : t) : option V :=
  match m with
  | [] => None
  | (k', v) :: rest => if String.eqb k k' then Some v else get k rest
  end.

Definition has (k : string) (m : t) : bool :=
  match get k m with Some _ => true | None => false end.

(** [set] on a key that is present replaces the value where it stands;
    on a fresh key it appends. *)
Fixpoint set (k : string) (v : V) (m : t) : t :=
  match m with
  | [] => [(k, v)]
  | (k', v') :: rest =>
      if String.eqb k k' then (k', v) :: rest else (k', v') :: set k v rest
  end.

Fixpoint delete (k : string) (m : t) : t :=
  match m with
  | [] => []
  | (k', v') :: rest =>
      if String.eqb k k' then delete k rest else (k', v') :: delete k rest
  end.

Definition entries (m : t) : list (string * V) := m.

Definition keys (m : t) : list string := map fst m.
End Ops.
End JsMap.

(** ** Errors that the code throws or receives *)

Inductive Err : Type :=
| AxiosError (status : option Z) (body : string)
| Error (message : string)
| TypeError (message : string)
| FsError (code : string) (path : string).

(** The spec's names for two of the errors of [spatializeAudio]. *)
Definition JobSubmissionError : Err := Error "No job ID returned from IRCAM API".
Definition JobFailedError : Err := Error "Spatialization job failed".
Definition MalformedResponseError : Err :=
  Error "Invalid final response: missing report".

(** ** Provider payloads *)

Record AuthData := { id_token : option string; expires_in : option Z }.

Record SubmitData := { submit_id : option string }.

Record FileRef := { id : option string }.

Record Report := {
  binauralFile : option FileRef;
  immersiveFile : option FileRef
}.

Record ReportInfo := { report : option Report }.

Record JobInfos := {
  job_status : option string;
  report_info : option ReportInfo
}.

Record JobData := { job_infos : option JobInfos }.

Record MetaData := { filename : option string }.

(** An axios call either resolves with a body ([None]: the body is
    [null]) or rejects. *)
Inductive Reply (A : Type) : Type :=
| Resolved (data : option A)
| Rejected (e : Err).
Arguments Rejected {A} e.

(** ** The session record and the temp directory *)

(** A stored session object.  A property that is missing or [undefined]
    reads as [None]. *)
Record SessionData := {
  fileId : option string;
  iasUrl : option string;
  zipPath : option string;
  zipSize : option Z
}.

(** [Partial<...>]: for each key, [None] when the key is not in the object
    and [Some v] when it is (with [v = None] for an explicit
    [undefined]). *)
Record SessionPatch := {
  p_fileId : option (option string);
  p_iasUrl : option (option string);
  p_zipPath : option (option string);
  p_zipSize : option (option Z)
}.

(** One entry of [TEMP_DIR]: a session directory, its modification time
    and the names of its files. *)
Record DirEntry := {
  d_name : string;
  d_mtime : Z;
  d_files : list string
}.

(** ** What leaves the process *)

Inductive Call : Type :=
| PostAuth
| PostSubmitJob (audioUrl : string) (intensity : string)
| GetJobStatus (jobId : string)
| GetFinalReport (jobId : string)
| GetFileMetadata (fileId : string)
| GetFileContent (fileId : string).

Inductive Event : Type :=
| Issued (c : Call)
| Returned (c : Call)
| Slept (ms : Z)
| Logged (context : string) (e : Err).

(** ** The world *)

Record World := mkWorld {
  now : Z;                              (* Date.now() *)
  ircamToken : option string;
  tokenExpiry : option Z;
  tokenIssuedAt : option Z;             (* ghost: clock at the last refresh *)
  sessions : JsMap.t SessionData;       (* sessionStore.sessions *)
  tempDir : list DirEntry;              (* readdir(TEMP_DIR), in order *)
  authPosts : nat;
  submitPosts : nat;
  jobGets : nat;
  suspensions : nat;
  trace : list Event
}.

Definition initialWorld (t0 : Z) : World :=
  mkWorld t0 None None None (JsMap.empty _) [] 0 0 0 0 [].

Definition with_now (t : Z) (w : World) : World :=
  mkWorld t (ircamToken w) (tokenExpiry w) (tokenIssuedAt w) (sessions w)
    (tempDir w) (authPosts w) (submitPosts w) (jobGets w) (suspensions w)
    (trace w).

Definition with_token (tok : option string) (exp iss : option Z) (w : World)
  : World :=
  mkWorld (now w) tok exp iss (sessions w) (tempDir w) (authPosts w)
    (submitPosts w) (jobGets w) (suspensions w) (trace w).

Definition with_sessions (m : JsMap.t SessionData) (w : World) : World :=
  mkWorld (now w) (ircamToken w) (tokenExpiry w) (tokenIssuedAt w) m
    (tempDir w) (authPosts w) (submitPosts w) (jobGets w) (suspensions w)
    (trace w).

Definition with_tempDir (d : list DirEntry) (w : World) : World :=
  mkWorld (now w) (ircamToken w) (tokenExpiry w) (tokenIssuedAt w)
    (sessions w) d (authPosts w) (submitPosts w) (jobGets w) (suspensions w)
    (trace w).

Definition with_counters (a s j : nat) (w : World) : World :=
  mkWorld (now w) (ircamToken w) (tokenExpiry w) (tokenIssuedAt w)
    (sessions w) (tempDir w) a s j (suspensions w) (trace w).

Definition with_suspensions (n : nat) (w : World) : World :=
  mkWorld (now w) (ircamToken w) (tokenExpiry w) (tokenIssuedAt w)
    (sessions w) (tempDir w) (authPosts w) (submitPosts w) (jobGets w) n
    (trace w).

Definition with_trace (t : list Event) (w : World) : World :=
  mkWorld (now w) (ircamToken w) (tokenExpiry w) (tokenIssuedAt w)
    (sessions w) (tempDir w) (authPosts w) (submitPosts w) (jobGets w)
    (suspensions w) t.

(** ** The monad: state, exceptions, and running out of fuel *)

Inductive Outcome (A : Type) : Type :=
| Ret (a : A)
| Throw (e : Err)
| Diverge.
Arguments Throw {A} e.
Arguments Diverge {A}.

Definition M (A : Type) : Type := World -> Outcome A * World.

Definition ret {A} (a : A) : M A := fun w => (Ret a, w).

Definition throw {A} (e : Err) : M A := fun w => (Throw e, w).

Definition bind {A B} (m : M A) (k : A -> M B) : M B :=
  fun w =>
    match m w with
    | (Ret a, w') => k a w'
    | (Throw e, w') => (Throw e, w')
    | (Diverge, w') => (Diverge, w')
    end.

(** [try { m } catch (e) { h e }] *)
Definition try_catch {A} (m : M A) (h : Err -> M A) : M A :=
  fun w =>
    match m w with
    | (Throw e, w') => h e w'
    | r => r
    end.

Definition gets {A} (f : World -> A) : M A := fun w => (Ret (f w), w).

Definition modify (f : World -> World) : M unit := fun w => (Ret tt, f w).

Declare Scope js_scope.
Delimit Scope js_scope with js.
Notation "x <- m ;; k" := (bind m (fun x => k))
  (at level 61, m at next level, right associativity) : js_scope.
Notation "m ;; k" := (bind m (fun _ => k))
  (at level 61, right associativity) : js_scope.
Local Open Scope js_scope.

Definition emit (e : Event) : M unit :=
  modify (fun w => with_trace (trace w ++ [e]) w).

(** [log(..., 'error')] and [logger.error] inside a [catch]. *)
Definition logError (context : string) (e : Err) : M unit :=
  emit (Logged context e).

(** ** [class SessionStore] *)

Definition applyPatch (cur : SessionData) (p : SessionPatch) : SessionData :=
  {| fileId := match p_fileId p with Some v => v | None => fileId cur end;
     iasUrl := match p_iasUrl p with Some v => v | None => iasUrl cur end;
     zipPath := match p_zipPath p with Some v => v | None => zipPath cur end;
     zipSize := match p_zipSize p with Some v => v | None => zipSize cur end |}.

Definition saveSession (sessionId : string) (data : SessionData) : M unit :=
  modify (fun w => with_sessions (JsMap.set sessionId data (sessions w)) w).

Definition updateSession (sessionId : string) (data : SessionPatch) : M unit :=
  currentData <- gets (fun w => JsMap.get sessionId (sessions w)) ;;
  match currentData with
  | Some cur =>
      modify (fun w =>
        with_sessions (JsMap.set sessionId (applyPatch cur data) (sessions w)) w)
  | None => ret tt
  end.

Definition getSession (sessionId : string) : M (option SessionData) :=
  gets (fun w => JsMap.get sessionId (sessions w)).

Definition removeSession (sessionId : string) : M unit :=
  modify (fun w => with_sessions (JsMap.delete sessionId (sessions w)) w).

Definition getLatestSession : M (option (string * SessionData)) :=
  entries <- gets (fun w => JsMap.entries (sessions w)) ;;
  if Nat.eqb (List.length entries) 0 then ret None
  else ret (nth_error entries (List.length entries - 1)).

(** ** The environment: what the provider and the file system answer *)

Inductive FsOp : Type := OpReaddir | OpStat | OpRm | OpWrite | OpAccess | OpZip.

Inductive ArtifactType : Type := binaural | immersive.

Record Env := {
  (* milliseconds that pass during the n-th suspension of the process *)
  elapsed : nat -> nat;
  (* the n-th POST to IRCAM_AUTH_URL, the n-th POST to IRCAM_SPATIAL_URL,
     the n-th GET of a job, the metadata and the bytes of a stored file *)
  authReply : nat -> Reply AuthData;
  submitReply : nat -> Reply SubmitData;
  jobReply : string -> nat -> Reply JobData;
  metaReply : string -> Reply MetaData;
  contentReply : string -> Reply unit;
  (* a file system call on a path that fails for a reason of its own *)
  fsFault : FsOp -> string -> option Err;
  fileSize : string -> Z;
  (* path.basename(originalFilename) with the three [replace]s applied *)
  baseNameOf : string -> string;
  (* name.replace(/\.[^/.]+$/, '') *)
  stripExt : string -> string;
  (* new Date(t).toISOString().replace(/[:.]/g, '-') *)
  isoStamp : Z -> string
}.

Section Server.
Variable env : Env.

(** An [await] on something outside the process: time passes. *)
Definition suspend : M unit :=
  modify (fun w =>
    with_suspensions (S (suspensions w))
      (with_now (now w + Z.of_nat (elapsed env (suspensions w))) w)).

(** [await new Promise((resolve) => setTimeout(resolve, ms))] *)
Definition sleep (ms : Z) : M unit :=
  emit (Slept ms) ;;
  modify (fun w => with_now (now w + ms) w) ;;
  suspend.

(** [await axios.post/get(...)]: the request leaves, the process is
    suspended, the answer comes back. *)
Definition request {A} (c : Call) (answer : World -> Reply A)
    (count : World -> World) : M (option A) :=
  emit (Issued c) ;;
  r <- gets answer ;;
  modify count ;;
  suspend ;;
  emit (Returned c) ;;
  match r with
  | Resolved d => ret d
  | Rejected e => throw e
  end.

(** [body.name] *)
Definition prop {A B} (body : option A) (name : A -> option B) : M (option B) :=
  match body with
  | Some o => ret (name o)
  | None => throw (TypeError "Cannot read properties of null")
  end.

(** *** The credential cache ([ircam.ts]) *)

Definition TOKEN_WINDOW : Z := 30 * 60 * 1000.

Definition refreshIrcamToken : M (option string) :=
  try_catch
    (response_data <-
       request PostAuth (fun w => authReply env (authPosts w))
         (fun w => with_counters (S (authPosts w)) (submitPosts w) (jobGets w) w) ;;
     tok <- prop response_data id_token ;;
     modify (fun w =>
       with_token tok (Some (now w + TOKEN_WINDOW)) (Some (now w)) w) ;;
     ret tok)
    (fun error => logError "Token refresh failed" error ;; throw error).

Definition getIrcamToken : M (option string) :=
  gets (fun w =>
    if negb (truthy_str (ircamToken w))
       || negb (truthy_num (tokenExpiry w))
       || match tokenExpiry w with
          | Some exp => now w >=? exp
          | None => true
          end
    then None
    else ircamToken w).

Definition ensureValidToken : M (option string) :=
  token <- getIrcamToken ;;
  (if negb (truthy_str token) then refreshIrcamToken ;; ret tt else ret tt) ;;
  getIrcamToken.

(** The headers are determined by the bearer token. *)
Definition getIrcamHeaders : M string :=
  token <- getIrcamToken ;;
  match token with
  | Some t => if truthy_str token then ret t
              else throw (Error "IRCAM token not available")
  | None => throw (Error "IRCAM token not available")
  end.

(** *** The temp directory *)

Definition findDir (name : string) (ds : list DirEntry) : option DirEntry :=
  find (fun d => String.eqb name (d_name d)) ds.

Definition fsCall (op : FsOp) (path : string) : M unit :=
  suspend ;;
  match fsFault env op path with
  | Some e => throw e
  | None => ret tt
  end.

(** [fs.readdir(TEMP_DIR)] *)
Definition readdirTemp : M (list string) :=
  fsCall OpReaddir "" ;;
  gets (fun w => map d_name (tempDir w)).

(** [fs.readdir(path.join(TEMP_DIR, session))] *)
Definition readdirSession (session : string) : M (list string) :=
  fsCall OpReaddir session ;;
  d <- gets (fun w => findDir session (tempDir w)) ;;
  match d with
  | Some e => ret (d_files e)
  | None => throw (FsError "ENOENT" session)
  end.

(** [(await fs.stat(path.join(TEMP_DIR, session))).mtime.getTime()] *)
Definition statMtime (session : string) : M Z :=
  fsCall OpStat session ;;
  d <- gets (fun w => findDir session (tempDir w)) ;;
  match d with
  | Some e => ret (d_mtime e)
  | None => throw (FsError "ENOENT" session)
  end.

(** [path.join(session, file)], relative to [TEMP_DIR]. *)
Definition filePath (session file : string) : string :=
  session ++ "/" ++ file.

Definition existsPath (path : string) (ds : list DirEntry) : bool :=
  existsb (fun d =>
    existsb (fun f => String.eqb path (filePath (d_name d) f)) (d_files d)) ds.

(** [fs.access(path)] and [(await fs.stat(path)).size] *)
Definition accessFile (path : string) : M unit :=
  fsCall OpAccess path ;;
  present <- gets (fun w => existsPath path (tempDir w)) ;;
  if present then ret tt else throw (FsError "ENOENT" path).

Definition statSize (path : string) : M Z :=
  fsCall OpStat path ;;
  present <- gets (fun w => existsPath path (tempDir w)) ;;
  if present then ret (fileSize env path)
  else throw (FsError "ENOENT" path).

(** [fs.rm(sessionPath, { recursive: true, force: true })] *)
Definition rmSession (session : string) : M unit :=
  fsCall OpRm session ;;
  modify (fun w =>
    with_tempDir
      (filter (fun d => negb (String.eqb session (d_name d))) (tempDir w)) w).

(** Creating a file in a directory; a new name changes the directory's
    modification time. *)
Definition addFile (t : Z) (session file : string) (d : DirEntry) : DirEntry :=
  if String.eqb session (d_name d) then
    if existsb (String.eqb file) (d_files d) then d
    else {| d_name := d_name d; d_mtime := t; d_files := d_files d ++ [file] |}
  else d.

Definition writeFile (session file : string) : M unit :=
  fsCall OpWrite (filePath session file) ;;
  d <- gets (fun w => findDir session (tempDir w)) ;;
  match d with
  | Some _ =>
      modify (fun w =>
        with_tempDir (map (addFile (now w) session file) (tempDir w)) w)
  | None => throw (FsError "ENOENT" (filePath session file))
  end.

(** *** [downloadFile] and [spatializeAudio] ([ircam.ts]) *)

Definition typeName (type : ArtifactType) : string :=
  match type with binaural => "binaural" | immersive => "immersive" end.

Definition typeExt (type : ArtifactType) : string :=
  match type with binaural => ".mp3" | immersive => ".wav" end.

Definition downloadFile (fileId : string) (type : ArtifactType)
    (sessionDir : string) : M string :=
  try_catch
    (ensureValidToken ;;
     headers <- getIrcamHeaders ;;
     metadata <- request (GetFileMetadata fileId)
                   (fun _ => metaReply env fileId) (fun w => w) ;;
     originalFilename <- prop metadata filename ;;
     request (GetFileContent fileId) (fun _ => contentReply env fileId)
       (fun w => w) ;;
     match originalFilename with
     | None => throw (TypeError "The path argument must be of type string")
     | Some original =>
         let baseFileName := baseNameOf env original in
         let filename :=
           typeName type ++ "_" ++ baseFileName ++ typeExt type in
         writeFile sessionDir filename ;;
         (* path.relative(TEMP_DIR, outputPath) *)
         ret (filePath sessionDir filename)
     end)
    (fun error => logError "file download failed" error ;; throw error).

Definition isSentinel (processStatus : option string) : bool :=
  match processStatus with
  | Some s => String.eqb s "success" || String.eqb s "error"
  | None => false
  end.

(** The [while] loop of [spatializeAudio].  [fuel] bounds the number of
    iterations; the loop itself has no bound. *)
Fixpoint pollLoop (fuel : nat) (jobId : string)
    (processStatus : option string) (pollCount : nat)
  : M (option string) :=
  if isSentinel processStatus then ret processStatus
  else
    match fuel with
    | O => fun w => (Diverge, w)
    | S fuel' =>
        let pollCount := S pollCount in
        (if (1 <? pollCount)%nat then sleep 5000 else ret tt) ;;
        ensureValidToken ;;
        getIrcamHeaders ;;
        headers <- getIrcamHeaders ;;
        statusData <- request (GetJobStatus jobId)
                        (fun w => jobReply env jobId (jobGets w))
                        (fun w => with_counters (authPosts w) (submitPosts w)
                                    (S (jobGets w)) w) ;;
        jobInfos <- prop statusData job_infos ;;
        match jobInfos with
        | None => throw (Error "Invalid status response: missing job_infos")
        | Some infos => pollLoop fuel' jobId (job_status infos) pollCount
        end
    end.

(** [jobInfos?.report_info?.report] *)
Definition reportOf (jobInfos : option JobInfos) : option Report :=
  match jobInfos with
  | Some infos =>
      match report_info infos with
      | Some info => report info
      | None => None
      end
  | None => None
  end.

Definition fetchFinalReport (jobId : string) : M Report :=
  ensureValidToken ;;
  getIrcamHeaders ;;
  headers <- getIrcamHeaders ;;
  finalData <- request (GetFinalReport jobId)
                 (fun w => jobReply env jobId (jobGets w))
                 (fun w => with_counters (authPosts w) (submitPosts w)
                             (S (jobGets w)) w) ;;
  jobInfos <- prop finalData job_infos ;;
  match reportOf jobInfos with
  | None => throw MalformedResponseError
  | Some r => ret r
  end.

(** From "Monitoring job status" to the report: the spec's
    [runToCompletion]. *)
Definition runToCompletion (fuel : nat) (jobId : string) : M Report :=
  processStatus <- pollLoop fuel jobId None 0 ;;
  match processStatus with
  | Some s =>
      if String.eqb s "error" then throw JobFailedError
      else fetchFinalReport jobId
  | None => fetchFinalReport jobId
  end.

Record Downloads := {
  dl_binaural : option string;
  dl_immersive : option string;
  dl_binauralSize : option Z;
  dl_immersiveSize : option Z;
  dl_zipSize : option Z
}.

Record SpatialResult := {
  r_jobId : string;
  r_report : Report;
  r_downloads : Downloads
}.

(** [report.binauralFile?.id] *)
Definition fileRefId (f : option FileRef) : option string :=
  match f with Some r => id r | None => None end.

Definition downloadIfPresent (f : option FileRef) (type : ArtifactType)
    (sessionDir : string) : M (option string) :=
  match fileRefId f with
  | Some fid =>
      if truthy_str (Some fid) then
        p <- downloadFile fid type sessionDir ;; ret (Some p)
      else ret None
  | None => ret None
  end.

Definition spatializeAudio (fuel : nat) (iasUrl intensity sessionDir : string)
  : M SpatialResult :=
  try_catch
    (ensureValidToken ;;
     headers <- getIrcamHeaders ;;
     response_data <-
       request (PostSubmitJob iasUrl intensity)
         (fun w => submitReply env (submitPosts w))
         (fun w => with_counters (authPosts w) (S (submitPosts w)) (jobGets w) w) ;;
     response_id <- prop response_data submit_id ;;
     match response_id with
     | None => throw JobSubmissionError
     | Some jobId =>
         if negb (truthy_str response_id) then throw JobSubmissionError
         else
           report <- runToCompletion fuel jobId ;;
           b <- downloadIfPresent (binauralFile report) binaural sessionDir ;;
           i <- downloadIfPresent (immersiveFile report) immersive sessionDir ;;
           ret {| r_jobId := jobId;
                  r_report := report;
                  r_downloads :=
                    {| dl_binaural := b; dl_immersive := i;
                       dl_binauralSize := None; dl_immersiveSize := None;
                       dl_zipSize := None |} |}
     end)
    (fun error => logError "Spatialization failed" error ;; throw error).

(** *** The periodic sweeps *)

Definition MAX_SESSION_AGE : Z := 15 * 60 * 1000.

(** [for (const x of xs) { await body(x) }] *)
Fixpoint forEach {A} (xs : list A) (body : A -> M unit) : M unit :=
  match xs with
  | [] => ret tt
  | x :: rest => body x ;; forEach rest body
  end.

(** [cleanupOldFiles] ([routes.ts]) *)
Definition cleanupOldFiles : M unit :=
  try_catch
    (dirs <- readdirTemp ;;
     now_ <- gets now ;;
     forEach dirs (fun session =>
       mtime <- statMtime session ;;
       if now_ - mtime >? MAX_SESSION_AGE then
         rmSession session ;;
         removeSession session
       else ret tt))
    (fun error => logError "Cleanup error" error).

(** [cleanupTempDirectory] ([index.ts]) *)
Definition cleanupTempDirectory : M unit :=
  try_catch
    (currentTime <- gets now ;;
     let MAX_AGE := 15 * 60 * 1000 in
     dirs <- readdirTemp ;;
     forEach dirs (fun session =>
       try_catch
         (mtime <- statMtime session ;;
          let age := currentTime - mtime in
          if age >? MAX_AGE then
            rmSession session ;;
            removeSession session
          else ret tt)
         (fun error => logError "Failed to process session" error)))
    (fun error => logError "Cleanup" error).

(** *** The routes ([routes.ts]) *)

Inductive Body : Type :=
| Message (message : string)
| Result (result : SpatialResult)
| Download (path : string).

Record Response := { status : Z; body : Body }.

(** [Promise.all(xs.map(f))] for an [f] that only reads. *)
Fixpoint mapM {A B} (f : A -> M B) (xs : list A) : M (list B) :=
  match xs with
  | [] => ret []
  | x :: rest => y <- f x ;; ys <- mapM f rest ;; ret (y :: ys)
  end.

(** [.sort((a, b) => b.timestamp - a.timestamp)]: descending and
    stable. *)
Fixpoint insertDesc (x : string * Z) (l : list (string * Z))
  : list (string * Z) :=
  match l with
  | [] => [x]
  | y :: rest =>
      if snd y <=? snd x then x :: y :: rest else y :: insertDesc x rest
  end.

Definition sortDesc (l : list (string * Z)) : list (string * Z) :=
  fold_right insertDesc [] l.

(** The session that the routes work on: the directory of [TEMP_DIR]
    with the latest modification time. *)
Definition latestSessionDir (dirs : list string) : M (option string) :=
  sessionStats <- mapM (fun session =>
                     timestamp <- statMtime session ;;
                     ret (session, timestamp)) dirs ;;
  ret (hd_error (map fst (sortDesc sessionStats))).

Definition zipFileName (originalFileName : string) (t : Z) : string :=
  stripExt env originalFileName ++ "_" ++ isoStamp env t ++ ".zip".

Definition createProcessedFilesZip (sessionDir : string)
    (binauralPath immersivePath originalFileName : string)
  : M string :=
  timestamp <- gets now ;;
  let name := zipFileName originalFileName timestamp in
  (* createWriteStream(zipFilePath) *)
  modify (fun w =>
    with_tempDir (map (addFile (now w) sessionDir name) (tempDir w)) w) ;;
  accessFile binauralPath ;;
  accessFile immersivePath ;;
  (* archive.finalize() and the close of the output stream *)
  fsCall OpZip (filePath sessionDir name) ;;
  ret (filePath sessionDir name).

Definition withSizes (b i : Z) (r : SpatialResult) : SpatialResult :=
  {| r_jobId := r_jobId r;
     r_report := r_report r;
     r_downloads :=
       {| dl_binaural := dl_binaural (r_downloads r);
          dl_immersive := dl_immersive (r_downloads r);
          dl_binauralSize := Some b;
          dl_immersiveSize := Some i;
          dl_zipSize := dl_zipSize (r_downloads r) |} |}.

Definition withZipSize (z : Z) (r : SpatialResult) : SpatialResult :=
  {| r_jobId := r_jobId r;
     r_report := r_report r;
     r_downloads :=
       {| dl_binaural := dl_binaural (r_downloads r);
          dl_immersive := dl_immersive (r_downloads r);
          dl_binauralSize := dl_binauralSize (r_downloads r);
          dl_immersiveSize := dl_immersiveSize (r_downloads r);
          dl_zipSize := Some z |} |}.

Definition zipPatch (path : string) (size : Z) : SessionPatch :=
  {| p_fileId := None; p_iasUrl := None;
     p_zipPath := Some (Some path); p_zipSize := Some (Some size) |}.

(** The part of the handler after [spatializeAudio] has returned. *)
Definition archiveStep (latestSession originalFile : string)
    (result : SpatialResult) : M SpatialResult :=
  match dl_binaural (r_downloads result), dl_immersive (r_downloads result) with
  | Some bpath, Some ipath =>
      if truthy_str (Some bpath) && truthy_str (Some ipath) then
        bsize <- statSize bpath ;;
        isize <- statSize ipath ;;
        let result := withSizes bsize isize result in
        try_catch
          (zipPath_ <- createProcessedFilesZip latestSession bpath ipath
                         originalFile ;;
           zsize <- statSize zipPath_ ;;
           updateSession latestSession (zipPatch zipPath_ zsize) ;;
           ret (withZipSize zsize result))
          (fun error => logError "ZIP creation failed" error ;; ret result)
      else ret result
  | _, _ => ret result
  end.

(** [app.post("/api/spatialize", ...)] *)
Definition spatializeRoute (fuel : nat) (iasUrl : option string)
    (intensity : string) : M Response :=
  match iasUrl with
  | None => ret {| status := 400; body := Message "Missing iasUrl parameter" |}
  | Some url =>
      if negb (truthy_str iasUrl) then
        ret {| status := 400; body := Message "Missing iasUrl parameter" |}
      else
        try_catch
          (dirs <- readdirTemp ;;
           if Nat.eqb (List.length dirs) 0 then
             throw (Error "No active sessions found")
           else
             latest <- latestSessionDir dirs ;;
             match latest with
             | None => throw (TypeError "The path argument must be of type string")
             | Some latestSession =>
                 files <- readdirSession latestSession ;;
                 match find (String.prefix "original_") files with
                 | None => throw (Error "Original file not found")
                 | Some originalFile =>
                     result <- spatializeAudio fuel url intensity latestSession ;;
                     result <- archiveStep latestSession originalFile result ;;
                     ret {| status := 200; body := Result result |}
                 end
             end)
          (fun error =>
             logError "Processing failed" error ;;
             ret {| status := 500; body := Message "Spatialization failed" |})
  end.

(** [app.get("/api/download-file/:sessionId/:type", ...)] *)
Definition downloadFileRoute (sessionId type : string) : M Response :=
  if negb (String.eqb type "binaural") && negb (String.eqb type "immersive")
  then ret {| status := 400; body := Message "Invalid file type requested" |}
  else
    try_catch
      (files <- readdirSession sessionId ;;
       match find (String.prefix (type ++ "_")) files with
       | None =>
           ret {| status := 404; body := Message (type ++ " file not found") |}
       | Some targetFile =>
           ret {| status := 200; body := Download (filePath sessionId targetFile) |}
       end)
      (fun error =>
         ret {| status := 404; body := Message "Session not found" |}).

(** [app.get("/api/download-zip/:sessionId", ...)] *)
Definition downloadZipRoute (sessionId : string) : M Response :=
  sessionData <- getSession sessionId ;;
  match sessionData with
  | None => ret {| status := 404; body := Message "ZIP file not found" |}
  | Some data =>
      match zipPath data with
      | None => ret {| status := 404; body := Message "ZIP file not found" |}
      | Some zipFilePath =>
          if negb (truthy_str (zipPath data)) then
            ret {| status := 404; body := Message "ZIP file not found" |}
          else
            try_catch
              (accessFile zipFilePath ;;
               ret {| status := 200; body := Download zipFilePath |})
              (fun error =>
                 logError "ZIP file not found" error ;;
                 ret {| status := 404; body := Message "ZIP file not found" |})
      end
  end.

End Server.

(** ** The token and its time of issue *)

(** The expiry in the cache is the time of issue plus the window. *)
Definition tokenStamped (w : World) : Prop :=
  match tokenExpiry w, tokenIssuedAt w with
  | Some e, Some i => e = i + TOKEN_WINDOW
  | None, None => True
  | _, _ => False
  end.

(** The same environment, with the provider declaring [declared k] as the
    lifetime of the k-th token it grants. *)
Definition declareExpiry (declared : nat -> option Z) (r : Reply AuthData)
    (k : nat) : Reply AuthData :=
  match r with
  | Resolved (Some d) =>
      Resolved (Some {| id_token := id_token d; expires_in := declared k |})
  | other => other
  end.

Definition withExpiresIn (declared : nat -> option Z) (env : Env) : Env :=
  {| elapsed := elapsed env;
     authReply := fun k => declareExpiry declared (authReply env k) k;
     submitReply := submitReply env;
     jobReply := jobReply env;
     metaReply := metaReply env;
     contentReply := contentReply env;
     fsFault := fsFault env;
     fileSize := fileSize env;
     baseNameOf := baseNameOf env;
     stripExt := stripExt env;
     isoStamp := isoStamp env |}.

(** ** Reading the trace of a poll loop *)

(** What a poll loop shows to an observer of status checks and waits. *)
Inductive PollEv : Type :=
| CheckIssued
| CheckReturned
| Waited (ms : Z).

Definition pollEvOf (e : Event) : option PollEv :=
  match e with
  | Issued (GetJobStatus _) => Some CheckIssued
  | Returned (GetJobStatus _) => Some CheckReturned
  | Slept ms => Some (Waited ms)
  | _ => None
  end.

Fixpoint pollView (evs : list Event) : list PollEv :=
  match evs with
  | [] => []
  | e :: rest =>
      match pollEvOf e with
      | Some p => p :: pollView rest
      | None => pollView rest
      end
  end.


(** The same as an automaton over the view. *)
Inductive PollState : Type := ExpectCheck | ExpectAnswer | ExpectWait.

Definition paceStep (s : PollState) (p : PollEv) : option PollState :=
  match s, p with
  | ExpectCheck, CheckIssued => Some ExpectAnswer
  | ExpectAnswer, CheckReturned => Some ExpectWait
  | ExpectWait, Waited ms => if ms =? 5000 then Some ExpectCheck else None
  | _, _ => None
  end.

Fixpoint runPaced (s : PollState) (view : list PollEv) : option PollState :=
  match view with
  | [] => Some s
  | p :: rest =>
      match paceStep s p with
      | Some s' => runPaced s' rest
      | None => None
      end
  end.

Definition isStatusCheck (e : Event) : bool :=
  match e with Issued (GetJobStatus _) => true | _ => false end.

Definition isReportFetch (e : Event) : bool :=
  match e with Issued (GetFinalReport _) => true | _ => false end.

(** Events of a token refresh. *)
Definition authEvent (e : Event) : bool :=
  match e with
  | Issued PostAuth | Returned PostAuth | Logged _ _ => true
  | _ => false
  end.

(** ** Assumptions on the provider *)

Definition grantsToken (r : Reply AuthData) : bool :=
  match r with
  | Resolved (Some d) => truthy_str (id_token d)
  | _ => false
  end.

(** Every request for a token is granted. *)
Definition authOk (env : Env) : Prop :=
  forall k, grantsToken (authReply env k) = true.

(** The status that a reply to a job request carries, if it has a
    [job_infos] object. *)
Definition statusOf (r : Reply JobData) : option (option string) :=
  match r with
  | Resolved (Some d) =>
      match job_infos d with
      | Some infos => Some (job_status infos)
      | None => None
      end
  | _ => None
  end.

Definition pendingAt (env : Env) (jobId : string) (k : nat) : bool :=
  match statusOf (jobReply env jobId k) with
  | Some st => negb (isSentinel st)
  | None => false
  end.

Definition reportsAt (status : string) (env : Env) (jobId : string) (k : nat)
  : bool :=
  match statusOf (jobReply env jobId k) with
  | Some (Some st) => String.eqb st status
  | _ => false
  end.

(** A step that only refreshes the token: the trace gains events of the
    token endpoint, the clock may advance, the store, the directory and the
    job counters stay. *)
Definition authOnly (w w' : World) : Prop :=
  (exists evs, trace w' = (trace w ++ evs)%list /\
               Forall (fun e => authEvent e = true) evs) /\
  sessions w' = sessions w /\
  tempDir w' = tempDir w /\
  jobGets w' = jobGets w /\
  submitPosts w' = submitPosts w /\
  now w <= now w'.

(** A step whose events take the automaton from [s] to [s'], all status
    checks in it being checks of [jobId]. *)
Definition checksOnly (jobId : string) (e : Event) : Prop :=
  forall j, e = Issued (GetJobStatus j) -> j = jobId.

Definition paces (jobId : string) (s s' : PollState) (w w' : World) : Prop :=
  exists evs,
    trace w' = (trace w ++ evs)%list /\
    runPaced s (pollView evs) = Some s' /\
    Forall (checksOnly jobId) evs.


(** Events between two status checks: a token refresh or the wait. *)
Definition idleEvent (e : Event) : bool :=
  authEvent e || match e with Slept _ => true | _ => false end.

(** One iteration of the poll loop that gets an answer: idle events, then
    the status check and its answer; one more request counted; the store
    and the directory untouched. *)
Definition pollStep (jobId : string) (w w' : World) : Prop :=
  (exists evs,
     trace w' = (trace w ++ evs
                 ++ [Issued (GetJobStatus jobId); Returned (GetJobStatus jobId)])%list /\
     Forall (fun e => idleEvent e = true) evs) /\
  jobGets w' = S (jobGets w) /\
  sessions w' = sessions w /\
  tempDir w' = tempDir w /\
  submitPosts w' = submitPosts w /\
  now w <= now w'.

(** [n] status checks and nothing else on the job endpoint. *)
Definition polled (n : nat) (w w' : World) : Prop :=
  (exists evs,
     trace w' = (trace w ++ evs)%list /\
     filter isReportFetch evs = [] /\
     List.length (filter isStatusCheck evs) = n) /\
  jobGets w' = (jobGets w + n)%nat /\
  sessions w' = sessions w /\
  tempDir w' = tempDir w /\
  submitPosts w' = submitPosts w /\
  now w <= now w'.

(** The final request for the report and nothing else on the job
    endpoint. *)
Definition fetched (jobId : string) (w w' : World) : Prop :=
  (exists evs,
     trace w' = (trace w ++ evs
                 ++ [Issued (GetFinalReport jobId);
                     Returned (GetFinalReport jobId)])%list /\
     Forall (fun e => authEvent e = true) evs) /\
  jobGets w' = S (jobGets w) /\
  sessions w' = sessions w /\
  tempDir w' = tempDir w /\
  submitPosts w' = submitPosts w /\
  now w <= now w'.

(** What [fetchFinalReport] makes of the reply to its request. *)
Definition finalOutcome (r : Reply JobData) : Outcome Report :=
  match r with
  | Resolved (Some d) =>
      match reportOf (job_infos d) with
      | Some rep => Ret rep
      | None => Throw MalformedResponseError
      end
  | Resolved None => Throw (TypeError "Cannot read properties of null")
  | Rejected e => Throw e
  end.

(** ** The sweep as a function on the directory listing *)

Definition expired (t : Z) (d : DirEntry) : bool :=
  t - d_mtime d >? MAX_SESSION_AGE.

(** The file system fails on the entry: [stat] fails, or the entry is
    expired and [rm] fails. *)
Definition sweepFault (env : Env) (t : Z) (d : DirEntry) : bool :=
  match fsFault env OpStat (d_name d) with
  | Some _ => true
  | None =>
      expired t d &&
      match fsFault env OpRm (d_name d) with
      | Some _ => true
      | None => false
      end
  end.

(** What a sweep at time [t] leaves of the listing [ds] and of the
    session map.  [cleanupOldFiles] stops at the first failure,
    [cleanupTempDirectory] goes on with the next entry. *)
Fixpoint sweepModel (stopOnFault : bool) (env : Env) (t : Z)
    (ds : list DirEntry) (m : JsMap.t SessionData)
  : list DirEntry * JsMap.t SessionData :=
  match ds with
  | [] => ([], m)
  | d :: rest =>
      if sweepFault env t d then
        if stopOnFault then (d :: rest, m)
        else let (rest', m') := sweepModel stopOnFault env t rest m in
             (d :: rest', m')
      else if expired t d then
        sweepModel stopOnFault env t rest (JsMap.delete (d_name d) m)
      else let (rest', m') := sweepModel stopOnFault env t rest m in
           (d :: rest', m')
  end.

(** ** Relations that the steps of a request preserve *)

(** A relation between worlds is a framing when it is a preorder that
    holds across the elementary steps of a request: an event, the clock
    moving forward, a counter, a token refresh, a new file.  A store
    framing holds across an update of a session as well. *)
Record Framing (R : World -> World -> Prop) : Prop := {
  fr_refl : forall w, R w w;
  fr_trans : forall a b c, R a b -> R b c -> R a c;
  fr_trace : forall w e, R w (with_trace (trace w ++ [e])%list w);
  fr_now : forall w t, now w <= t -> R w (with_now t w);
  fr_susp : forall w n, R w (with_suspensions n w);
  fr_count : forall w a s j, R w (with_counters a s j w);
  fr_token : forall w tok,
    R w (with_token tok (Some (now w + TOKEN_WINDOW)) (Some (now w)) w);
  fr_addFile : forall w t s f,
    R w (with_tempDir (map (addFile t s f) (tempDir w)) w)
}.

Definition FramesUpdates (R : World -> World -> Prop) : Prop :=
  forall w s cur p,
    JsMap.get s (sessions w) = Some cur ->
    R w (with_sessions (JsMap.set s (applyPatch cur p) (sessions w)) w).


(** The log is only appended to. *)
Definition logGrows (w w' : World) : Prop :=
  exists evs, trace w' = (trace w ++ evs)%list.


(** The token stays stamped. *)
Definition stampKept (w w' : World) : Prop := tokenStamped w -> tokenStamped w'.

(** ** A request that goes well *)

(** The session that the routes pick, as a function of the listing. *)
Definition latestOf (ds : list DirEntry) : option string :=
  hd_error (map fst (sortDesc (map (fun d => (d_name d, d_mtime d)) ds))).

(** Every file system call other than the writing of the archive
    succeeds. *)
Definition fsReliable (env : Env) : Prop :=
  forall op path,
    match op with
    | OpZip => True
    | _ => fsFault env op path = None
    end.

(** The id under which the report offers an artifact, if any. *)
Definition wanted (f : option FileRef) : option string :=
  match fileRefId f with
  | Some fid => if truthy_str (Some fid) then Some fid else None
  | None => None
  end.

(** The name that the storage gives for a file. *)
Definition originalOf (env : Env) (fid : string) : option string :=
  match metaReply env fid with
  | Resolved (Some md) => filename md
  | _ => None
  end.

(** The storage serves the artifact that the report offers. *)
Definition deliverable (env : Env) (f : option FileRef) : Prop :=
  match wanted f with
  | Some fid =>
      originalOf env fid <> None /\ exists c, contentReply env fid = Resolved c
  | None => True
  end.

(** The file name under which [downloadFile] saves an artifact. *)
Definition artifactFile (env : Env) (type : ArtifactType) (f : option FileRef)
  : option string :=
  match wanted f with
  | Some fid =>
      match originalOf env fid with
      | Some original =>
          Some (typeName type ++ "_" ++ baseNameOf env original ++ typeExt type)
      | None => None
      end
  | None => None
  end.

Definition artifactPath (env : Env) (dir : string) (type : ArtifactType)
    (f : option FileRef) : option string :=
  option_map (filePath dir) (artifactFile env type f).

(** The directory after the artifact, if any, was saved at time [t]. *)
Definition withArtifact (t : Z) (dir : string) (name : option string)
    (ds : list DirEntry) : list DirEntry :=
  match name with
  | Some f => map (addFile t dir f) ds
  | None => ds
  end.

(** The job id that a reply to the submission carries. *)
Definition jobIdOf (r : Reply SubmitData) : option string :=
  match r with
  | Resolved (Some sd) =>
      if truthy_str (submit_id sd) then submit_id sd else None
  | _ => None
  end.

(** From its request number [first] on, the provider answers [n] status
    checks of the job with a status that is no sentinel, the next with
    ["success"], and the request after that with the report [rep]. *)
Definition jobSucceeds (env : Env) (jobId : string) (first n : nat)
    (rep : Report) : Prop :=
  (forall k, (k < n)%nat -> pendingAt env jobId (first + k) = true) /\
  reportsAt "success" env jobId (first + n) = true /\
  exists d, jobReply env jobId (first + S n) = Resolved (Some d) /\
            reportOf (job_infos d) = Some rep.

(** The result of [spatializeAudio] for a report. *)
Definition resultFor (env : Env) (jobId dir : string) (rep : Report)
  : SpatialResult :=
  {| r_jobId := jobId;
     r_report := rep;
     r_downloads :=
       {| dl_binaural := artifactPath env dir binaural (binauralFile rep);
          dl_immersive := artifactPath env dir immersive (immersiveFile rep);
          dl_binauralSize := None; dl_immersiveSize := None;
          dl_zipSize := None |} |}.

(** A request to [/api/spatialize] in which everything before the
    archive step goes well: the directory is listed, [latest] is the
    session picked and holds the uploaded file [original], the token is
    granted, the job is accepted as [jobId], succeeds after [n] pending
    answers with the report [rep], and the storage serves the artifacts
    that the report offers. *)
Definition requestGoesWell (env : Env) (fuel : nat) (url : string) (w : World)
    (latest original jobId : string) (n : nat) (rep : Report) : Prop :=
  truthy_str (Some url) = true /\
  authOk env /\
  0 <= now w /\
  fsReliable env /\
  NoDup (map d_name (tempDir w)) /\
  latestOf (tempDir w) = Some latest /\
  (exists d, findDir latest (tempDir w) = Some d /\
             find (String.prefix "original_") (d_files d) = Some original) /\
  jobIdOf (submitReply env (submitPosts w)) = Some jobId /\
  (n < fuel)%nat /\
  jobSucceeds env jobId (jobGets w) n rep /\
  deliverable env (binauralFile rep) /\
  deliverable env (immersiveFile rep).

(** Only the clock and what depends on it moved. *)
Definition onlyLater (w w' : World) : Prop :=
  trace w' = trace w /\ tempDir w' = tempDir w /\ sessions w' = sessions w /\
  jobGets w' = jobGets w /\ submitPosts w' = submitPosts w /\
  now w <= now w'.

(** ** Histories of the session store *)

Inductive StoreOp : Type :=
| OpSave (sessionId : string) (data : SessionData)
| OpUpdate (sessionId : string) (data : SessionPatch)
| OpRemove (sessionId : string).

Definition applyOp (o : StoreOp) : M unit :=
  match o with
  | OpSave s d => saveSession s d
  | OpUpdate s p => updateSession s p
  | OpRemove s => removeSession s
  end.

(** The store after a history, starting from the empty store. *)
Definition replay (ops : list StoreOp) : World :=
  snd (forEach ops applyOp (initialWorld 0)).

Definition opTarget (o : StoreOp) : string :=
  match o with
  | OpSave s _ => s
  | OpUpdate s _ => s
  | OpRemove s => s
  end.

(** The operations of a history that leave session [s] alone. *)
Definition notAbout (s : string) (o : StoreOp) : bool :=
  negb (String.eqb s (opTarget o)).

(** Two readings of "the time of a session", with the n-th operation of a
    history happening at time n.  [createdAt] is the time at which the
    session entered the store (a save of an id that is already there does
    not count); [lastTouchedAt], in the spec's words, the time of the
    last save or update of the session. *)
Record Stamp := { createdAt : nat; lastTouchedAt : nat }.

Definition Stamps := string -> option Stamp.

Definition stampOp (t : nat) (o : StoreOp) (st : Stamps) : Stamps :=
  fun k =>
    if String.eqb k (opTarget o) then
      match o, st k with
      | OpSave _ _, Some s => Some {| createdAt := createdAt s; lastTouchedAt := t |}
      | OpSave _ _, None => Some {| createdAt := t; lastTouchedAt := t |}
      | OpUpdate _ _, Some s => Some {| createdAt := createdAt s; lastTouchedAt := t |}
      | OpUpdate _ _, None => None
      | OpRemove _, _ => None
      end
    else st k.

Fixpoint stampsFrom (t : nat) (ops : list StoreOp) (st : Stamps) : Stamps :=
  match ops with
  | [] => st
  | o :: rest => stampsFrom (S t) rest (stampOp t o st)
  end.

Definition stamps (ops : list StoreOp) : Stamps :=
  stampsFrom 0 ops (fun _ => None).

(** The spec's [latest()]: the result is a session of the store whose
    stamp (under the reading [time]) is the greatest. *)
Definition latestIsGreatest (time : Stamp -> nat) (ops : list StoreOp) : Prop :=
  let w := replay ops in
  match fst (getLatestSession w) with
  | Ret None => sessions w = []
  | Ret (Some (s, d)) =>
      JsMap.get s (sessions w) = Some d /\
      exists st, stamps ops s = Some st /\
        forall s' st', JsMap.has s' (sessions w) = true ->
          stamps ops s' = Some st' -> (time st' <= time st)%nat
  | _ => False
  end.

(** What one operation does to the map. *)
Definition opSessions (o : StoreOp) (m : JsMap.t SessionData)
  : JsMap.t SessionData :=
  match o with
  | OpSave s d => JsMap.set s d m
  | OpUpdate s p =>
      match JsMap.get s m with
      | Some cur => JsMap.set s (applyPatch cur p) m
      | None => m
      end
  | OpRemove s => JsMap.delete s m
  end.

(** The invariant behind [getLatestSession]: the keys of the map stand in
    the order in which the sessions entered it. *)
Definition createdBefore (st : Stamps) (k1 k2 : string) : Prop :=
  match st k1, st k2 with
  | Some a, Some b => (createdAt a < createdAt b)%nat
  | _, _ => False
  end.

Definition chronological (t : nat) (m : JsMap.t SessionData) (st : Stamps)
  : Prop :=
  StronglySorted (createdBefore st) (JsMap.keys m) /\
  (forall k, JsMap.get k m = None <-> st k = None) /\
  (forall k s, st k = Some s -> (createdAt s < t)%nat).

(** ** Sample values for the scenarios of the spec *)

Definition sampleSession (tag : string) : SessionData :=
  {| fileId := Some ("file-" ++ tag); iasUrl := Some ("ias://" ++ tag);
     zipPath := None; zipSize := None |}.

(** A then B are created, then the older one is updated. *)
Definition olderTouchedLast : list StoreOp :=
  [ OpSave "A" (sampleSession "A");
    OpSave "B" (sampleSession "B");
    OpUpdate "A" (zipPatch "A/a.zip" 10) ].

(** A stub provider: it grants a token on every request, accepts every
    job as ["job-1"], answers the k-th status request with the k-th entry
    of [statuses] (then with the last one) and attaches [rep] as the
    report; the file system never fails. *)
Definition statusReply (st : string) (rep : option Report) : Reply JobData :=
  Resolved (Some {| job_infos :=
    Some {| job_status := Some st;
            report_info := Some {| report := rep |} |} |}).

Definition stubProvider (statuses : list string) (rep : option Report) : Env :=
  {| elapsed := fun _ => 20%nat;
     authReply := fun _ =>
       Resolved (Some {| id_token := Some "t0k3n"; expires_in := Some 3600 |});
     submitReply := fun _ => Resolved (Some {| submit_id := Some "job-1" |});
     jobReply := fun _ k => statusReply (nth k statuses (last statuses "pending")) rep;
     metaReply := fun fid => Resolved (Some {| filename := Some (fid ++ ".bin") |});
     contentReply := fun _ => Resolved (Some tt);
     fsFault := fun _ _ => None;
     fileSize := fun _ => 1024;
     baseNameOf := fun name => name;
     stripExt := fun name => name;
     isoStamp := fun _ => "2025-01-01T00-00-00-000Z" |}.

(** The state after one upload: session ["s1"] with its original file. *)
Definition uploadedWorld : World :=
  mkWorld 1000 None None None
    [("s1", sampleSession "s1")]
    [{| d_name := "s1"; d_mtime := 900; d_files := ["original_song.wav"] |}]
    0 0 0 0 [].

Definition onlyBinaural : Report :=
  {| binauralFile := Some {| id := Some "bin-7" |}; immersiveFile := None |}.

Definition bothArtifacts : Report :=
  {| binauralFile := Some {| id := Some "bin-7" |};
     immersiveFile := Some {| id := Some "imm-8" |} |}.

(** Two sessions, last touched 16 and 14 minutes before the clock reads
    [2000000]. *)
Definition oldEntry : DirEntry :=
  {| d_name := "old"; d_mtime := 2000000 - 16 * 60 * 1000;
     d_files := ["original_a.wav"] |}.

Definition youngEntry : DirEntry :=
  {| d_name := "young"; d_mtime := 2000000 - 14 * 60 * 1000;
     d_files := ["original_b.wav"] |}.

Definition agedWorld : World :=
  mkWorld 2000000 None None None
    [("old", sampleSession "old"); ("young", sampleSession "young")]
    [oldEntry; youngEntry]
    0 0 0 0 [].

(** An environment in which no time passes during a suspension. *)
Definition instantProvider : Env :=
  {| elapsed := fun _ => 0%nat;
     authReply := authReply (stubProvider [] None);
     submitReply := submitReply (stubProvider [] None);
     jobReply := jobReply (stubProvider [] None);
     metaReply := metaReply (stubProvider [] None);
     contentReply := contentReply (stubProvider [] None);
     fsFault := fun _ _ => None;
     fileSize := fun _ => 1024;
     baseNameOf := fun name => name;
     stripExt := fun name => name;
     isoStamp := fun _ => "2025-01-01T00-00-00-000Z" |}.




(** ** Two sentences of the spec, as they read *)





(** The stub provider with a file system on which the archive cannot be
    written. *)
Definition zipFailingProvider : Env :=
  {| elapsed := elapsed (stubProvider ["success"] (Some bothArtifacts));
     authReply := authReply (stubProvider ["success"] (Some bothArtifacts));
     submitReply := submitReply (stubProvider ["success"] (Some bothArtifacts));
     jobReply := jobReply (stubProvider ["success"] (Some bothArtifacts));
     metaReply := metaReply (stubProvider ["success"] (Some bothArtifacts));
     contentReply := contentReply (stubProvider ["success"] (Some bothArtifacts));
     fsFault := fun op path =>
       match op with
       | OpZip => Some (FsError "ENOSPC" path)
       | _ => None
       end;
     fileSize := fun _ => 1024;
     baseNameOf := fun name => name;
     stripExt := fun name => name;
     isoStamp := fun _ => "2025-01-01T00-00-00-000Z" |}.

(** ** The rest of the server *)

(** The state in which the answer to a request for a token arrives. *)
Definition afterAuth (env : Env) (w : World) : World :=
  with_trace ((trace w ++ [Issued PostAuth]) ++ [Returned PostAuth])
    (with_suspensions (S (suspensions w))
       (with_now (now w + Z.of_nat (elapsed env (suspensions w)))
          (with_counters (S (authPosts w)) (submitPosts w) (jobGets w)
             (with_trace (trace w ++ [Issued PostAuth]) w)))).

(** The files and the sessions are the same. *)
Definition filesKept (w w' : World) : Prop :=
  tempDir w' = tempDir w /\ sessions w' = sessions w.

(** Nothing but the clock, the count of suspensions and the log moved. *)
Definition onlyRead (w w' : World) : Prop :=
  tempDir w' = tempDir w /\ sessions w' = sessions w /\
  ircamToken w' = ircamToken w /\ tokenExpiry w' = tokenExpiry w /\
  authPosts w' = authPosts w /\ submitPosts w' = submitPosts w /\
  jobGets w' = jobGets w.

(** ** The other routes ([routes.ts]) *)

Inductive ApiBody : Type :=
| StatusOk                                      (* { status: "ok" } *)
| ApiMessage (message : string)
| CurrentFile (audioUrl : option string) (ircam : option SessionData)
| Uploaded (sessionId path : string) (fileId iasUrl : option string).

Record ApiResponse := { api_status : Z; api_body : ApiBody }.

Section OtherRoutes.
Variable env : Env.

(** [app.get("/api/check-token", ...)] *)
Definition checkTokenRoute : M ApiResponse :=
  try_catch
    (token <- getIrcamToken ;;
     (if negb (truthy_str token) then refreshIrcamToken env ;; ret tt
      else ret tt) ;;
     ret {| api_status := 200; api_body := StatusOk |})
    (fun error =>
       logError "Token verification failed" error ;;
       ret {| api_status := 500;
              api_body := ApiMessage "Failed to verify IRCAM token" |}).

(** [app.get("/api/current-file", ...)] *)
Definition currentFileRoute : M ApiResponse :=
  try_catch
    (dirs <- readdirTemp env ;;
     if (0 <? List.length dirs)%nat then
       latest <- latestSessionDir env dirs ;;
       match latest with
       | None => throw (TypeError "The path argument must be of type string")
       | Some latestSession =>
           files <- readdirSession env latestSession ;;
           match find (String.prefix "original_") files with
           | None =>
               ret {| api_status := 200; api_body := CurrentFile None None |}
           | Some originalFile =>
               ircamData <- getSession latestSession ;;
               let audioUrl :=
                 "/temp/" ++ latestSession ++ "/" ++ originalFile in
               ret {| api_status := 200;
                      api_body := CurrentFile (Some audioUrl) ircamData |}
           end
       end
     else ret {| api_status := 200; api_body := CurrentFile None None |})
    (fun error =>
       logError "Failed to get current file" error ;;
       ret {| api_status := 500;
              api_body := ApiMessage "Failed to get current file" |}).

End OtherRoutes.

(** ** Uploads ([routes.ts], [middleware/upload.ts], [ircam.ts]) *)

(** [fileFilter] of the multer instance: [cb(null, true)] or [cb(error)]. *)
Definition allowedTypes : list string :=
  ["audio/flac"; "audio/wav"; "audio/wave"; "audio/x-wav"; "audio/mpeg"].

Definition fileFilter (mimetype : string) : Err + bool :=
  if existsb (String.eqb mimetype) allowedTypes then inr true
  else inl (Error
              "Invalid file type. Only FLAC, WAV and MP3 files are supported.").

(** [filename] of the disk storage.  A character stands for one code
    unit of the JavaScript string. *)
Definition isAlnum (c : Ascii.ascii) : bool :=
  (Ascii.leb "a"%char c && Ascii.leb c "z"%char)
  || (Ascii.leb "A"%char c && Ascii.leb c "Z"%char)
  || (Ascii.leb "0"%char c && Ascii.leb c "9"%char).

(** [.replace(/[^a-zA-Z0-9]/g, '-')] *)
Fixpoint replaceNonAlnum (s : string) : string :=
  match s with
  | EmptyString => EmptyString
  | String c rest =>
      String (if isAlnum c then c else "-"%char) (replaceNonAlnum rest)
  end.

(** [.toLowerCase()] on letters of the basic alphabet; the other code
    units that [replaceNonAlnum] leaves are not letters. *)
Definition lowerChar (c : Ascii.ascii) : Ascii.ascii :=
  if Ascii.leb "A"%char c && Ascii.leb c "Z"%char
  then Ascii.ascii_of_nat (Ascii.nat_of_ascii c + 32)
  else c.

Fixpoint toLowerAscii (s : string) : string :=
  match s with
  | EmptyString => EmptyString
  | String c rest => String (lowerChar c) (toLowerAscii rest)
  end.

(** [extname], [basename] and [toLowerCase] are those of the platform. *)
Definition storageFilename (extname : string -> string)
    (basename : string -> string -> string) (toLowerCase : string -> string)
    (originalname : string) : string :=
  let ext := toLowerCase (extname originalname) in
  let baseName := toLowerAscii (replaceNonAlnum (basename originalname ext)) in
  "original_" ++ baseName ++ ext.

(** [req.file] as multer leaves it: the MIME type that the client
    declared, the session directory ([path.basename(file.destination)])
    and the name of the stored file. *)
Record UploadedFile := {
  u_mimetype : string;
  u_session : string;
  u_filename : string
}.

Record CreateData := { created_id : option string }.
Record StatusData := { ias : option string }.

(** What the storage of the provider, the file system and the duration
    probe answer during an upload. *)
Record UploadEnv := {
  (* get-audio-duration on the stored file, in seconds *)
  audioDuration : string -> Err + QArith_base.Q;
  (* POST manager/, made for the file at a path *)
  createReply : string -> Reply CreateData;
  (* fs.readFile *)
  readFault : string -> option Err;
  (* PUT <storage>/<fileId>/<filename> *)
  putReply : option string -> string -> Reply unit;
  (* GET manager/<fileId> *)
  storageReply : option string -> Reply StatusData
}.

Inductive Verdict : Type :=
| Pass                                          (* next() *)
| Reject (r : ApiResponse).

Definition validatorTypes : list string :=
  ["audio/flac"; "audio/wav"; "audio/wave"; "audio/x-wav"].

(** [MAX_DURATION] of [client/src/lib/constants.ts], in seconds. *)
Definition MAX_DURATION : QArith_base.Q := QArith_base.Qmake (30 * 60) 1.

Section Upload.
Variable env : Env.
Variable uenv : UploadEnv.

(** [validateAudioFile] ([middleware/upload.ts]) *)
Definition validateAudioFile (file : option UploadedFile) : M Verdict :=
  match file with
  | None =>
      ret (Reject {| api_status := 400;
                     api_body := ApiMessage "No file uploaded" |})
  | Some f =>
      if negb (existsb (String.eqb (u_mimetype f)) validatorTypes) then
        ret (Reject
               {| api_status := 400;
                  api_body := ApiMessage
                    "Invalid file type. Only FLAC and WAV files are supported." |})
      else
        try_catch
          (suspend env ;;               (* await import('get-audio-duration') *)
           suspend env ;;               (* await audioDuration.default(path) *)
           match audioDuration uenv (filePath (u_session f) (u_filename f)) with
           | inl e => throw e
           | inr duration =>
               if negb (QArith_base.Qle_bool duration MAX_DURATION) then
                 ret (Reject
                        {| api_status := 400;
                           api_body := ApiMessage
                             "Audio file exceeds maximum duration of 30 minutes" |})
               else ret Pass
           end)
          (fun error =>
             logError "Failed to validate audio file" error ;;
             ret (Reject
                    {| api_status := 400;
                       api_body := ApiMessage
                         "Error validating audio file. Please ensure the file is a valid FLAC or WAV file." |}))
  end.

(** [await axios.post/put/get] on the storage. *)
Definition storageCall {A} (r : Reply A) : M (option A) :=
  suspend env ;;
  match r with
  | Resolved d => ret d
  | Rejected e => throw e
  end.

(** [await fs.readFile(localFilePath)] *)
Definition readFile (path : string) : M unit :=
  suspend env ;;
  match readFault uenv path with
  | Some e => throw e
  | None =>
      present <- gets (fun w => existsPath path (tempDir w)) ;;
      if present then ret tt else throw (FsError "ENOENT" path)
  end.

(** [uploadToIrcamStorage] ([ircam.ts]); the local file is given by its
    session directory and its name. *)
Definition uploadToIrcamStorage (session file : string)
  : M (option string * option string) :=
  let localFilePath := filePath session file in
  try_catch
    (ensureValidToken env ;;
     headers <- getIrcamHeaders ;;
     createData <- storageCall (createReply uenv localFilePath) ;;
     fileId_ <- prop createData created_id ;;
     readFile localFilePath ;;
     ensureValidToken env ;;
     getIrcamHeaders ;;
     storageCall (putReply uenv fileId_ file) ;;
     ensureValidToken env ;;
     getIrcamHeaders ;;
     getIrcamHeaders ;;
     statusData <- storageCall (storageReply uenv fileId_) ;;
     iasUrl_ <- prop statusData ias ;;
     ret (fileId_, iasUrl_))
    (fun error => logError "Storage upload failed" error ;; throw error).

(** [app.post("/api/upload", upload.single("audio"), validateAudioFile,
    async (req, res) => ...)], from [validateAudioFile] on. *)
Definition uploadRoute (file : option UploadedFile) : M ApiResponse :=
  verdict <- validateAudioFile file ;;
  match verdict with
  | Reject r => ret r
  | Pass =>
      match file with
      | None =>
          ret {| api_status := 400; api_body := ApiMessage "No file uploaded" |}
      | Some f =>
          try_catch
            (r <- uploadToIrcamStorage (u_session f) (u_filename f) ;;
             let sessionId := u_session f in
             saveSession sessionId
               {| fileId := fst r; iasUrl := snd r;
                  zipPath := None; zipSize := None |} ;;
             ret {| api_status := 200;
                    api_body :=
                      Uploaded sessionId
                        ("/temp/" ++ sessionId ++ "/" ++ u_filename f)
                        (fst r) (snd r) |})
            (fun error =>
               logError "Upload processing failed" error ;;
               ret {| api_status := 500;
                      api_body := ApiMessage "Upload failed" |})
      end
  end.

End Upload.

(** The session directories and the keys of the store are the same. *)
Definition namesKept (w w' : World) : Prop :=
  map d_name (tempDir w') = map d_name (tempDir w) /\
  JsMap.keys (sessions w') = JsMap.keys (sessions w).

(** [agedWorld] with one more session in the store, which has no
    directory. *)
Definition orphanWorld : World :=
  with_sessions (sessions agedWorld ++ [("ghost", sampleSession "ghost")])%list
    agedWorld.

(** The stub provider with a file system on which [stat] of the directory
    ["young"] fails, and a state in which that directory is listed before
    an expired one. *)
Definition statFailingProvider : Env :=
  {| elapsed := elapsed (stubProvider ["success"] None);
     authReply := authReply (stubProvider ["success"] None);
     submitReply := submitReply (stubProvider ["success"] None);
     jobReply := jobReply (stubProvider ["success"] None);
     metaReply := metaReply (stubProvider ["success"] None);
     contentReply := contentReply (stubProvider ["success"] None);
     fsFault := fun op path =>
       match op with
       | OpStat =>
           if String.eqb path "young" then Some (FsError "EACCES" path)
           else None
       | _ => None
       end;
     fileSize := fun _ => 1024;
     baseNameOf := fun name => name;
     stripExt := fun name => name;
     isoStamp := fun _ => "2025-01-01T00-00-00-000Z" |}.

Definition blockedWorld : World :=
  with_tempDir [youngEntry; oldEntry] agedWorld.

(** The listing of a directory after a file of a given name was written
    into it. *)
Definition addName (f : string) (files : list string) : list string :=
  if existsb (String.eqb f) files then files else (files ++ [f])%list.

Definition addNameOpt (f : option string) (files : list string)
  : list string :=
  match f with Some x => addName x files | None => files end.

(** The file of a report for one type of artifact. *)
Definition reportFile (type : ArtifactType) (rep : Report) : option FileRef :=
  match type with
  | binaural => binauralFile rep
  | immersive => immersiveFile rep
  end.

(** A computation that comes to an end in every state: it returns or
    throws. *)
Definition ends {A} (m : M A) : Prop := forall w, fst (m w) <> Diverge.

(** The characters that the name of an upload is made of, between the
    prefix and the extension. *)
Definition safeChar (c : Ascii.ascii) : bool :=
  (Ascii.leb "a"%char c && Ascii.leb c "z"%char)
  || (Ascii.leb "0"%char c && Ascii.leb c "9"%char)
  || Ascii.eqb c "-"%char.

(** A storage that takes every upload, and a WAV file of 200 seconds in
    the directory of [uploadedWorld]. *)
Definition stubStorage : UploadEnv :=
  {| audioDuration := fun _ => inr (QArith_base.Qmake 200 1);
     createReply := fun _ => Resolved (Some {| created_id := Some "file-9" |});
     readFault := fun _ => None;
     putReply := fun _ _ => Resolved (Some tt);
     storageReply := fun _ =>
       Resolved (Some {| ias := Some "ias://file-9" |}) |}.

Definition sampleUpload : UploadedFile :=
  {| u_mimetype := "audio/wav"; u_session := "s1";
     u_filename := "original_song.wav" |}.

(** The stub provider, answering a submission with a body that has no
    [id]. *)
Definition noJobProvider : Env :=
  {| elapsed := elapsed (stubProvider ["success"] None);
     authReply := authReply (stubProvider ["success"] None);
     submitReply := fun _ => Resolved (Some {| submit_id := None |});
     jobReply := jobReply (stubProvider ["success"] None);
     metaReply := metaReply (stubProvider ["success"] None);
     contentReply := contentReply (stubProvider ["success"] None);
     fsFault := fun _ _ => None;
     fileSize := fun _ => 1024;
     baseNameOf := fun name => name;
     stripExt := fun name => name;
     isoStamp := fun _ => "2025-01-01T00-00-00-000Z" |}.

(** ** Serving [/temp] ([routes.ts]) *)

(** [s.endsWith(suffix)] *)
Definition endsWith (s suffix : string) : bool :=
  let n := String.length s in
  let m := String.length suffix in
  if (m <=? n)%nat then String.eqb (String.substring (n - m) m s) suffix
  else false.

(** The [Content-Type] that [setHeaders] of the static middleware sets
    for a file, if it sets one. *)
Definition staticContentType (filePath : string) : option string :=
  if endsWith filePath ".wav" || endsWith filePath ".flac"
  then Some "audio/wav"
  else if endsWith filePath ".mp3" then Some "audio/mpeg"
  else None.

(* ================================================================== *)
(** * Part II: properties                                              *)
(* ================================================================== *)

Unset Implicit Arguments.

(** ** The monad *)

Lemma bind_ret_l {A B} (a : A) (k : A -> M B) w : bind (ret a) k w = k a w.
Proof. reflexivity. Qed.

(** ** [JsMap] *)

Section JsMapFacts.
Variable V : Type.
Implicit Types (m : JsMap.t V) (k : string) (v : V).

Lemma get_set_same k v m : JsMap.get k (JsMap.set k v m) = Some v.
Proof.
  induction m as [|[k' v'] rest IH]; simpl.
  - now rewrite String.eqb_refl.
  - destruct (String.eqb k k') eqn:E; simpl; rewrite E; auto.
Qed.

Lemma get_set_other k k' v m :
  k' <> k -> JsMap.get k' (JsMap.set k v m) = JsMap.get k' m.
Proof.
  intros Hne. induction m as [|[k0 v0] rest IH]; simpl.
  - apply String.eqb_neq in Hne. now rewrite Hne.
  - destruct (String.eqb k k0) eqn:E; simpl.
    + apply String.eqb_eq in E. subst k0.
      apply String.eqb_neq in Hne. now rewrite Hne.
    + destruct (String.eqb k' k0); auto.
Qed.

Lemma get_delete_same k m : JsMap.get k (JsMap.delete k m) = None.
Proof.
  induction m as [|[k' v'] rest IH]; simpl; auto.
  destruct (String.eqb k k') eqn:E; simpl; auto. now rewrite E.
Qed.

Lemma get_delete_other k k' m :
  k' <> k -> JsMap.get k' (JsMap.delete k m) = JsMap.get k' m.
Proof.
  intros Hne. induction m as [|[k0 v0] rest IH]; simpl; auto.
  destruct (String.eqb k k0) eqn:E; simpl.
  - apply String.eqb_eq in E. subst k0.
    apply String.eqb_neq in Hne. now rewrite Hne.
  - destruct (String.eqb k' k0); auto.
Qed.

Lemma delete_absent k m : JsMap.get k m = None -> JsMap.delete k m = m.
Proof.
  induction m as [|[k' v'] rest IH]; simpl; auto.
  destruct (String.eqb k k') eqn:E; [discriminate|].
  intros H. now rewrite IH.
Qed.

Lemma delete_idem k m :
  JsMap.delete k (JsMap.delete k m) = JsMap.delete k m.
Proof. apply delete_absent, get_delete_same. Qed.

Lemma set_present_keys k v m :
  JsMap.get k m <> None -> JsMap.keys (JsMap.set k v m) = JsMap.keys m.
Proof.
  unfold JsMap.keys.
  induction m as [|[k' v'] rest IH]; simpl; [congruence|].
  destruct (String.eqb k k') eqn:E; simpl; auto.
  intros H. now rewrite IH.
Qed.

Lemma set_absent k v m :
  JsMap.get k m = None -> JsMap.set k v m = (m ++ [(k, v)])%list.
Proof.
  induction m as [|[k' v'] rest IH]; simpl; auto.
  destruct (String.eqb k k') eqn:E; [discriminate|].
  intros H. now rewrite IH.
Qed.

Lemma delete_app k m1 m2 :
  JsMap.delete k (m1 ++ m2)%list
  = (JsMap.delete k m1 ++ JsMap.delete k m2)%list.
Proof.
  induction m1 as [|[k' v'] rest IH]; simpl; auto.
  destruct (String.eqb k k'); simpl; now rewrite IH.
Qed.

Lemma get_In k v m : JsMap.get k m = Some v -> In (k, v) m.
Proof.
  induction m as [|[k' v'] rest IH]; simpl; [discriminate|].
  destruct (String.eqb k k') eqn:E.
  - apply String.eqb_eq in E. subst. intros [= ->]. now left.
  - auto.
Qed.

Lemma get_None_notin k m : JsMap.get k m = None -> ~ In k (JsMap.keys m).
Proof.
  unfold JsMap.keys.
  induction m as [|[k' v'] rest IH]; simpl; auto.
  destruct (String.eqb k k') eqn:E; [discriminate|].
  apply String.eqb_neq in E. intros H [H1|H1]; [congruence|]. now apply IH.
Qed.

Lemma In_keys_get k m : In k (JsMap.keys m) -> JsMap.get k m <> None.
Proof.
  intros Hin Hnone. now apply get_None_notin in Hnone.
Qed.

Lemma get_notin_None k m : ~ In k (JsMap.keys m) -> JsMap.get k m = None.
Proof.
  unfold JsMap.keys.
  induction m as [|[k' v'] rest IH]; simpl; auto.
  intros H. destruct (String.eqb k k') eqn:E.
  - apply String.eqb_eq in E. subst. tauto.
  - apply IH. tauto.
Qed.

Lemma delete_set_same k v m :
  JsMap.delete k (JsMap.set k v m) = JsMap.delete k m.
Proof.
  induction m as [|[k' v'] rest IH]; simpl.
  - now rewrite String.eqb_refl.
  - destruct (String.eqb k k') eqn:E; simpl; rewrite E; auto.
    now rewrite IH.
Qed.

Lemma delete_set_other k k' v m :
  k' <> k ->
  JsMap.delete k (JsMap.set k' v m) = JsMap.set k' v (JsMap.delete k m).
Proof.
  intros Hne. induction m as [|[k0 v0] rest IH]; simpl.
  - apply not_eq_sym in Hne. apply String.eqb_neq in Hne. now rewrite Hne.
  - destruct (String.eqb k' k0) eqn:E; simpl.
    + apply String.eqb_eq in E. subst k0.
      apply not_eq_sym in Hne. apply String.eqb_neq in Hne. rewrite Hne.
      simpl. now rewrite String.eqb_refl.
    + destruct (String.eqb k k0) eqn:E'; simpl; [exact IH|].
      rewrite E. now rewrite IH.
Qed.

Lemma delete_comm k k' m :
  JsMap.delete k (JsMap.delete k' m) = JsMap.delete k' (JsMap.delete k m).
Proof.
  induction m as [|[k0 v0] rest IH]; simpl; auto.
  destruct (String.eqb k' k0) eqn:E, (String.eqb k k0) eqn:E'; simpl;
    rewrite ?E, ?E'; auto.
  now rewrite IH.
Qed.

Lemma get_app_absent k m1 m2 :
  JsMap.get k m1 = None -> JsMap.get k (m1 ++ m2)%list = JsMap.get k m2.
Proof.
  induction m1 as [|[k' v'] rest IH]; simpl; auto.
  destruct (String.eqb k k'); [discriminate|auto].
Qed.

Lemma set_app_absent k v m1 m2 :
  JsMap.get k m1 = None ->
  JsMap.set k v (m1 ++ m2)%list = (m1 ++ JsMap.set k v m2)%list.
Proof.
  induction m1 as [|[k' v'] rest IH]; simpl; auto.
  destruct (String.eqb k k'); [discriminate|].
  intros H. now rewrite IH.
Qed.

Lemma has_In_keys k m : JsMap.has k m = true -> In k (JsMap.keys m).
Proof.
  unfold JsMap.has. intros H.
  destruct (in_dec string_dec k (JsMap.keys m)) as [Hin|Hout]; [exact Hin|].
  apply get_notin_None in Hout. now rewrite Hout in H.
Qed.

End JsMapFacts.

(** ** The session store *)

Lemma with_sessions_same w : with_sessions (sessions w) w = w.
Proof. now destruct w. Qed.

Lemma applyOp_run o w :
  applyOp o w = (Ret tt, with_sessions (opSessions o (sessions w)) w).
Proof.
  destruct o as [s d|s p|s]; simpl; try reflexivity.
  unfold updateSession, bind, gets.
  destruct (JsMap.get s (sessions w)); simpl; [reflexivity|].
  now rewrite with_sessions_same.
Qed.

Lemma forEach_applyOp ops w :
  forEach ops applyOp w
  = (Ret tt, with_sessions (fold_left (fun m o => opSessions o m) ops (sessions w)) w).
Proof.
  revert w. induction ops as [|o ops IH]; intros w; simpl.
  - now rewrite with_sessions_same.
  - unfold bind. rewrite applyOp_run, IH. simpl. reflexivity.
Qed.

Lemma sessions_replay ops :
  sessions (replay ops) = fold_left (fun m o => opSessions o m) ops [].
Proof. unfold replay. now rewrite forEach_applyOp. Qed.

Lemma sessions_replay_snoc ops o :
  sessions (replay (ops ++ [o])) = opSessions o (sessions (replay ops)).
Proof. rewrite !sessions_replay, fold_left_app. reflexivity. Qed.

Lemma getLatestSession_run w :
  getLatestSession w = (Ret (last (map Some (sessions w)) None), w).
Proof.
  unfold getLatestSession, bind, gets, JsMap.entries, ret.
  destruct (sessions w) as [|e m] eqn:E; simpl; [reflexivity|].
  f_equal. rewrite Nat.sub_0_r.
  clear E. revert e. induction m as [|e' m IH]; intros e; simpl; [reflexivity|].
  rewrite IH. destruct m; reflexivity.
Qed.

Lemma last_map_snoc {A} (l : list A) (x : A) :
  last (map Some (l ++ [x])) None = Some x.
Proof.
  rewrite map_app. simpl. now rewrite last_last.
Qed.

(** *** The map keeps the sessions in the order of their creation *)

Lemma sorted_restamp (st st' : Stamps) l :
  StronglySorted (createdBefore st) l ->
  (forall k, In k l ->
     option_map createdAt (st' k) = option_map createdAt (st k)) ->
  StronglySorted (createdBefore st') l.
Proof.
  induction 1 as [|a l Hs IH Hall]; intros Heq; constructor.
  - apply IH. intros k Hk. apply Heq. now right.
  - rewrite Forall_forall in *. intros b Hb.
    specialize (Hall b Hb). unfold createdBefore in *.
    pose proof (Heq a (or_introl eq_refl)) as Ha.
    pose proof (Heq b (or_intror Hb)) as Hb'.
    destruct (st a), (st b), (st' a), (st' b); simpl in *;
      try discriminate; try contradiction.
    injection Ha as ->. injection Hb' as ->. exact Hall.
Qed.

Lemma sorted_snoc {A} (R : A -> A -> Prop) l x :
  StronglySorted R l -> Forall (fun y => R y x) l ->
  StronglySorted R (l ++ [x]).
Proof.
  induction 1 as [|a l Hs IH Hall]; intros Hx; simpl.
  - constructor; constructor.
  - inversion Hx as [|? ? Hax Hlx]; subst. constructor.
    + now apply IH.
    + apply Forall_app. split; [exact Hall|]. now constructor.
Qed.

Lemma sorted_filter {A} (R : A -> A -> Prop) f l :
  StronglySorted R l -> StronglySorted R (filter f l).
Proof.
  induction 1 as [|a l Hs IH Hall]; simpl; [constructor|].
  destruct (f a); [|exact IH]. constructor; [exact IH|].
  rewrite Forall_forall in *. intros b Hb. apply Hall.
  now apply filter_In in Hb.
Qed.

Lemma sorted_last {A} (R : A -> A -> Prop) l x :
  StronglySorted R (l ++ [x]) -> Forall (fun y => R y x) l.
Proof.
  induction l as [|a l IH]; simpl; intros H; [constructor|].
  inversion H as [|? ? Hs Hall]; subst. constructor.
  - rewrite Forall_forall in Hall. apply Hall, in_or_app. right. now left.
  - now apply IH.
Qed.

Lemma keys_delete (m : JsMap.t SessionData) s :
  JsMap.keys (JsMap.delete s m)
  = filter (fun k => negb (String.eqb s k)) (JsMap.keys m).
Proof.
  unfold JsMap.keys. induction m as [|[k v] m IH]; simpl; [reflexivity|].
  destruct (String.eqb s k); simpl; now rewrite IH.
Qed.

Lemma keys_set_absent (m : JsMap.t SessionData) s d :
  JsMap.get s m = None ->
  JsMap.keys (JsMap.set s d m) = (JsMap.keys m ++ [s])%list.
Proof.
  intros H. rewrite set_absent by exact H. unfold JsMap.keys.
  now rewrite map_app.
Qed.

Lemma chronological_init : chronological 0 [] (fun _ => None).
Proof.
  repeat split; simpl; auto; try constructor; discriminate.
Qed.

(** Writing to a session that is in the map: the keys stay as they are. *)
Lemma chronological_write t m st s d a :
  chronological t m st ->
  JsMap.get s m <> None ->
  st s = Some a ->
  chronological (S t) (JsMap.set s d m)
    (fun k => if String.eqb k s
              then Some {| createdAt := createdAt a; lastTouchedAt := t |}
              else st k).
Proof.
  intros (Hsort & Hdom & Hlt) Hpresent Hst. repeat split.
  - rewrite set_present_keys by exact Hpresent.
    apply sorted_restamp with (st := st); [exact Hsort|].
    intros k _. destruct (String.eqb k s) eqn:E; [|reflexivity].
    apply String.eqb_eq in E. subst k. now rewrite Hst.
  - destruct (String.eqb k s) eqn:E.
    + apply String.eqb_eq in E. subst k. now rewrite get_set_same.
    + apply String.eqb_neq in E. rewrite get_set_other by exact E. apply Hdom.
  - destruct (String.eqb k s) eqn:E.
    + apply String.eqb_eq in E. subst k. now rewrite get_set_same.
    + apply String.eqb_neq in E. rewrite get_set_other by exact E. apply Hdom.
  - intros k s0. destruct (String.eqb k s) eqn:E.
    + intros [= <-]. simpl. specialize (Hlt _ _ Hst). lia.
    + intros H. specialize (Hlt _ _ H). lia.
Qed.

Lemma chronological_ext t m st st' :
  chronological t m st -> (forall k, st' k = st k) -> chronological t m st'.
Proof.
  intros (Hsort & Hdom & Hlt) Heq. repeat split.
  - apply sorted_restamp with (st := st); [exact Hsort|].
    intros k _. now rewrite Heq.
  - rewrite Heq. apply Hdom.
  - rewrite Heq. apply Hdom.
  - intros k s. rewrite Heq. apply Hlt.
Qed.

Lemma chronological_later t m st :
  chronological t m st -> chronological (S t) m st.
Proof.
  intros (Hsort & Hdom & Hlt). repeat split; auto; try apply Hdom.
  intros k s H. specialize (Hlt _ _ H). lia.
Qed.

Lemma chronological_step t m st o :
  chronological t m st ->
  chronological (S t) (opSessions o m) (stampOp t o st).
Proof.
  intros Hc. pose proof Hc as (Hsort & Hdom & Hlt).
  destruct o as [s d|s p|s]; simpl.
  - (* save *)
    destruct (JsMap.get s m) as [cur|] eqn:Hget.
    + destruct (st s) as [a|] eqn:Hst;
        [|apply Hdom in Hst; congruence].
      eapply chronological_ext.
      * apply (chronological_write t m st s d a Hc); [congruence|exact Hst].
      * intros k. unfold stampOp. simpl.
        destruct (String.eqb k s) eqn:E; [|reflexivity].
        apply String.eqb_eq in E. subst k. now rewrite Hst.
    + pose proof (proj1 (Hdom s) Hget) as Hst. repeat split.
      * rewrite keys_set_absent by exact Hget.
        apply sorted_snoc.
        -- apply sorted_restamp with (st := st); [exact Hsort|].
           intros k Hk. unfold stampOp. simpl.
           destruct (String.eqb k s) eqn:E; [|reflexivity].
           apply String.eqb_eq in E. subst k.
           now apply get_None_notin in Hget.
        -- rewrite Forall_forall. intros k Hk.
           unfold createdBefore, stampOp. simpl.
           rewrite String.eqb_refl, Hst.
           destruct (String.eqb k s) eqn:E.
           ++ apply String.eqb_eq in E. subst k.
              now apply get_None_notin in Hget.
           ++ destruct (st k) as [b|] eqn:Hk'.
              ** simpl. apply (Hlt _ _ Hk').
              ** apply Hdom in Hk'. now apply In_keys_get in Hk.
      * unfold stampOp. simpl. destruct (String.eqb k s) eqn:E.
        -- apply String.eqb_eq in E. subst k. now rewrite get_set_same.
        -- apply String.eqb_neq in E. rewrite get_set_other by exact E.
           apply Hdom.
      * unfold stampOp. simpl. destruct (String.eqb k s) eqn:E.
        -- apply String.eqb_eq in E. subst k. now rewrite Hst.
        -- apply String.eqb_neq in E. rewrite get_set_other by exact E.
           apply Hdom.
      * intros k s0. unfold stampOp. simpl.
        destruct (String.eqb k s) eqn:E.
        -- apply String.eqb_eq in E. subst k.
           rewrite Hst. intros [= <-]. simpl. lia.
        -- intros H. specialize (Hlt _ _ H). lia.
  - (* update *)
    destruct (JsMap.get s m) as [cur|] eqn:Hget.
    + destruct (st s) as [a|] eqn:Hst;
        [|apply Hdom in Hst; congruence].
      eapply chronological_ext.
      * apply (chronological_write t m st s (applyPatch cur p) a Hc);
          [congruence|exact Hst].
      * intros k. unfold stampOp. simpl.
        destruct (String.eqb k s) eqn:E; [|reflexivity].
        apply String.eqb_eq in E. subst k. now rewrite Hst.
    + pose proof (proj1 (Hdom s) Hget) as Hst.
      eapply chronological_ext; [apply chronological_later, Hc|].
      intros k. unfold stampOp. simpl.
      destruct (String.eqb k s) eqn:E; [|reflexivity].
      apply String.eqb_eq in E. subst k. now rewrite Hst.
  - (* remove *)
    repeat split.
    + rewrite keys_delete.
      apply sorted_restamp with (st := st); [now apply sorted_filter|].
      intros k Hk. apply filter_In in Hk. destruct Hk as [_ Hk].
      unfold stampOp. simpl. rewrite String.eqb_sym.
      destruct (String.eqb s k); [discriminate|reflexivity].
    + unfold stampOp. simpl. destruct (String.eqb k s) eqn:E; [reflexivity|].
      apply String.eqb_neq in E. rewrite get_delete_other by exact E.
      apply Hdom.
    + unfold stampOp. simpl. destruct (String.eqb k s) eqn:E.
      * apply String.eqb_eq in E. subst k. intros _. apply get_delete_same.
      * apply String.eqb_neq in E. rewrite get_delete_other by exact E.
        apply Hdom.
    + intros k s0. unfold stampOp. simpl.
      destruct (String.eqb k s); [discriminate|].
      intros H. specialize (Hlt _ _ H). lia.
Qed.

Lemma chronological_fold ops : forall t m st,
  chronological t m st ->
  chronological (t + List.length ops)
    (fold_left (fun m o => opSessions o m) ops m) (stampsFrom t ops st).
Proof.
  induction ops as [|o ops IH]; intros t m st Hc; simpl.
  - now rewrite Nat.add_0_r.
  - replace (t + S (List.length ops))%nat with (S t + List.length ops)%nat by lia.
    apply IH. now apply chronological_step.
Qed.

Lemma chronological_replay ops :
  chronological (List.length ops) (sessions (replay ops)) (stamps ops).
Proof.
  rewrite sessions_replay. unfold stamps.
  apply (chronological_fold ops _ _ _ chronological_init).
Qed.

Lemma latest_replay_snoc ops k d :
  sessions (replay ops) = (removelast (sessions (replay ops)) ++ [(k, d)])%list ->
  fst (getLatestSession (replay ops)) = Ret (Some (k, d)).
Proof.
  intros H. rewrite getLatestSession_run. simpl. rewrite H.
  now rewrite last_map_snoc.
Qed.

Lemma latest_of_sessions w m k d :
  sessions w = (m ++ [(k, d)])%list ->
  fst (getLatestSession w) = Ret (Some (k, d)).
Proof.
  intros H. rewrite getLatestSession_run. simpl. rewrite H.
  now rewrite last_map_snoc.
Qed.

Lemma latest_created_last ops : latestIsGreatest createdAt ops.
Proof.
  unfold latestIsGreatest.
  destruct (chronological_replay ops) as (Hsort & Hdom & _).
  rewrite getLatestSession_run. simpl.
  set (l0 := sessions (replay ops)) in *. clearbody l0.
  induction l0 as [|e0 l _] using rev_ind; [reflexivity|].
  destruct e0 as [k d]. rewrite last_map_snoc.
  unfold JsMap.keys in Hsort. rewrite map_app in Hsort. simpl in Hsort.
  apply sorted_last in Hsort. rewrite Forall_forall in Hsort.
  assert (Hfresh : JsMap.get k l = None).
  { apply get_notin_None. intros Hin. specialize (Hsort _ Hin).
    unfold createdBefore in Hsort. destruct (stamps ops k); [lia|exact Hsort]. }
  assert (Hget : JsMap.get k (l ++ [(k, d)])%list = Some d).
  { rewrite get_app_absent by exact Hfresh. simpl. now rewrite String.eqb_refl. }
  split; [exact Hget|].
  destruct (stamps ops k) as [st|] eqn:Hst;
    [|apply Hdom in Hst; congruence].
  exists st. split; [reflexivity|].
  intros s' st' Hhas Hst'. apply has_In_keys in Hhas.
  unfold JsMap.keys in Hhas. rewrite map_app in Hhas.
  apply in_app_or in Hhas. destruct Hhas as [Hin|[<-|[]]].
  - specialize (Hsort _ Hin). unfold createdBefore in Hsort.
    rewrite Hst', Hst in Hsort. lia.
  - simpl in Hst'. rewrite Hst in Hst'. injection Hst' as <-. lia.
Qed.

(** C1, as the spec states it, fails: with A created, B created and A
    updated afterwards, [getLatestSession] answers B although A was
    touched last. *)
Lemma latest_is_not_last_touched :
  ~ latestIsGreatest lastTouchedAt olderTouchedLast.
Proof.
  unfold latestIsGreatest. vm_compute.
  intros [_ [st [Hst H]]].
  injection Hst as <-.
  specialize (H "A" {| createdAt := 0; lastTouchedAt := 2 |} eq_refl eq_refl).
  simpl in H. lia.
Qed.

(** C1 (amended): [getLatestSession] answers nothing on an empty store and
    otherwise the session that entered the store last; saving or updating
    a session that is already there does not move it.  After A then B are
    created the answer is B, after B is removed it is A, and an update of
    A after the creation of B leaves the answer at B. *)
Theorem getLatestSession_most_recently_created :
  (forall w, sessions w = [] -> getLatestSession w = (Ret None, w)) /\
  (forall ops, latestIsGreatest createdAt ops) /\
  (forall ops A B dA dB p,
     String.eqb A B = false ->
     JsMap.get A (sessions (replay ops)) = None ->
     JsMap.get B (sessions (replay ops)) = None ->
     fst (getLatestSession (replay (ops ++ [OpSave A dA; OpSave B dB])))
       = Ret (Some (B, dB)) /\
     fst (getLatestSession
            (replay (ops ++ [OpSave A dA; OpSave B dB; OpRemove B])))
       = Ret (Some (A, dA)) /\
     fst (getLatestSession
            (replay (ops ++ [OpSave A dA; OpSave B dB; OpUpdate A p])))
       = Ret (Some (B, dB))).
Proof.
  split; [|split].
  - intros w H. rewrite getLatestSession_run, H. reflexivity.
  - exact latest_created_last.
  - intros ops A B dA dB p HAB HA HB.
    assert (HBA : String.eqb B A = false) by now rewrite String.eqb_sym.
    set (m0 := sessions (replay ops)) in *.
    assert (E2 : sessions (replay (ops ++ [OpSave A dA; OpSave B dB]))
                 = (m0 ++ [(A, dA)] ++ [(B, dB)])%list).
    { rewrite sessions_replay, fold_left_app, <- sessions_replay. simpl.
      fold m0. rewrite (@set_absent _ A dA m0 HA).
      rewrite set_app_absent by exact HB. simpl. now rewrite HBA. }
    split; [|split].
    + apply latest_of_sessions with (m := (m0 ++ [(A, dA)])%list).
      rewrite E2. now rewrite app_assoc.
    + apply latest_of_sessions with (m := m0).
      replace (ops ++ [OpSave A dA; OpSave B dB; OpRemove B])%list
        with ((ops ++ [OpSave A dA; OpSave B dB]) ++ [OpRemove B])%list
        by now rewrite <- app_assoc.
      rewrite sessions_replay_snoc, E2. simpl.
      rewrite delete_app. rewrite delete_absent by exact HB. simpl.
      now rewrite HBA, String.eqb_refl.
    + apply latest_of_sessions with (m := (m0 ++ [(A, applyPatch dA p)])%list).
      replace (ops ++ [OpSave A dA; OpSave B dB; OpUpdate A p])%list
        with ((ops ++ [OpSave A dA; OpSave B dB]) ++ [OpUpdate A p])%list
        by now rewrite <- app_assoc.
      rewrite sessions_replay_snoc, E2. simpl.
      rewrite get_app_absent by exact HA. simpl. rewrite String.eqb_refl.
      rewrite set_app_absent by exact HA. simpl. rewrite String.eqb_refl.
      now rewrite <- app_assoc.
Qed.

Lemma getLatestSession_most_recently_created_witness :
  fst (getLatestSession
         (replay ([] ++ [OpSave "A" (sampleSession "A");
                         OpSave "B" (sampleSession "B")])))
    = Ret (Some ("B", sampleSession "B")) /\
  fst (getLatestSession
         (replay ([] ++ [OpSave "A" (sampleSession "A");
                         OpSave "B" (sampleSession "B"); OpRemove "B"])))
    = Ret (Some ("A", sampleSession "A")) /\
  fst (getLatestSession
         (replay ([] ++ [OpSave "A" (sampleSession "A");
                         OpSave "B" (sampleSession "B");
                         OpUpdate "A" (zipPatch "A/a.zip" 10)])))
    = Ret (Some ("B", sampleSession "B")).
Proof.
  apply (proj2 (proj2 getLatestSession_most_recently_created)
           [] "A" "B" (sampleSession "A") (sampleSession "B")
           (zipPatch "A/a.zip" 10));
    reflexivity.
Defined.

(** *** Eviction *)

Lemma delete_opSessions_same s o m :
  opTarget o = s ->
  JsMap.delete s (opSessions o m) = JsMap.delete s m.
Proof.
  intros <-. destruct o as [k d|k p|k]; simpl.
  - apply delete_set_same.
  - destruct (JsMap.get k m); [apply delete_set_same|reflexivity].
  - apply delete_idem.
Qed.

Lemma delete_opSessions_other s o m :
  opTarget o <> s ->
  JsMap.delete s (opSessions o m) = opSessions o (JsMap.delete s m).
Proof.
  intros Hne. destruct o as [k d|k p|k]; simpl in *.
  - now apply delete_set_other.
  - rewrite get_delete_other by exact Hne.
    destruct (JsMap.get k m); [now apply delete_set_other|reflexivity].
  - apply delete_comm.
Qed.

Lemma delete_fold s ops : forall m,
  JsMap.delete s (fold_left (fun m o => opSessions o m) ops m)
  = fold_left (fun m o => opSessions o m) (filter (notAbout s) ops)
      (JsMap.delete s m).
Proof.
  induction ops as [|o ops IH]; intros m; simpl; [reflexivity|].
  rewrite IH. unfold notAbout at 2.
  destruct (String.eqb s (opTarget o)) eqn:E; simpl.
  - apply String.eqb_eq in E. now rewrite delete_opSessions_same.
  - apply String.eqb_neq in E.
    rewrite delete_opSessions_other by congruence. reflexivity.
Qed.

(** C8: [removeSession] returns normally on every id and in every state;
    a second call, or a call on an id that is not there, changes nothing;
    afterwards [getSession] answers nothing for the id, the other sessions
    are as before, and the whole map is the one that the same history
    without the operations on that id would have built. *)
Theorem removeSession_total_idempotent : forall sessionId,
  (forall w, exists w',
     removeSession sessionId w = (Ret tt, w') /\
     removeSession sessionId w' = (Ret tt, w') /\
     getSession sessionId w' = (Ret None, w') /\
     JsMap.keys (sessions w')
       = filter (fun k => negb (String.eqb sessionId k)) (JsMap.keys (sessions w)) /\
     w' = with_sessions (JsMap.delete sessionId (sessions w)) w) /\
  (forall w k, String.eqb k sessionId = false ->
     fst (getSession k (snd (removeSession sessionId w))) = fst (getSession k w)) /\
  (forall w, fst (getSession sessionId w) = Ret None ->
     removeSession sessionId w = (Ret tt, w)) /\
  (forall ops,
     sessions (snd (removeSession sessionId (replay ops)))
     = sessions (replay (filter (notAbout sessionId) ops))).
Proof.
  intros s. split; [|split; [|split]].
  - intros w. eexists. split; [reflexivity|].
    unfold removeSession, getSession, modify, gets. simpl.
    rewrite delete_idem, get_delete_same, keys_delete.
    repeat split.
  - intros w k Hk. apply String.eqb_neq in Hk.
    unfold removeSession, getSession, modify, gets. simpl.
    now rewrite get_delete_other.
  - intros w H. unfold getSession, gets in H. simpl in H.
    injection H as H.
    unfold removeSession, modify. rewrite delete_absent by exact H.
    now rewrite with_sessions_same.
  - intros ops. unfold removeSession, modify. simpl.
    rewrite !sessions_replay. rewrite delete_fold. reflexivity.
Qed.

Lemma removeSession_total_idempotent_witness :
  fst (getSession "A" (snd (removeSession "B" (replay olderTouchedLast))))
    = fst (getSession "A" (replay olderTouchedLast)) /\
  removeSession "C" (replay olderTouchedLast)
    = (Ret tt, replay olderTouchedLast).
Proof.
  split.
  - apply (proj1 (proj2 (removeSession_total_idempotent "B"))). reflexivity.
  - apply (proj1 (proj2 (proj2 (removeSession_total_idempotent "C")))).
    reflexivity.
Defined.

(** *** Updates *)

(** C10: on a session that is in the store, [updateSession] sets the
    fields that the patch carries and keeps every other field of the
    record, every other session, the order of the map and the rest of
    the state; on an id that is not there it changes nothing; it never
    throws. *)
Theorem updateSession_frame : forall sessionId data w,
  match JsMap.get sessionId (sessions w) with
  | Some cur =>
      exists new,
        updateSession sessionId data w
          = (Ret tt, with_sessions (JsMap.set sessionId new (sessions w)) w) /\
        fst (getSession sessionId (snd (updateSession sessionId data w)))
          = Ret (Some new) /\
        (forall v, p_fileId data = Some v -> fileId new = v) /\
        (p_fileId data = None -> fileId new = fileId cur) /\
        (forall v, p_iasUrl data = Some v -> iasUrl new = v) /\
        (p_iasUrl data = None -> iasUrl new = iasUrl cur) /\
        (forall v, p_zipPath data = Some v -> zipPath new = v) /\
        (p_zipPath data = None -> zipPath new = zipPath cur) /\
        (forall v, p_zipSize data = Some v -> zipSize new = v) /\
        (p_zipSize data = None -> zipSize new = zipSize cur) /\
        (forall k, k <> sessionId ->
           fst (getSession k (snd (updateSession sessionId data w)))
           = fst (getSession k w)) /\
        JsMap.keys (sessions (snd (updateSession sessionId data w)))
          = JsMap.keys (sessions w)
  | None => updateSession sessionId data w = (Ret tt, w)
  end.
Proof.
  intros s p w. unfold updateSession, bind, gets, getSession. simpl.
  destruct (JsMap.get s (sessions w)) as [cur|] eqn:Hget; [|reflexivity].
  exists (applyPatch cur p). simpl.
  rewrite get_set_same.
  repeat split.
  - intros v H. simpl. now rewrite H.
  - intros H. simpl. now rewrite H.
  - intros v H. simpl. now rewrite H.
  - intros H. simpl. now rewrite H.
  - intros v H. simpl. now rewrite H.
  - intros H. simpl. now rewrite H.
  - intros v H. simpl. now rewrite H.
  - intros H. simpl. now rewrite H.
  - intros k Hk. now rewrite get_set_other.
  - apply set_present_keys. congruence.
Qed.

(** ** Relations that every step of a computation respects *)

Definition respects {A} (R : World -> World -> Prop) (m : M A) : Prop :=
  forall w, R w (snd (m w)).

Section Respects.
Variable R : World -> World -> Prop.
Hypothesis R_refl : forall w, R w w.
Hypothesis R_trans : forall a b c, R a b -> R b c -> R a c.

Lemma respects_ret {A} (a : A) : respects R (ret a).
Proof. intros w. apply R_refl. Qed.

Lemma respects_throw {A} e : respects R (@throw A e).
Proof. intros w. apply R_refl. Qed.

Lemma respects_gets {A} (f : World -> A) : respects R (gets f).
Proof. intros w. apply R_refl. Qed.

Lemma respects_diverge {A} : respects R (fun w => (@Diverge A, w)).
Proof. intros w. apply R_refl. Qed.

Lemma respects_modify f : (forall w, R w (f w)) -> respects R (modify f).
Proof. intros H w. apply H. Qed.

Lemma respects_bind {A B} (m : M A) (k : A -> M B) :
  respects R m -> (forall a, respects R (k a)) -> respects R (bind m k).
Proof.
  intros Hm Hk w. unfold bind. specialize (Hm w).
  destruct (m w) as [[a|e|] w1]; simpl in *; auto.
  eapply R_trans; [exact Hm|apply Hk].
Qed.

Lemma respects_try_catch {A} (m : M A) (h : Err -> M A) :
  respects R m -> (forall e, respects R (h e)) -> respects R (try_catch m h).
Proof.
  intros Hm Hh w. unfold try_catch. specialize (Hm w).
  destruct (m w) as [[a|e|] w1]; simpl in *; auto.
  eapply R_trans; [exact Hm|apply Hh].
Qed.

Lemma respects_prop {A B} (b : option A) (f : A -> option B) :
  respects R (prop b f).
Proof. destruct b; [apply respects_ret|apply respects_throw]. Qed.

Lemma respects_forEach {A} (xs : list A) (body : A -> M unit) :
  (forall x, respects R (body x)) -> respects R (forEach xs body).
Proof.
  intros H. induction xs as [|x xs IH]; simpl.
  - apply respects_ret.
  - apply respects_bind; auto.
Qed.

Lemma respects_mapM {A B} (f : A -> M B) (xs : list A) :
  (forall x, respects R (f x)) -> respects R (mapM f xs).
Proof.
  intros H. induction xs as [|x xs IH]; simpl.
  - apply respects_ret.
  - apply respects_bind; [auto|]. intros y.
    apply respects_bind; [auto|]. intros ys. apply respects_ret.
Qed.

End Respects.

(** One step of a proof that a computation respects a relation: open the
    outermost construct of the computation. *)
Ltac respects_step Hrefl Htrans :=
  lazymatch goal with
  | |- respects _ (bind _ _) =>
      apply (respects_bind _ Htrans); [|intros ?]
  | |- respects _ (try_catch _ _) =>
      apply (respects_try_catch _ Htrans); [|intros ?]
  | |- respects _ (ret _) => apply (respects_ret _ Hrefl)
  | |- respects _ (throw _) => apply (respects_throw _ Hrefl)
  | |- respects _ (gets _) => apply (respects_gets _ Hrefl)
  | |- respects _ (prop _ _) => apply (respects_prop _ Hrefl)
  | |- respects _ (fun w => (Diverge, w)) => apply (respects_diverge _ Hrefl)
  | |- respects _ (match ?x with _ => _ end) => destruct x
  end.

(** ** The credential cache *)

Lemma getIrcamToken_run w :
  exists r, getIrcamToken w = (Ret r, w) /\
    (forall tok, r = Some tok ->
       ircamToken w = Some tok /\ truthy_str (Some tok) = true /\
       exists exp, tokenExpiry w = Some exp /\ now w < exp).
Proof.
  unfold getIrcamToken, gets. eexists. split; [reflexivity|].
  intros tok.
  destruct (truthy_str (ircamToken w)) eqn:Ht; simpl; [|discriminate].
  destruct (tokenExpiry w) as [exp|] eqn:He; simpl; [|discriminate].
  destruct (negb (exp =? 0)); simpl; [|discriminate].
  destruct (now w >=? exp) eqn:Hge; [discriminate|].
  intros H. rewrite H in Ht. repeat split; auto.
  exists exp. split; [reflexivity|]. rewrite Z.geb_leb in Hge.
  apply Z.leb_gt in Hge. exact Hge.
Qed.

Lemma getIrcamToken_expired w exp :
  tokenExpiry w = Some exp -> exp <= now w -> getIrcamToken w = (Ret None, w).
Proof.
  intros He Hle. unfold getIrcamToken, gets. rewrite He.
  replace (now w >=? exp) with true by (symmetry; apply Z.geb_le; lia).
  now rewrite !orb_true_r.
Qed.

(** What a refresh that returns leaves in the cache. *)
Lemma refreshIrcamToken_returns env w tok w' :
  refreshIrcamToken env w = (Ret tok, w') ->
  ircamToken w' = tok /\
  tokenExpiry w' = Some (now w' + 30 * 60 * 1000) /\
  tokenIssuedAt w' = Some (now w').
Proof.
  unfold refreshIrcamToken, try_catch, request, bind, emit, modify, gets,
    suspend, prop, logError, ret, throw. simpl.
  destruct (authReply env (authPosts w)) as [[d|]|e]; simpl;
    intros H; inversion H; subst; simpl; auto.
Qed.

Lemma refreshIrcamToken_stamped env w :
  tokenStamped w -> tokenStamped (snd (refreshIrcamToken env w)).
Proof.
  unfold refreshIrcamToken, try_catch, request, bind, emit, modify, gets,
    suspend, prop, logError, ret, throw, tokenStamped. simpl.
  destruct (authReply env (authPosts w)) as [[d|]|e]; simpl; auto.
Qed.

Lemma refreshIrcamToken_ignores_declared env declared w :
  refreshIrcamToken (withExpiresIn declared env) w = refreshIrcamToken env w.
Proof.
  unfold refreshIrcamToken, try_catch, request, bind, emit, modify, gets,
    suspend, prop, logError, ret, throw. simpl.
  unfold declareExpiry.
  destruct (authReply env (authPosts w)) as [[d|]|e]; reflexivity.
Qed.

Lemma ensureValidToken_stamped env w :
  tokenStamped w -> tokenStamped (snd (ensureValidToken env w)).
Proof.
  intros Hs. unfold ensureValidToken, bind.
  destruct (getIrcamToken_run w) as (r & -> & _).
  destruct (negb (truthy_str r)).
  - pose proof (refreshIrcamToken_stamped env w Hs) as H.
    unfold bind. destruct (refreshIrcamToken env w) as [[a|e|] w1]; simpl in *;
      auto.
  - simpl. exact Hs.
Qed.

Lemma ensureValidToken_returns env w tok w' :
  ensureValidToken env w = (Ret (Some tok), w') ->
  ircamToken w' = Some tok /\ truthy_str (Some tok) = true /\
  exists exp, tokenExpiry w' = Some exp /\ now w' < exp.
Proof.
  unfold ensureValidToken, bind.
  destruct (getIrcamToken_run w) as (r & -> & _).
  destruct (negb (truthy_str r)).
  - unfold bind. destruct (refreshIrcamToken env w) as [[a|e|] w1]; simpl;
      try discriminate.
    destruct (getIrcamToken_run w1) as (r1 & E & Hr1). rewrite E.
    intros H. inversion H; subst. now apply Hr1.
  - simpl. destruct (getIrcamToken_run w) as (r1 & E & Hr1). rewrite E.
    intros H. inversion H; subst. now apply Hr1.
Qed.

(** C7: a token that [ensureValidToken] returns was issued less than the
    30 minute window ago.  The cache starts empty; a refresh stores the
    time of issue plus 30 minutes as the expiry, whatever lifetime the
    provider declares; [getIrcamToken] returns nothing once the clock has
    reached the expiry. *)
Theorem ensureValidToken_within_window :
  (forall t0, tokenStamped (initialWorld t0)) /\
  (forall env w, tokenStamped w ->
     tokenStamped (snd (refreshIrcamToken env w)) /\
     tokenStamped (snd (ensureValidToken env w)) /\
     forall tok, fst (ensureValidToken env w) = Ret (Some tok) ->
       exists issued,
         tokenIssuedAt (snd (ensureValidToken env w)) = Some issued /\
         ircamToken (snd (ensureValidToken env w)) = Some tok /\
         now (snd (ensureValidToken env w)) - issued < 30 * 60 * 1000) /\
  (forall env w tok w', refreshIrcamToken env w = (Ret tok, w') ->
     tokenIssuedAt w' = Some (now w') /\
     tokenExpiry w' = Some (now w' + 30 * 60 * 1000)) /\
  (forall env declared w,
     refreshIrcamToken (withExpiresIn declared env) w
     = refreshIrcamToken env w) /\
  (forall w exp, tokenExpiry w = Some exp -> now w >= exp ->
     getIrcamToken w = (Ret None, w)).
Proof.
  split; [|split; [|split; [|split]]].
  - intros t0. exact I.
  - intros env w Hs. split; [now apply refreshIrcamToken_stamped|].
    pose proof (ensureValidToken_stamped env w Hs) as Hs'.
    split; [exact Hs'|].
    intros tok Hret.
    destruct (ensureValidToken env w) as [r w'] eqn:E. simpl in *. subst r.
    destruct (ensureValidToken_returns _ _ _ _ E) as (Htok & _ & exp & Hexp & Hlt).
    unfold tokenStamped in Hs'. rewrite Hexp in Hs'.
    destruct (tokenIssuedAt w') as [iss|]; [|contradiction].
    exists iss. repeat split; auto. unfold TOKEN_WINDOW in Hs'. lia.
  - intros env w tok w' H.
    destruct (refreshIrcamToken_returns _ _ _ _ H) as (_ & He & Hi). auto.
  - intros. apply refreshIrcamToken_ignores_declared.
  - intros w exp He Hge. apply getIrcamToken_expired with (exp := exp); auto.
    lia.
Qed.

(** ** Running a computation step by step *)

Lemma bind_run_ret {A B} (m : M A) (k : A -> M B) w a w1 :
  m w = (Ret a, w1) -> bind m k w = k a w1.
Proof. intros H. unfold bind. now rewrite H. Qed.

Lemma bind_run_throw {A B} (m : M A) (k : A -> M B) w e w1 :
  m w = (Throw e, w1) -> bind m k w = (Throw e, w1).
Proof. intros H. unfold bind. now rewrite H. Qed.

Lemma try_run_ret {A} (m : M A) h w a w1 :
  m w = (Ret a, w1) -> try_catch m h w = (Ret a, w1).
Proof. intros H. unfold try_catch. now rewrite H. Qed.

Lemma try_run_throw {A} (m : M A) h w e w1 :
  m w = (Throw e, w1) -> try_catch m h w = h e w1.
Proof. intros H. unfold try_catch. now rewrite H. Qed.

Lemma authOnly_refl w : authOnly w w.
Proof.
  unfold authOnly. repeat split; try lia.
  exists []. split; [now rewrite app_nil_r|constructor].
Qed.

Lemma authOnly_trans a b c : authOnly a b -> authOnly b c -> authOnly a c.
Proof.
  intros ((e1 & H1 & F1) & S1 & D1 & J1 & P1 & N1)
         ((e2 & H2 & F2) & S2 & D2 & J2 & P2 & N2).
  unfold authOnly. repeat split; try congruence; try lia.
  exists (e1 ++ e2)%list. split.
  - now rewrite H2, H1, app_assoc.
  - apply Forall_app. now split.
Qed.

Lemma authOnly_emit e w :
  authEvent e = true -> authOnly w (with_trace (trace w ++ [e]) w).
Proof.
  intros H. unfold authOnly. simpl. repeat split; try lia.
  exists [e]. split; [reflexivity|]. now constructor.
Qed.

Lemma authOnly_suspend env w : authOnly w (snd (suspend env w)).
Proof.
  unfold authOnly. simpl. repeat split; try lia.
  exists []. split; [now rewrite app_nil_r|constructor].
Qed.

Lemma refresh_respects_authOnly env : respects authOnly (refreshIrcamToken env).
Proof.
  unfold refreshIrcamToken, request, logError, emit.
  repeat (respects_step authOnly_refl authOnly_trans);
    try (apply respects_modify; intros w;
         first [ now apply authOnly_emit
               | apply authOnly_suspend
               | unfold authOnly; simpl; repeat split; try lia;
                 exists []; split; [now rewrite app_nil_r|constructor] ]).
Qed.

Lemma getIrcamToken_state w : snd (getIrcamToken w) = w.
Proof. reflexivity. Qed.

Lemma ensureValid_respects_authOnly env :
  respects authOnly (ensureValidToken env).
Proof.
  unfold ensureValidToken, getIrcamToken.
  repeat (respects_step authOnly_refl authOnly_trans);
    apply refresh_respects_authOnly.
Qed.


(** With a provider that grants tokens and a clock after the epoch,
    [ensureValidToken] returns a token, and the headers can be built. *)
Lemma ensureValidToken_ok env w :
  authOk env -> 0 <= now w ->
  exists tok w',
    ensureValidToken env w = (Ret (Some tok), w') /\
    getIrcamHeaders w' = (Ret tok, w') /\
    authOnly w w'.
Proof.
  intros Hauth Hnow.
  pose proof (ensureValid_respects_authOnly env w) as Hresp.
  unfold ensureValidToken, bind in *.
  destruct (getIrcamToken_run w) as (r & Hr & Hsome). rewrite Hr in *.
  destruct r as [tok|]; simpl in *.
  - destruct (Hsome tok eq_refl) as (Htok & Htruthy & _).
    simpl in Htruthy. rewrite Htruthy in *. simpl in *. rewrite Hr in *.
    exists tok, w. split; [reflexivity|]. split; [|exact Hresp].
    unfold getIrcamHeaders, bind. rewrite Hr. simpl. now rewrite Htruthy.
  - specialize (Hauth (authPosts w)). unfold grantsToken in Hauth.
    unfold refreshIrcamToken, try_catch, request, bind, emit, modify, gets,
      suspend, prop, ret in *. simpl in *.
    destruct (authReply env (authPosts w)) as [[d|]|e]; try discriminate.
    simpl in *. destruct (id_token d) as [tok|] eqn:Htok; [|discriminate].
    simpl in Hauth.
    match type of Hresp with authOnly _ ?x => set (w1 := x) in * end.
    assert (Hget : getIrcamToken w1 = (Ret (Some tok), w1)).
    { unfold getIrcamToken, gets. simpl. rewrite Hauth. simpl.
      replace (_ + TOKEN_WINDOW =? 0) with false
        by (symmetry; apply Z.eqb_neq; unfold TOKEN_WINDOW; lia).
      simpl.
      replace (_ >=? _) with false; [reflexivity|].
      symmetry. rewrite Z.geb_leb. apply Z.leb_gt. unfold TOKEN_WINDOW. lia. }
    rewrite Hget in *. exists tok, w1. split; [reflexivity|].
    split; [|exact Hresp].
    unfold getIrcamHeaders, bind. rewrite Hget. simpl. now rewrite Hauth.
Qed.

(** ** The pace of the poll loop *)








Lemma paces_same jobId s w w' : trace w' = trace w -> paces jobId s s w w'.
Proof.
  intros H. exists []. repeat split; [now rewrite app_nil_r|constructor].
Qed.








(** ** One iteration of the poll loop *)

Lemma sleep_run env ms w :
  exists w', sleep env ms w = (Ret tt, w') /\
    trace w' = (trace w ++ [Slept ms])%list /\
    now w' = now w + ms + Z.of_nat (elapsed env (suspensions w)) /\
    jobGets w' = jobGets w /\ sessions w' = sessions w /\
    tempDir w' = tempDir w /\ submitPosts w' = submitPosts w.
Proof. eexists. split; [reflexivity|]. simpl. repeat split. Qed.

Lemma jobGet_run env c jobId w :
  exists w',
    request env c (fun w => jobReply env jobId (jobGets w))
      (fun w => with_counters (authPosts w) (submitPosts w) (S (jobGets w)) w) w
    = (match jobReply env jobId (jobGets w) with
       | Resolved d => Ret d
       | Rejected e => Throw e
       end, w') /\
    trace w' = (trace w ++ [Issued c; Returned c])%list /\
    jobGets w' = S (jobGets w) /\ sessions w' = sessions w /\
    tempDir w' = tempDir w /\ submitPosts w' = submitPosts w /\
    now w <= now w'.
Proof.
  unfold request, bind, emit, modify, gets, suspend, ret, throw. simpl.
  destruct (jobReply env jobId (jobGets w)); eexists; (split; [reflexivity|]);
    simpl; rewrite <- app_assoc; repeat split; lia.
Qed.

Lemma idle_auth evs :
  Forall (fun e => authEvent e = true) evs ->
  Forall (fun e => idleEvent e = true) evs.
Proof.
  apply Forall_impl. intros e H. unfold idleEvent. now rewrite H.
Qed.

Lemma pollLoop_step env jobId fuel st pc w st' :
  authOk env -> 0 <= now w -> isSentinel st = false ->
  statusOf (jobReply env jobId (jobGets w)) = Some st' ->
  exists w2,
    pollLoop env (S fuel) jobId st pc w = pollLoop env fuel jobId st' (S pc) w2 /\
    pollStep jobId w w2.
Proof.
  intros Hauth Hnow Hst Hreply.
  assert (Hpre : exists w0 evs0,
            (if (1 <? S pc)%nat then sleep env 5000 else ret tt) w = (Ret tt, w0) /\
            trace w0 = (trace w ++ evs0)%list /\
            Forall (fun e => idleEvent e = true) evs0 /\
            now w <= now w0 /\ jobGets w0 = jobGets w /\
            sessions w0 = sessions w /\ tempDir w0 = tempDir w /\
            submitPosts w0 = submitPosts w).
  { destruct pc as [|pc]; simpl.
    - exists w, []. rewrite app_nil_r. repeat split; auto; lia.
    - destruct (sleep_run env 5000 w) as (w0 & E & T & N & J & S & D & P).
      exists w0, [Slept 5000]. repeat split; auto; try lia. }
  destruct Hpre as (w0 & evs0 & E0 & T0 & F0 & N0 & J0 & S0 & D0 & P0).
  destruct (ensureValidToken_ok env w0 Hauth ltac:(lia))
    as (tok & w1 & E1 & H1 & (evs1 & T1 & F1) & S1 & D1 & J1 & P1 & N1).
  destruct (jobGet_run env (GetJobStatus jobId) jobId w1)
    as (w2 & E2 & T2 & J2 & S2 & D2 & P2 & N2).
  exists w2. split.
  - simpl. rewrite Hst.
    rewrite (bind_run_ret _ _ _ _ _ E0).
    rewrite (bind_run_ret _ _ _ _ _ E1).
    rewrite (bind_run_ret _ _ _ _ _ H1).
    rewrite (bind_run_ret _ _ _ _ _ H1).
    unfold bind at 1. rewrite E2. rewrite J1, J0.
    unfold statusOf in Hreply.
    destruct (jobReply env jobId (jobGets w)) as [[d|]|e]; try discriminate.
    simpl. destruct (job_infos d) as [infos|]; [|discriminate].
    injection Hreply as <-. reflexivity.
  - unfold pollStep. repeat split; try congruence; try lia.
    exists (evs0 ++ evs1)%list. split.
    + rewrite T2, T1, T0. now rewrite <- !app_assoc.
    + apply Forall_app. split; [exact F0|now apply idle_auth].
Qed.

(** ** The poll loop on a job that reaches a sentinel *)

Lemma filter_idle_report evs :
  Forall (fun e => idleEvent e = true) evs -> filter isReportFetch evs = [].
Proof.
  induction 1 as [|e evs He _ IH]; simpl; [reflexivity|].
  destruct e as [[]|[]| |]; simpl in *; try discriminate; exact IH.
Qed.

Lemma filter_idle_check evs :
  Forall (fun e => idleEvent e = true) evs -> filter isStatusCheck evs = [].
Proof.
  induction 1 as [|e evs He _ IH]; simpl; [reflexivity|].
  destruct e as [[]|[]| |]; simpl in *; try discriminate; exact IH.
Qed.

Lemma polled_step jobId w w' : pollStep jobId w w' -> polled 1 w w'.
Proof.
  intros ((evs & T & F) & J & S & D & P & N).
  unfold polled. repeat split; try congruence; try lia.
  eexists. split; [exact T|].
  rewrite !filter_app, (filter_idle_report _ F), (filter_idle_check _ F).
  split; reflexivity.
Qed.

Lemma polled_trans a b w1 w2 w3 :
  polled a w1 w2 -> polled b w2 w3 -> polled (a + b) w1 w3.
Proof.
  intros ((e1 & T1 & R1 & C1) & J1 & S1 & D1 & P1 & N1)
         ((e2 & T2 & R2 & C2) & J2 & S2 & D2 & P2 & N2).
  unfold polled. repeat split; try congruence; try lia.
  exists (e1 ++ e2)%list. rewrite !filter_app, R1, R2, length_app, C1, C2.
  repeat split. now rewrite T2, T1, app_assoc.
Qed.

Lemma pendingAt_status env jobId k :
  pendingAt env jobId k = true ->
  exists st, statusOf (jobReply env jobId k) = Some st /\ isSentinel st = false.
Proof.
  unfold pendingAt. destruct (statusOf _) as [st|]; [|discriminate].
  intros H. exists st. split; [reflexivity|].
  now apply negb_true_iff in H.
Qed.

Lemma pollLoop_runs env jobId : forall n fuel st pc w s,
  authOk env -> 0 <= now w -> isSentinel st = false -> (n < fuel)%nat ->
  (forall k, (k < n)%nat -> pendingAt env jobId (jobGets w + k) = true) ->
  statusOf (jobReply env jobId (jobGets w + n)) = Some s ->
  isSentinel s = true ->
  exists w', pollLoop env fuel jobId st pc w = (Ret s, w') /\
             polled (S n) w w'.
Proof.
  induction n as [|n IH]; intros fuel st pc w s Hauth Hnow Hst Hfuel Hpend Hs Hsent;
    (destruct fuel as [|fuel]; [lia|]).
  - rewrite Nat.add_0_r in Hs.
    destruct (pollLoop_step env jobId fuel st pc w s Hauth Hnow Hst Hs)
      as (w2 & E & Hstep).
    exists w2. split; [|now apply (polled_step jobId)].
    rewrite E. destruct fuel; simpl; now rewrite Hsent.
  - destruct (pendingAt_status env jobId (jobGets w) ) as (st' & Hst' & Hns).
    { rewrite <- (Nat.add_0_r (jobGets w)). apply Hpend. lia. }
    destruct (pollLoop_step env jobId fuel st pc w st' Hauth Hnow Hst Hst')
      as (w2 & E & Hstep).
    pose proof (polled_step _ _ _ Hstep) as Hp1.
    destruct Hstep as (_ & J & _ & _ & _ & N).
    destruct (IH fuel st' (S pc) w2 s Hauth ltac:(lia) Hns ltac:(lia))
      as (w' & E' & Hp).
    + intros k Hk. rewrite J.
      replace (S (jobGets w) + k)%nat with (jobGets w + S k)%nat by lia.
      apply Hpend. lia.
    + rewrite J.
      now replace (S (jobGets w) + n)%nat with (jobGets w + S n)%nat by lia.
    + exact Hsent.
    + exists w'. split; [now rewrite E|].
      apply (polled_trans 1 (S n) w w2 w' Hp1 Hp).
Qed.

Lemma fetchFinalReport_run env jobId w :
  authOk env -> 0 <= now w ->
  exists w',
    fetchFinalReport env jobId w
    = (finalOutcome (jobReply env jobId (jobGets w)), w') /\
    fetched jobId w w'.
Proof.
  intros Hauth Hnow.
  destruct (ensureValidToken_ok env w Hauth Hnow)
    as (tok & w1 & E1 & H1 & (evs1 & T1 & F1) & S1 & D1 & J1 & P1 & N1).
  destruct (jobGet_run env (GetFinalReport jobId) jobId w1)
    as (w2 & E2 & T2 & J2 & S2 & D2 & P2 & N2).
  exists w2. split.
  - unfold fetchFinalReport.
    rewrite (bind_run_ret _ _ _ _ _ E1).
    rewrite (bind_run_ret _ _ _ _ _ H1).
    rewrite (bind_run_ret _ _ _ _ _ H1).
    unfold bind at 1. rewrite E2, J1. unfold finalOutcome.
    destruct (jobReply env jobId (jobGets w)) as [[d|]|e]; simpl; try reflexivity.
    unfold bind, ret. destruct (reportOf (job_infos d)); reflexivity.
  - unfold fetched. repeat split; try congruence; try lia.
    exists evs1. split; [|exact F1].
    rewrite T2, T1. now rewrite <- app_assoc.
Qed.

Lemma reportsAt_status status env jobId k :
  reportsAt status env jobId k = true ->
  statusOf (jobReply env jobId k) = Some (Some status).
Proof.
  unfold reportsAt. destruct (statusOf _) as [[st|]|]; try discriminate.
  intros H. apply String.eqb_eq in H. now subst.
Qed.




(** The view of the stub scenario, computed. *)
Example pollView_three_polls :
  pollView (trace (snd (pollLoop
                          (stubProvider ["pending"; "pending"; "success"] None)
                          10 "job-1" None 0 uploadedWorld)))
  = [CheckIssued; CheckReturned; Waited 5000;
     CheckIssued; CheckReturned; Waited 5000;
     CheckIssued; CheckReturned].
Proof. vm_compute. reflexivity. Qed.

Lemma runToCompletion_run env jobId n fuel w status :
  authOk env -> 0 <= now w -> (n < fuel)%nat ->
  (forall k, (k < n)%nat -> pendingAt env jobId (jobGets w + k) = true) ->
  reportsAt status env jobId (jobGets w + n) = true ->
  isSentinel (Some status) = true ->
  exists w1,
    polled (S n) w w1 /\
    runToCompletion env fuel jobId w
    = if String.eqb status "error" then (Throw JobFailedError, w1)
      else fetchFinalReport env jobId w1.
Proof.
  intros Hauth Hnow Hfuel Hpend Hrep Hsent.
  apply reportsAt_status in Hrep.
  destruct (pollLoop_runs env jobId n fuel None 0 w (Some status)
              Hauth Hnow eq_refl Hfuel Hpend Hrep Hsent) as (w1 & E & Hp).
  exists w1. split; [exact Hp|].
  unfold runToCompletion. rewrite (bind_run_ret _ _ _ _ _ E).
  destruct (String.eqb status "error"); reflexivity.
Qed.



(** The two sequences of the spec, run on the stub provider. *)
Example run_pending_pending_success :
  fst (runToCompletion
         (stubProvider ["pending"; "pending"; "success"] (Some onlyBinaural))
         10 "job-1" uploadedWorld)
  = Ret onlyBinaural.
Proof. vm_compute. reflexivity. Qed.

Example run_pending_error :
  fst (runToCompletion
         (stubProvider ["pending"; "error"] (Some onlyBinaural))
         10 "job-1" uploadedWorld)
  = Throw JobFailedError /\
  filter isReportFetch
    (trace (snd (runToCompletion
                   (stubProvider ["pending"; "error"] (Some onlyBinaural))
                   10 "job-1" uploadedWorld)))
  = [].
Proof. vm_compute. split; reflexivity. Qed.



(** ** The sweeps *)

Lemma findDir_app_fresh s kept l :
  ~ In s (map d_name kept) -> findDir s (kept ++ l) = findDir s l.
Proof.
  unfold findDir. induction kept as [|d kept IH]; simpl; [reflexivity|].
  intros H. destruct (String.eqb s (d_name d)) eqn:E.
  - apply String.eqb_eq in E. subst. tauto.
  - apply IH. tauto.
Qed.

Lemma filter_name_fresh s l :
  ~ In s (map d_name l) ->
  filter (fun d => negb (String.eqb s (d_name d))) l = l.
Proof.
  induction l as [|d l IH]; simpl; [reflexivity|].
  intros H. destruct (String.eqb s (d_name d)) eqn:E.
  - apply String.eqb_eq in E. subst. tauto.
  - simpl. rewrite IH; tauto.
Qed.

Lemma NoDup_names_split kept d rest :
  NoDup (map d_name (kept ++ d :: rest)) ->
  ~ In (d_name d) (map d_name kept) /\ ~ In (d_name d) (map d_name rest) /\
  NoDup (map d_name (kept ++ rest)) /\
  NoDup (map d_name ((kept ++ [d]) ++ rest)).
Proof.
  intros H. rewrite <- app_assoc. simpl. split; [|split; [|split]]; auto.
  - rewrite map_app in H. simpl in H. apply NoDup_remove_2 in H.
    intros Hin. apply H. apply in_or_app. now left.
  - rewrite map_app in H. simpl in H. apply NoDup_remove_2 in H.
    intros Hin. apply H. apply in_or_app. now right.
  - rewrite map_app in *. simpl in H. now apply NoDup_remove_1 in H.
Qed.

Lemma remove_entry kept d rest :
  NoDup (map d_name (kept ++ d :: rest)) ->
  filter (fun e => negb (String.eqb (d_name d) (d_name e))) (kept ++ d :: rest)
  = (kept ++ rest)%list.
Proof.
  intros H. destruct (NoDup_names_split _ _ _ H) as (Hk & Hr & _).
  rewrite filter_app. simpl. rewrite String.eqb_refl. simpl.
  now rewrite !filter_name_fresh.
Qed.

Lemma find_entry kept d rest :
  NoDup (map d_name (kept ++ d :: rest)) ->
  findDir (d_name d) (kept ++ d :: rest) = Some d.
Proof.
  intros H. destruct (NoDup_names_split _ _ _ H) as (Hk & _).
  rewrite findDir_app_fresh by exact Hk.
  unfold findDir. simpl. now rewrite String.eqb_refl.
Qed.

Lemma fsCall_run env op path w :
  fsCall env op path w
  = (match fsFault env op path with
     | Some e => Throw e
     | None => Ret tt
     end, snd (suspend env w)).
Proof.
  unfold fsCall, bind. simpl. destruct (fsFault env op path); reflexivity.
Qed.

Lemma statMtime_run env s w :
  statMtime env s w
  = (match fsFault env OpStat s with
     | Some e => Throw e
     | None =>
         match findDir s (tempDir w) with
         | Some d => Ret (d_mtime d)
         | None => Throw (FsError "ENOENT" s)
         end
     end, snd (suspend env w)).
Proof.
  unfold statMtime, bind. rewrite fsCall_run.
  destruct (fsFault env OpStat s); [reflexivity|].
  unfold gets. simpl. destruct (findDir s (tempDir w)); reflexivity.
Qed.

Lemma rmSession_run env s w :
  rmSession env s w
  = match fsFault env OpRm s with
    | Some e => (Throw e, snd (suspend env w))
    | None =>
        (Ret tt,
         with_tempDir
           (filter (fun d => negb (String.eqb s (d_name d))) (tempDir w))
           (snd (suspend env w)))
    end.
Proof.
  unfold rmSession, bind. rewrite fsCall_run.
  destruct (fsFault env OpRm s); reflexivity.
Qed.

(** One entry of the sweep, with the clock read [t]: the entry stays when
    the file system fails on it or it is not expired and goes otherwise;
    [r] is what the step returns. *)
Lemma sweep_entry env t d v :
  findDir (d_name d) (tempDir v) = Some d ->
  exists r v',
    (mtime <- statMtime env (d_name d) ;;
     if t - mtime >? 15 * 60 * 1000 then
       rmSession env (d_name d) ;;
       removeSession (d_name d)
     else ret tt) v = (r, v') /\
    (if sweepFault env t d then
       (exists e, r = Throw e) /\
       tempDir v' = tempDir v /\ sessions v' = sessions v
     else
       r = Ret tt /\
       if expired t d then
         tempDir v'
         = filter (fun e => negb (String.eqb (d_name d) (d_name e))) (tempDir v) /\
         sessions v' = JsMap.delete (d_name d) (sessions v)
       else tempDir v' = tempDir v /\ sessions v' = sessions v).
Proof.
  intros Hfind. unfold sweepFault, expired, MAX_SESSION_AGE.
  unfold bind at 1. rewrite statMtime_run, Hfind.
  destruct (fsFault env OpStat (d_name d)) as [e|].
  - do 2 eexists. split; [reflexivity|]. simpl. repeat split. now exists e.
  - change (15 * 60 * 1000) with 900000.
    destruct (t - d_mtime d >? 900000) eqn:Eage.
    + unfold bind. rewrite rmSession_run.
      destruct (fsFault env OpRm (d_name d)) as [e|].
      * do 2 eexists. split; [reflexivity|]. simpl. repeat split. now exists e.
      * do 2 eexists. split; [reflexivity|]. simpl. repeat split.
    + do 2 eexists. split; [reflexivity|]. simpl. repeat split.
Qed.

(** The loop of [cleanupTempDirectory] computes [sweepModel false]. *)
Lemma sweepT_loop env t : forall ds kept v,
  tempDir v = (kept ++ ds)%list ->
  NoDup (map d_name (kept ++ ds)) ->
  exists v',
    forEach (map d_name ds) (fun session =>
      try_catch
        (mtime <- statMtime env session ;;
         let age := t - mtime in
         if age >? 15 * 60 * 1000 then
           rmSession env session ;;
           removeSession session
         else ret tt)
        (fun error => logError "Failed to process session" error)) v
    = (Ret tt, v') /\
    tempDir v' = (kept ++ fst (sweepModel false env t ds (sessions v)))%list /\
    sessions v' = snd (sweepModel false env t ds (sessions v)).
Proof.
  induction ds as [|d rest IH]; intros kept v Hv Hnd.
  - exists v. simpl. rewrite app_nil_r in *. repeat split. exact Hv.
  - simpl map. cbn [forEach sweepModel].
    pose proof (find_entry _ _ _ Hnd) as Hfind. rewrite <- Hv in Hfind.
    pose proof (remove_entry _ _ _ Hnd) as Hrm. rewrite <- Hv in Hrm.
    destruct (NoDup_names_split _ _ _ Hnd) as (_ & _ & Hnd1 & Hnd2).
    destruct (sweep_entry env t d v Hfind) as (r & v1 & E & Heff).
    cbv zeta. unfold bind at 1, try_catch. rewrite E.
    destruct (sweepFault env t d).
    + destruct Heff as ((e & ->) & HT & HS).
      destruct (IH (kept ++ [d])%list
                  (snd (logError "Failed to process session" e v1)))
        as (v' & E' & HT' & HS').
      * simpl. rewrite HT, Hv. now rewrite <- app_assoc.
      * exact Hnd2.
      * exists v'. simpl in *. split; [exact E'|]. rewrite HS in *.
        destruct (sweepModel false env t rest (sessions v)) as [r' m'].
        simpl in *. split; [|exact HS']. rewrite HT'. now rewrite <- app_assoc.
    + destruct Heff as (-> & Heff). destruct (expired t d).
      * destruct Heff as (HT & HS). rewrite Hrm in HT.
        destruct (IH kept v1 HT Hnd1) as (v' & E' & HT' & HS').
        exists v'. rewrite HS in *. now repeat split.
      * destruct Heff as (HT & HS).
        destruct (IH (kept ++ [d])%list v1) as (v' & E' & HT' & HS').
        -- rewrite HT, Hv. now rewrite <- app_assoc.
        -- exact Hnd2.
        -- exists v'. split; [exact E'|]. rewrite HS in *.
           destruct (sweepModel false env t rest (sessions v)) as [r' m'].
           simpl in *. split; [|exact HS']. rewrite HT'.
           now rewrite <- app_assoc.
Qed.

(** The loop of [cleanupOldFiles] computes [sweepModel true]. *)
Lemma sweepO_loop env t : forall ds kept v,
  tempDir v = (kept ++ ds)%list ->
  NoDup (map d_name (kept ++ ds)) ->
  exists r v',
    forEach (map d_name ds) (fun session =>
      mtime <- statMtime env session ;;
      if t - mtime >? MAX_SESSION_AGE then
        rmSession env session ;;
        removeSession session
      else ret tt) v
    = (r, v') /\
    r <> Diverge /\
    tempDir v' = (kept ++ fst (sweepModel true env t ds (sessions v)))%list /\
    sessions v' = snd (sweepModel true env t ds (sessions v)).
Proof.
  induction ds as [|d rest IH]; intros kept v Hv Hnd.
  - exists (Ret tt), v. simpl. rewrite app_nil_r in *.
    repeat split; [discriminate|exact Hv].
  - simpl map. cbn [forEach sweepModel].
    pose proof (find_entry _ _ _ Hnd) as Hfind. rewrite <- Hv in Hfind.
    pose proof (remove_entry _ _ _ Hnd) as Hrm. rewrite <- Hv in Hrm.
    destruct (NoDup_names_split _ _ _ Hnd) as (_ & _ & Hnd1 & Hnd2).
    destruct (sweep_entry env t d v Hfind) as (r & v1 & E & Heff).
    unfold MAX_SESSION_AGE. unfold bind at 1. rewrite E.
    destruct (sweepFault env t d).
    + destruct Heff as ((e & ->) & HT & HS).
      exists (Throw e), v1. simpl. repeat split; [discriminate|congruence|exact HS].
    + destruct Heff as (-> & Heff). destruct (expired t d).
      * destruct Heff as (HT & HS). rewrite Hrm in HT.
        destruct (IH kept v1 HT Hnd1) as (r' & v' & E' & Hr' & HT' & HS').
        exists r', v'. rewrite HS in *. now repeat split.
      * destruct Heff as (HT & HS).
        destruct (IH (kept ++ [d])%list v1) as (r' & v' & E' & Hr' & HT' & HS').
        -- rewrite HT, Hv. now rewrite <- app_assoc.
        -- exact Hnd2.
        -- exists r', v'. split; [exact E'|]. split; [exact Hr'|].
           rewrite HS in *.
           destruct (sweepModel true env t rest (sessions v)) as [r0 m'].
           simpl in *. split; [|exact HS']. rewrite HT'.
           now rewrite <- app_assoc.
Qed.

Lemma cleanupTempDirectory_run env w :
  NoDup (map d_name (tempDir w)) ->
  exists w',
    cleanupTempDirectory env w = (Ret tt, w') /\
    (tempDir w', sessions w')
    = match fsFault env OpReaddir "" with
      | Some _ => (tempDir w, sessions w)
      | None => sweepModel false env (now w) (tempDir w) (sessions w)
      end.
Proof.
  intros Hnd. unfold cleanupTempDirectory. unfold try_catch at 1.
  unfold bind at 1, gets. unfold bind at 1, readdirTemp.
  unfold bind at 1. rewrite fsCall_run.
  destruct (fsFault env OpReaddir "") as [e|].
  - eexists. split; [reflexivity|]. reflexivity.
  - unfold gets. cbv zeta.
    destruct (sweepT_loop env (now w) (tempDir w) [] (snd (suspend env w)))
      as (v' & E & HT & HS); [reflexivity|exact Hnd|].
    change (tempDir (snd (suspend env w))) with (tempDir w).
    cbv zeta in E. rewrite E. exists v'. split; [reflexivity|].
    simpl in HT, HS. rewrite HT, HS.
    now destruct (sweepModel false env (now w) (tempDir w) (sessions w)).
Qed.

Lemma cleanupOldFiles_run env w :
  NoDup (map d_name (tempDir w)) ->
  exists w',
    cleanupOldFiles env w = (Ret tt, w') /\
    (tempDir w', sessions w')
    = match fsFault env OpReaddir "" with
      | Some _ => (tempDir w, sessions w)
      | None =>
          sweepModel true env (now w + Z.of_nat (elapsed env (suspensions w)))
            (tempDir w) (sessions w)
      end.
Proof.
  intros Hnd. unfold cleanupOldFiles, try_catch.
  unfold bind at 1, readdirTemp.
  unfold bind at 1. rewrite fsCall_run.
  destruct (fsFault env OpReaddir "") as [e|].
  - eexists. split; [reflexivity|]. reflexivity.
  - unfold gets. unfold bind at 1.
    change (now (snd (suspend env w)))
      with (now w + Z.of_nat (elapsed env (suspensions w))).
    set (t := now w + Z.of_nat (elapsed env (suspensions w))).
    destruct (sweepO_loop env t (tempDir w) [] (snd (suspend env w)))
      as (r & v' & E & Hr & HT & HS); [reflexivity|exact Hnd|].
    change (tempDir (snd (suspend env w))) with (tempDir w).
    rewrite E. simpl in HT, HS.
    destruct r as [[]|e|]; [| |congruence].
    + exists v'. split; [reflexivity|]. rewrite HT, HS.
      now destruct (sweepModel true env t (tempDir w) (sessions w)).
    + eexists. split; [reflexivity|]. simpl. rewrite HT, HS.
      now destruct (sweepModel true env t (tempDir w) (sessions w)).
Qed.

(** *** What [sweepModel] keeps and what it removes *)

Lemma sweep_sub stop env t : forall ds m d,
  In d (fst (sweepModel stop env t ds m)) -> In d ds.
Proof.
  induction ds as [|d0 ds IH]; intros m d; simpl; [tauto|].
  destruct (sweepFault env t d0).
  - destruct stop; [tauto|].
    specialize (IH m d). destruct (sweepModel false env t ds m).
    simpl in *. tauto.
  - destruct (expired t d0).
    + intros H. right. now apply IH in H.
    + specialize (IH m d). destruct (sweepModel stop env t ds m).
      simpl in *. tauto.
Qed.


Lemma sweep_keeps_session stop env t k : forall ds m,
  (forall d, In d ds -> d_name d = k -> expired t d = false) ->
  JsMap.get k (snd (sweepModel stop env t ds m)) = JsMap.get k m.
Proof.
  induction ds as [|d0 ds IH]; intros m H; simpl; [reflexivity|].
  assert (Hds : forall d, In d ds -> d_name d = k -> expired t d = false)
    by (intros d Hd; apply H; now right).
  destruct (sweepFault env t d0).
  - destruct stop; [reflexivity|].
    specialize (IH m Hds). now destruct (sweepModel false env t ds m).
  - destruct (expired t d0) eqn:E0.
    + rewrite IH by exact Hds. apply get_delete_other.
      intros ->. specialize (H d0 (or_introl eq_refl) eq_refl). congruence.
    + specialize (IH m Hds). now destruct (sweepModel stop env t ds m).
Qed.

Lemma sweep_absent stop env t k : forall ds m,
  JsMap.get k m = None ->
  JsMap.get k (snd (sweepModel stop env t ds m)) = None.
Proof.
  induction ds as [|d0 ds IH]; intros m H; simpl; [exact H|].
  destruct (sweepFault env t d0).
  - destruct stop; [exact H|].
    specialize (IH m H). now destruct (sweepModel false env t ds m).
  - destruct (expired t d0).
    + apply IH. destruct (string_dec k (d_name d0)) as [->|Hne].
      * apply get_delete_same.
      * now rewrite get_delete_other.
    + specialize (IH m H). now destruct (sweepModel stop env t ds m).
Qed.

Lemma sweep_names stop env t : forall ds m k,
  In k (map d_name (fst (sweepModel stop env t ds m))) -> In k (map d_name ds).
Proof.
  intros ds m k H. apply in_map_iff in H. destruct H as (d & <- & Hd).
  apply in_map. now apply sweep_sub in Hd.
Qed.

Lemma sweep_evicts env t : forall ds m d,
  NoDup (map d_name ds) -> In d ds ->
  expired t d = true -> sweepFault env t d = false ->
  ~ In (d_name d) (map d_name (fst (sweepModel false env t ds m))) /\
  JsMap.get (d_name d) (snd (sweepModel false env t ds m)) = None.
Proof.
  induction ds as [|d0 ds IH]; intros m d Hnd Hin Hex Hok; simpl;
    [destruct Hin|].
  simpl in Hnd. inversion Hnd as [|? ? Hfresh Hnd']; subst.
  destruct Hin as [->|Hin].
  - rewrite Hok, Hex. split.
    + intros H. apply sweep_names in H. contradiction.
    + apply sweep_absent, get_delete_same.
  - assert (Hne : d_name d <> d_name d0).
    { intros E. apply Hfresh. rewrite <- E. now apply in_map. }
    destruct (sweepFault env t d0).
    + specialize (IH m d Hnd' Hin Hex Hok).
      destruct (sweepModel false env t ds m). simpl in *.
      split; [|tauto]. intros [E|H]; [congruence|tauto].
    + destruct (expired t d0).
      * now apply IH.
      * specialize (IH m d Hnd' Hin Hex Hok).
        destruct (sweepModel false env t ds m). simpl in *.
        split; [|tauto]. intros [E|H]; [congruence|tauto].
Qed.


Lemma findDir_fresh k l : ~ In k (map d_name l) -> findDir k l = None.
Proof.
  unfold findDir. induction l as [|d l IH]; simpl; [reflexivity|].
  intros H. destruct (String.eqb k (d_name d)) eqn:E.
  - apply String.eqb_eq in E. subst. tauto.
  - apply IH. tauto.
Qed.


Lemma expired_true t d :
  t - d_mtime d > 15 * 60 * 1000 -> expired t d = true.
Proof.
  intros H. unfold expired, MAX_SESSION_AGE.
  rewrite Z.gtb_ltb. apply Z.ltb_lt. lia.
Qed.


Lemma sweepFault_none env t d :
  fsFault env OpStat (d_name d) = None ->
  fsFault env OpRm (d_name d) = None ->
  sweepFault env t d = false.
Proof.
  intros Hs Hr. unfold sweepFault. rewrite Hs, Hr. apply andb_false_r.
Qed.


Lemma agedWorld_names : NoDup (map d_name (tempDir agedWorld)).
Proof.
  simpl. constructor.
  - intros [H|[]]. discriminate.
  - constructor; [intros []|constructor].
Qed.


(** The scenario of the spec: 16 minutes old goes, 14 minutes old stays. *)
Example sweep_sixteen_fourteen :
  map d_name (tempDir (snd (cleanupTempDirectory instantProvider agedWorld)))
    = ["young"] /\
  JsMap.keys (sessions (snd (cleanupTempDirectory instantProvider agedWorld)))
    = ["young"] /\
  map d_name (tempDir (snd (cleanupOldFiles instantProvider agedWorld)))
    = ["young"] /\
  JsMap.keys (sessions (snd (cleanupOldFiles instantProvider agedWorld)))
    = ["young"].
Proof. vm_compute. repeat split. Qed.

(** ** Framings hold across every function of a request *)

Section Framed.
Variable env : Env.
Variable R : World -> World -> Prop.
Hypothesis HR : Framing R.

Let Rrefl := fr_refl HR.
Let Rtrans := fr_trans HR.

Ltac framed_leaf :=
  first
    [ apply respects_modify; intros ?;
      first [ apply (fr_trace HR) | apply (fr_susp HR)
            | apply (fr_count HR) | apply (fr_token HR)
            | apply (fr_addFile HR)
            | apply (fr_now HR); lia
            | apply Rrefl ]
    | solve [auto] ].

Ltac framed := repeat (first [respects_step Rrefl Rtrans | framed_leaf]).

Lemma framed_emit e : respects R (emit e).
Proof. unfold emit. framed. Qed.

Lemma framed_suspend : respects R (suspend env).
Proof.
  intros w. unfold suspend, modify. simpl.
  apply Rtrans with (b := with_now (now w + Z.of_nat (elapsed env (suspensions w))) w).
  - apply (fr_now HR). lia.
  - apply (fr_susp HR).
Qed.

Lemma framed_sleep : respects R (sleep env 5000).
Proof.
  unfold sleep. pose proof framed_suspend. pose proof (framed_emit (Slept 5000)).
  framed.
Qed.

Lemma framed_request {A} c (answer : World -> Reply A) count :
  (forall w, R w (count w)) ->
  respects R (request env c answer count).
Proof.
  intros Hc. unfold request.
  pose proof framed_suspend. pose proof (framed_emit (Issued c)).
  pose proof (framed_emit (Returned c)).
  pose proof (respects_modify R count Hc).
  framed.
Qed.

Lemma framed_logError c e : respects R (logError c e).
Proof. apply framed_emit. Qed.

Lemma framed_refresh : respects R (refreshIrcamToken env).
Proof.
  unfold refreshIrcamToken.
  pose proof (fun c e => framed_logError c e).
  assert (respects R (request env PostAuth
            (fun w => authReply env (authPosts w))
            (fun w => with_counters (S (authPosts w)) (submitPosts w) (jobGets w) w)))
    by (apply framed_request; intros w; apply (fr_count HR)).
  framed.
Qed.

Lemma framed_getIrcamToken : respects R getIrcamToken.
Proof. unfold getIrcamToken. framed. Qed.

Lemma framed_ensureValid : respects R (ensureValidToken env).
Proof.
  unfold ensureValidToken.
  pose proof framed_refresh. pose proof framed_getIrcamToken. framed.
Qed.

Lemma framed_headers : respects R getIrcamHeaders.
Proof. unfold getIrcamHeaders. pose proof framed_getIrcamToken. framed. Qed.

Lemma framed_fsCall op path : respects R (fsCall env op path).
Proof. unfold fsCall. pose proof framed_suspend. framed. Qed.

Lemma framed_readdirTemp : respects R (readdirTemp env).
Proof. unfold readdirTemp. pose proof (framed_fsCall OpReaddir ""). framed. Qed.

Lemma framed_readdirSession s : respects R (readdirSession env s).
Proof. unfold readdirSession. pose proof (framed_fsCall OpReaddir s). framed. Qed.

Lemma framed_statMtime s : respects R (statMtime env s).
Proof. unfold statMtime. pose proof (framed_fsCall OpStat s). framed. Qed.

Lemma framed_statSize p : respects R (statSize env p).
Proof. unfold statSize. pose proof (framed_fsCall OpStat p). framed. Qed.

Lemma framed_accessFile p : respects R (accessFile env p).
Proof. unfold accessFile. pose proof (framed_fsCall OpAccess p). framed. Qed.

Lemma framed_writeFile s f : respects R (writeFile env s f).
Proof.
  unfold writeFile. pose proof (framed_fsCall OpWrite (filePath s f)). framed.
Qed.

Lemma framed_downloadFile fid type dir : respects R (downloadFile env fid type dir).
Proof.
  unfold downloadFile.
  pose proof framed_ensureValid. pose proof framed_headers.
  pose proof (fun c e => framed_logError c e).
  pose proof (fun s f => framed_writeFile s f).
  assert (respects R (request env (GetFileMetadata fid)
            (fun _ => metaReply env fid) (fun w => w)))
    by (apply framed_request; apply Rrefl).
  assert (respects R (request env (GetFileContent fid)
            (fun _ => contentReply env fid) (fun w => w)))
    by (apply framed_request; apply Rrefl).
  framed.
Qed.

Lemma framed_jobGet c jobId :
  respects R (request env c (fun w => jobReply env jobId (jobGets w))
                (fun w => with_counters (authPosts w) (submitPosts w)
                            (S (jobGets w)) w)).
Proof. apply framed_request. intros w. apply (fr_count HR). Qed.

Lemma framed_pollLoop jobId fuel : forall st pc,
  respects R (pollLoop env fuel jobId st pc).
Proof.
  pose proof framed_ensureValid. pose proof framed_headers.
  pose proof framed_sleep. pose proof (framed_jobGet (GetJobStatus jobId) jobId).
  induction fuel as [|fuel IH]; intros st pc; simpl.
  - framed.
  - destruct (isSentinel st); [framed|].
    destruct (1 <? S pc)%nat; framed; apply IH.
Qed.

Lemma framed_fetchFinalReport jobId : respects R (fetchFinalReport env jobId).
Proof.
  unfold fetchFinalReport.
  pose proof framed_ensureValid. pose proof framed_headers.
  pose proof (framed_jobGet (GetFinalReport jobId) jobId).
  framed.
Qed.

Lemma framed_runToCompletion fuel jobId :
  respects R (runToCompletion env fuel jobId).
Proof.
  unfold runToCompletion.
  pose proof (framed_pollLoop jobId fuel None 0).
  pose proof (framed_fetchFinalReport jobId).
  framed.
Qed.

Lemma framed_downloadIfPresent f type dir :
  respects R (downloadIfPresent env f type dir).
Proof.
  unfold downloadIfPresent.
  pose proof (fun fid => framed_downloadFile fid type dir). framed.
Qed.

Lemma framed_spatializeAudio fuel url intensity dir :
  respects R (spatializeAudio env fuel url intensity dir).
Proof.
  unfold spatializeAudio.
  pose proof framed_ensureValid. pose proof framed_headers.
  pose proof (fun c e => framed_logError c e).
  pose proof (fun j => framed_runToCompletion fuel j).
  pose proof (fun f t => framed_downloadIfPresent f t dir).
  assert (respects R (request env (PostSubmitJob url intensity)
            (fun w => submitReply env (submitPosts w))
            (fun w => with_counters (authPosts w) (S (submitPosts w)) (jobGets w) w)))
    by (apply framed_request; intros w; apply (fr_count HR)).
  framed.
Qed.

Lemma framed_latestSessionDir dirs : respects R (latestSessionDir env dirs).
Proof.
  unfold latestSessionDir.
  apply (respects_bind _ Rtrans).
  - apply (respects_mapM _ Rrefl Rtrans). intros s.
    pose proof (framed_statMtime s). framed.
  - intros a. framed.
Qed.

Lemma framed_createZip dir b i original :
  respects R (createProcessedFilesZip env dir b i original).
Proof.
  unfold createProcessedFilesZip.
  pose proof (fun p => framed_accessFile p).
  pose proof (fun op p => framed_fsCall op p).
  framed.
Qed.

Hypothesis HU : FramesUpdates R.

Lemma framed_updateSession s p : respects R (updateSession s p).
Proof.
  intros w. unfold updateSession, bind, gets, modify. simpl.
  destruct (JsMap.get s (sessions w)) as [cur|] eqn:E; simpl.
  - now apply HU.
  - apply Rrefl.
Qed.

Lemma framed_archiveStep latest original result :
  respects R (archiveStep env latest original result).
Proof.
  unfold archiveStep.
  pose proof (fun p => framed_statSize p).
  pose proof (fun c e => framed_logError c e).
  pose proof (fun b i => framed_createZip latest b i original).
  pose proof (fun s p => framed_updateSession s p).
  framed.
Qed.

Lemma framed_spatializeRoute fuel url intensity :
  respects R (spatializeRoute env fuel url intensity).
Proof.
  unfold spatializeRoute.
  pose proof framed_readdirTemp.
  pose proof (fun d => framed_latestSessionDir d).
  pose proof (fun s => framed_readdirSession s).
  pose proof (fun c e => framed_logError c e).
  pose proof (fun u d => framed_spatializeAudio fuel u intensity d).
  pose proof (fun l o r => framed_archiveStep l o r).
  framed.
Qed.

End Framed.

(** ** The file system of the model *)

Lemma addFile_name t s f d : d_name (addFile t s f d) = d_name d.
Proof.
  unfold addFile. destruct (String.eqb s (d_name d)); [|reflexivity].
  destruct (existsb _ _); reflexivity.
Qed.

Lemma addFile_keeps t s f d x :
  In x (d_files d) -> In x (d_files (addFile t s f d)).
Proof.
  unfold addFile. destruct (String.eqb s (d_name d)); [|auto].
  destruct (existsb _ _); simpl; auto. intros H. apply in_or_app. now left.
Qed.

Lemma addFile_has t s f d :
  d_name d = s -> In f (d_files (addFile t s f d)).
Proof.
  intros <-. unfold addFile. rewrite String.eqb_refl.
  destruct (existsb (String.eqb f) (d_files d)) eqn:E; simpl.
  - apply existsb_exists in E. destruct E as (x & Hx & Ex).
    apply String.eqb_eq in Ex. now subst.
  - apply in_or_app. right. now left.
Qed.

Lemma existsPath_iff path ds :
  existsPath path ds = true <->
  exists d f, In d ds /\ In f (d_files d) /\ path = filePath (d_name d) f.
Proof.
  unfold existsPath. rewrite existsb_exists. split.
  - intros (d & Hd & H). apply existsb_exists in H.
    destruct H as (f & Hf & E). apply String.eqb_eq in E. now exists d, f.
  - intros (d & f & Hd & Hf & E). exists d. split; [exact Hd|].
    apply existsb_exists. exists f. split; [exact Hf|].
    now apply String.eqb_eq.
Qed.

Lemma existsPath_addFile_mono t s f path ds :
  existsPath path ds = true ->
  existsPath path (map (addFile t s f) ds) = true.
Proof.
  rewrite !existsPath_iff. intros (d & x & Hd & Hx & E).
  exists (addFile t s f d), x. repeat split.
  - now apply in_map.
  - now apply addFile_keeps.
  - now rewrite addFile_name.
Qed.

Lemma findDir_In s ds d : findDir s ds = Some d -> In d ds /\ d_name d = s.
Proof.
  unfold findDir. intros H. apply find_some in H. destruct H as (Hin & E).
  apply String.eqb_eq in E. now split.
Qed.

Lemma existsPath_addFile_new t s f ds d :
  findDir s ds = Some d ->
  existsPath (filePath s f) (map (addFile t s f) ds) = true.
Proof.
  intros H. apply findDir_In in H. destruct H as (Hin & Hn).
  apply existsPath_iff. exists (addFile t s f d), f. repeat split.
  - now apply in_map.
  - now apply addFile_has.
  - now rewrite addFile_name, Hn.
Qed.

Lemma findDir_addFile t s f k ds :
  findDir k (map (addFile t s f) ds) = option_map (addFile t s f) (findDir k ds).
Proof.
  unfold findDir. induction ds as [|d ds IH]; simpl; [reflexivity|].
  rewrite addFile_name. destruct (String.eqb k (d_name d)); [reflexivity|].
  exact IH.
Qed.

Lemma names_addFile t s f ds :
  map d_name (map (addFile t s f) ds) = map d_name ds.
Proof.
  rewrite map_map. apply map_ext. intros d. apply addFile_name.
Qed.

(** ** Three framings *)




Lemma stampKept_framing : Framing stampKept /\ FramesUpdates stampKept.
Proof.
  split; [constructor|unfold FramesUpdates]; unfold stampKept, tokenStamped;
    try (intros; simpl in *; assumption).
  - intros a b c H1 H2 H. exact (H2 (H1 H)).
  - intros w tok _. simpl. reflexivity.
Qed.

(** ** A download that goes well *)

Lemma plainRequest_run env {A} c (r : Reply A) w :
  exists w',
    request env c (fun _ => r) (fun w => w) w
    = (match r with Resolved d => Ret d | Rejected e => Throw e end, w') /\
    tempDir w' = tempDir w /\ sessions w' = sessions w /\
    jobGets w' = jobGets w /\ submitPosts w' = submitPosts w /\
    now w <= now w'.
Proof.
  unfold request, bind, emit, modify, gets, suspend, ret, throw. simpl.
  destruct r; eexists; (split; [reflexivity|]); simpl; repeat split; lia.
Qed.

Lemma fsReliable_op env op path :
  fsReliable env -> op <> OpZip -> fsFault env op path = None.
Proof.
  intros H Hop. specialize (H op path). destruct op; auto. congruence.
Qed.

Lemma writeFile_run env dir f w d :
  fsReliable env -> findDir dir (tempDir w) = Some d ->
  exists w' t,
    writeFile env dir f w = (Ret tt, w') /\
    tempDir w' = map (addFile t dir f) (tempDir w) /\
    sessions w' = sessions w /\ jobGets w' = jobGets w /\
    submitPosts w' = submitPosts w /\ now w <= now w'.
Proof.
  intros Hfs Hdir. unfold writeFile, bind. rewrite fsCall_run.
  rewrite (fsReliable_op env OpWrite _ Hfs) by discriminate.
  unfold gets. simpl. rewrite Hdir. unfold modify.
  do 2 eexists. split; [reflexivity|]. simpl. repeat split. lia.
Qed.

Lemma downloadFile_ok env fid type dir original w d :
  authOk env -> 0 <= now w -> fsReliable env ->
  originalOf env fid = Some original ->
  (exists c, contentReply env fid = Resolved c) ->
  findDir dir (tempDir w) = Some d ->
  exists w' t,
    downloadFile env fid type dir w
    = (Ret (filePath dir
              (typeName type ++ "_" ++ baseNameOf env original ++ typeExt type)),
       w') /\
    tempDir w'
    = map (addFile t dir
             (typeName type ++ "_" ++ baseNameOf env original ++ typeExt type))
        (tempDir w) /\
    sessions w' = sessions w /\ jobGets w' = jobGets w /\
    submitPosts w' = submitPosts w /\ now w <= now w'.
Proof.
  intros Hauth Hnow Hfs Horig (c & Hc) Hdir.
  destruct (ensureValidToken_ok env w Hauth Hnow)
    as (tok & w1 & E1 & H1 & _ & S1 & D1 & J1 & P1 & N1).
  unfold originalOf in Horig.
  destruct (metaReply env fid) as [[md|]|e] eqn:Hmeta; try discriminate.
  destruct (plainRequest_run env (GetFileMetadata fid)
              (Resolved (Some md) : Reply MetaData) w1)
    as (w2 & E2 & D2 & S2 & J2 & P2 & N2).
  destruct (plainRequest_run env (GetFileContent fid)
              (Resolved c : Reply unit) w2)
    as (w3 & E3 & D3 & S3 & J3 & P3 & N3).
  destruct (writeFile_run env dir
              (typeName type ++ "_" ++ baseNameOf env original ++ typeExt type)
              w3 d Hfs ltac:(congruence))
    as (w4 & t & E4 & D4 & S4 & J4 & P4 & N4).
  exists w4, t. split.
  - unfold downloadFile. apply try_run_ret.
    rewrite (bind_run_ret _ _ _ _ _ E1).
    rewrite (bind_run_ret _ _ _ _ _ H1).
    rewrite Hmeta, Hc.
    rewrite (bind_run_ret _ _ _ _ _ E2). simpl prop.
    rewrite (bind_run_ret _ _ w2 (filename md) w2 eq_refl).
    rewrite (bind_run_ret _ _ _ _ _ E3).
    rewrite Horig.
    rewrite (bind_run_ret _ _ _ _ _ E4). reflexivity.
  - repeat split; try congruence; lia.
Qed.

Lemma downloadIfPresent_ok env f type dir w d :
  authOk env -> 0 <= now w -> fsReliable env ->
  deliverable env f ->
  findDir dir (tempDir w) = Some d ->
  exists w' t,
    downloadIfPresent env f type dir w
    = (Ret (artifactPath env dir type f), w') /\
    tempDir w' = withArtifact t dir (artifactFile env type f) (tempDir w) /\
    sessions w' = sessions w /\ jobGets w' = jobGets w /\
    submitPosts w' = submitPosts w /\ now w <= now w'.
Proof.
  intros Hauth Hnow Hfs Hdel Hdir.
  unfold downloadIfPresent, deliverable, artifactPath, artifactFile, wanted in *.
  destruct (fileRefId f) as [fid|].
  - destruct (truthy_str (Some fid)).
    + destruct Hdel as (Horig & Hc).
      destruct (originalOf env fid) as [original|] eqn:E; [|congruence].
      destruct (downloadFile_ok env fid type dir original w d
                  Hauth Hnow Hfs E Hc Hdir)
        as (w' & t & E' & D & S & J & P & N).
      exists w', t. rewrite (bind_run_ret _ _ _ _ _ E'). simpl.
      repeat split; auto.
    + exists w, 0. simpl. repeat split; auto; lia.
  - exists w, 0. simpl. repeat split; auto; lia.
Qed.

Lemma submit_run env url intensity w :
  exists w',
    request env (PostSubmitJob url intensity)
      (fun w => submitReply env (submitPosts w))
      (fun w => with_counters (authPosts w) (S (submitPosts w)) (jobGets w) w) w
    = (match submitReply env (submitPosts w) with
       | Resolved d => Ret d
       | Rejected e => Throw e
       end, w') /\
    tempDir w' = tempDir w /\ sessions w' = sessions w /\
    jobGets w' = jobGets w /\ now w <= now w'.
Proof.
  unfold request, bind, emit, modify, gets, suspend, ret, throw. simpl.
  destruct (submitReply env (submitPosts w)); eexists;
    (split; [reflexivity|]); simpl; repeat split; lia.
Qed.

Lemma findDir_withArtifact t dir name ds d :
  findDir dir ds = Some d ->
  exists d', findDir dir (withArtifact t dir name ds) = Some d'.
Proof.
  intros H. destruct name as [f|]; simpl.
  - rewrite findDir_addFile, H. simpl. eauto.
  - eauto.
Qed.

(** [spatializeAudio] on a job that succeeds and artifacts that the
    storage serves. *)
Lemma spatializeAudio_ok env fuel url intensity dir w jobId n rep d :
  authOk env -> 0 <= now w -> fsReliable env ->
  jobIdOf (submitReply env (submitPosts w)) = Some jobId ->
  (n < fuel)%nat ->
  jobSucceeds env jobId (jobGets w) n rep ->
  deliverable env (binauralFile rep) ->
  deliverable env (immersiveFile rep) ->
  findDir dir (tempDir w) = Some d ->
  exists w' t1 t2,
    spatializeAudio env fuel url intensity dir w
    = (Ret (resultFor env jobId dir rep), w') /\
    tempDir w'
    = withArtifact t2 dir (artifactFile env immersive (immersiveFile rep))
        (withArtifact t1 dir (artifactFile env binaural (binauralFile rep))
           (tempDir w)) /\
    sessions w' = sessions w /\ now w <= now w'.
Proof.
  intros Hauth Hnow Hfs Hjob Hfuel (Hpend & Hsucc & dd & Hd & Hrep) Hb Hi Hdir.
  destruct (ensureValidToken_ok env w Hauth Hnow)
    as (tok & w1 & E1 & H1 & _ & S1 & D1 & J1 & P1 & N1).
  destruct (submit_run env url intensity w1) as (w2 & E2 & D2 & S2 & J2 & N2).
  rewrite P1 in E2.
  unfold jobIdOf in Hjob.
  destruct (submitReply env (submitPosts w)) as [[sd|]|e]; try discriminate.
  destruct (truthy_str (submit_id sd)) eqn:Htruthy; [|discriminate].
  assert (Hg : jobGets w2 = jobGets w) by congruence.
  destruct (runToCompletion_run env jobId n fuel w2 "success"
              Hauth ltac:(lia) Hfuel
              ltac:(rewrite Hg; exact Hpend)
              ltac:(rewrite Hg; exact Hsucc) eq_refl)
    as (w3 & (_ & J3 & S3 & D3 & _ & N3) & E3).
  simpl in E3.
  destruct (fetchFinalReport_run env jobId w3 Hauth ltac:(lia))
    as (w4 & E4 & (_ & J4 & S4 & D4 & _ & N4)).
  rewrite J3, Hg, Hd in E4. simpl in E4. rewrite Hrep in E4.
  destruct (downloadIfPresent_ok env (binauralFile rep) binaural dir w4 d
              Hauth ltac:(lia) Hfs Hb ltac:(congruence))
    as (w5 & t1 & E5 & D5 & S5 & _ & _ & N5).
  destruct (findDir_withArtifact t1 dir
              (artifactFile env binaural (binauralFile rep)) (tempDir w4) d
              ltac:(congruence)) as (d' & Hdir').
  destruct (downloadIfPresent_ok env (immersiveFile rep) immersive dir w5 d'
              Hauth ltac:(lia) Hfs Hi ltac:(congruence))
    as (w6 & t2 & E6 & D6 & S6 & _ & _ & N6).
  exists w6, t1, t2. split; [|repeat split; try congruence; lia].
  unfold spatializeAudio. apply try_run_ret.
  rewrite (bind_run_ret _ _ _ _ _ E1).
  rewrite (bind_run_ret _ _ _ _ _ H1).
  rewrite (bind_run_ret _ _ _ _ _ E2). simpl prop.
  rewrite (bind_run_ret _ _ w2 (submit_id sd) w2 eq_refl).
  destruct (submit_id sd) as [j|]; [|discriminate].
  injection Hjob as <-. rewrite Htruthy.
  change (negb true) with false. cbv iota.
  rewrite E4 in E3.
  rewrite (bind_run_ret _ _ _ _ _ E3).
  rewrite (bind_run_ret _ _ _ _ _ E5).
  rewrite (bind_run_ret _ _ _ _ _ E6).
  reflexivity.
Qed.

(** ** The handler up to the call of [spatializeAudio] *)

Lemma try_bind_ret {A B} (m : M A) (k : A -> M B) h w a w1 :
  m w = (Ret a, w1) -> try_catch (bind m k) h w = try_catch (k a) h w1.
Proof. intros H. unfold try_catch, bind. now rewrite H. Qed.

Lemma try_bind_throw {A B} (m : M A) (k : A -> M B) h w e w1 :
  m w = (Throw e, w1) -> try_catch (bind m k) h w = h e w1.
Proof. intros H. unfold try_catch, bind. now rewrite H. Qed.

Lemma onlyLater_refl w : onlyLater w w.
Proof. unfold onlyLater. repeat split. lia. Qed.

Lemma onlyLater_trans a b c : onlyLater a b -> onlyLater b c -> onlyLater a c.
Proof.
  intros (T1 & D1 & S1 & J1 & P1 & N1) (T2 & D2 & S2 & J2 & P2 & N2).
  unfold onlyLater. repeat split; try congruence. lia.
Qed.

Lemma onlyLater_suspend env w : onlyLater w (snd (suspend env w)).
Proof. unfold onlyLater. simpl. repeat split. lia. Qed.

Lemma findDir_NoDup ds d :
  NoDup (map d_name ds) -> In d ds -> findDir (d_name d) ds = Some d.
Proof.
  intros Hnd Hin. apply in_split in Hin. destruct Hin as (l1 & l2 & ->).
  now apply find_entry.
Qed.

Lemma stats_run env : forall ds w,
  fsReliable env ->
  (forall d, In d ds -> findDir (d_name d) (tempDir w) = Some d) ->
  exists w',
    mapM (fun session =>
            timestamp <- statMtime env session ;; ret (session, timestamp))
      (map d_name ds) w
    = (Ret (map (fun d => (d_name d, d_mtime d)) ds), w') /\
    onlyLater w w'.
Proof.
  induction ds as [|d ds IH]; intros w Hfs Hfind; simpl.
  - exists w. split; [reflexivity|apply onlyLater_refl].
  - destruct (IH (snd (suspend env w)) Hfs) as (w' & E & Hl).
    { intros d' Hd'. apply Hfind. now right. }
    exists w'. split.
    + unfold bind at 1. unfold bind at 1. rewrite statMtime_run.
      rewrite (fsReliable_op env OpStat _ Hfs) by discriminate.
      rewrite (Hfind d (or_introl eq_refl)).
      unfold ret at 1. unfold bind at 1. rewrite E. reflexivity.
    + eapply onlyLater_trans; [apply onlyLater_suspend|exact Hl].
Qed.

Lemma resolve_session env fuel url intensity w latest d original :
  truthy_str (Some url) = true ->
  fsReliable env ->
  NoDup (map d_name (tempDir w)) ->
  latestOf (tempDir w) = Some latest ->
  findDir latest (tempDir w) = Some d ->
  find (String.prefix "original_") (d_files d) = Some original ->
  exists w1,
    onlyLater w w1 /\
    spatializeRoute env fuel (Some url) intensity w
    = try_catch
        (result <- spatializeAudio env fuel url intensity latest ;;
         result <- archiveStep env latest original result ;;
         ret {| status := 200; body := Result result |})
        (fun error =>
           logError "Processing failed" error ;;
           ret {| status := 500; body := Message "Spatialization failed" |})
        w1.
Proof.
  intros Hurl Hfs Hnd Hlatest Hdir Horig.
  unfold spatializeRoute. rewrite Hurl.
  change (negb true) with false. cbv iota.
  assert (E0 : readdirTemp env w
               = (Ret (map d_name (tempDir w)), snd (suspend env w))).
  { unfold readdirTemp, bind. rewrite fsCall_run.
    rewrite (fsReliable_op env OpReaddir _ Hfs) by discriminate. reflexivity. }
  rewrite (try_bind_ret _ _ _ _ _ _ E0).
  assert (Hne : Nat.eqb (List.length (map d_name (tempDir w))) 0 = false).
  { destruct (tempDir w); [discriminate|reflexivity]. }
  rewrite Hne.
  destruct (stats_run env (tempDir w) (snd (suspend env w)) Hfs)
    as (w1 & E1 & Hl1).
  { intros d' Hd'. now apply findDir_NoDup. }
  assert (E1' : latestSessionDir env (map d_name (tempDir w)) (snd (suspend env w))
                = (Ret (Some latest), w1)).
  { unfold latestSessionDir. rewrite (bind_run_ret _ _ _ _ _ E1).
    unfold ret. unfold latestOf in Hlatest. now rewrite Hlatest. }
  rewrite (try_bind_ret _ _ _ _ _ _ E1').
  assert (E2 : readdirSession env latest w1
               = (Ret (d_files d), snd (suspend env w1))).
  { unfold readdirSession, bind. rewrite fsCall_run.
    rewrite (fsReliable_op env OpReaddir _ Hfs) by discriminate.
    unfold gets. simpl.
    destruct Hl1 as (_ & -> & _). simpl. now rewrite Hdir. }
  rewrite (try_bind_ret _ _ _ _ _ _ E2). rewrite Horig.
  exists (snd (suspend env w1)). split; [|reflexivity].
  eapply onlyLater_trans; [apply onlyLater_suspend|].
  eapply onlyLater_trans; [exact Hl1|apply onlyLater_suspend].
Qed.

(** ** The archive step *)

Lemma statSize_run env path w :
  fsReliable env -> existsPath path (tempDir w) = true ->
  statSize env path w = (Ret (fileSize env path), snd (suspend env w)).
Proof.
  intros Hfs Hex. unfold statSize, bind. rewrite fsCall_run.
  rewrite (fsReliable_op env OpStat _ Hfs) by discriminate.
  unfold gets. simpl. now rewrite Hex.
Qed.

Lemma accessFile_run env path w :
  fsReliable env -> existsPath path (tempDir w) = true ->
  accessFile env path w = (Ret tt, snd (suspend env w)).
Proof.
  intros Hfs Hex. unfold accessFile, bind. rewrite fsCall_run.
  rewrite (fsReliable_op env OpAccess _ Hfs) by discriminate.
  unfold gets. simpl. now rewrite Hex.
Qed.

Lemma archiveStep_skip env latest original result w :
  dl_binaural (r_downloads result) = None \/
  dl_immersive (r_downloads result) = None ->
  archiveStep env latest original result w = (Ret result, w).
Proof.
  unfold archiveStep. intros [H|H]; rewrite H; [reflexivity|].
  destruct (dl_binaural _); reflexivity.
Qed.

(** The archive is written: where its name comes from, what
    [createProcessedFilesZip] leaves behind and returns. *)
Lemma createZip_run env latest b i original w d :
  fsReliable env ->
  existsPath b (tempDir w) = true -> existsPath i (tempDir w) = true ->
  findDir latest (tempDir w) = Some d ->
  exists w',
    createProcessedFilesZip env latest b i original w
    = (match fsFault env OpZip
               (filePath latest (zipFileName env original (now w))) with
       | Some e => Throw e
       | None => Ret (filePath latest (zipFileName env original (now w)))
       end, w') /\
    tempDir w'
    = map (addFile (now w) latest (zipFileName env original (now w))) (tempDir w) /\
    sessions w' = sessions w /\ trace w' = trace w.
Proof.
  intros Hfs Hb Hi Hdir.
  unfold createProcessedFilesZip.
  unfold bind at 1, gets. unfold bind at 1, modify.
  set (name := zipFileName env original (now w)).
  set (w1 := with_tempDir (map (addFile (now w) latest name) (tempDir w)) w).
  assert (Hb1 : existsPath b (tempDir w1) = true)
    by (now apply existsPath_addFile_mono).
  assert (Hi1 : existsPath i (tempDir w1) = true)
    by (now apply existsPath_addFile_mono).
  rewrite (bind_run_ret _ _ _ _ _ (accessFile_run env b w1 Hfs Hb1)).
  rewrite (bind_run_ret _ _ _ _ _
             (accessFile_run env i (snd (suspend env w1)) Hfs Hi1)).
  unfold bind. rewrite fsCall_run.
  destruct (fsFault env OpZip (filePath latest name));
    eexists; (split; [reflexivity|]); repeat split.
Qed.

Lemma updateSession_run s p w :
  updateSession s p w
  = (Ret tt, with_sessions (opSessions (OpUpdate s p) (sessions w)) w).
Proof. exact (applyOp_run (OpUpdate s p) w). Qed.

Lemma archiveStep_run env latest original result w b i d :
  fsReliable env ->
  dl_binaural (r_downloads result) = Some b ->
  dl_immersive (r_downloads result) = Some i ->
  truthy_str (Some b) = true -> truthy_str (Some i) = true ->
  existsPath b (tempDir w) = true -> existsPath i (tempDir w) = true ->
  findDir latest (tempDir w) = Some d ->
  exists w' t,
    let sized := withSizes (fileSize env b) (fileSize env i) result in
    let zip := filePath latest (zipFileName env original t) in
    match fsFault env OpZip zip with
    | Some e =>
        archiveStep env latest original result w = (Ret sized, w') /\
        sessions w' = sessions w /\
        trace w' = (trace w ++ [Logged "ZIP creation failed" e])%list
    | None =>
        archiveStep env latest original result w
        = (Ret (withZipSize (fileSize env zip) sized), w') /\
        sessions w'
        = opSessions (OpUpdate latest (zipPatch zip (fileSize env zip)))
            (sessions w) /\
        trace w' = trace w
    end /\
    tempDir w' = map (addFile t latest (zipFileName env original t)) (tempDir w).
Proof.
  intros Hfs Hb Hi Tb Ti Eb Ei Hdir.
  unfold archiveStep. rewrite Hb, Hi. cbv iota beta. rewrite Tb, Ti.
  change (true && true) with true. cbv iota.
  rewrite (bind_run_ret _ _ _ _ _ (statSize_run env b w Hfs Eb)).
  rewrite (bind_run_ret _ _ _ _ _
             (statSize_run env i (snd (suspend env w)) Hfs Ei)).
  remember (snd (suspend env (snd (suspend env w)))) as w2 eqn:Hw2.
  assert (D2 : tempDir w2 = tempDir w) by (subst w2; reflexivity).
  assert (S2 : sessions w2 = sessions w) by (subst w2; reflexivity).
  assert (T2 : trace w2 = trace w) by (subst w2; reflexivity).
  clear Hw2.
  destruct (createZip_run env latest b i original w2 d Hfs
              ltac:(now rewrite D2) ltac:(now rewrite D2)
              ltac:(now rewrite D2))
    as (w3 & E3 & D3 & S3 & T3).
  cut (exists w',
         match fsFault env OpZip
                 (filePath latest (zipFileName env original (now w2))) with
         | Some e =>
             try_catch
               (zipPath_ <- createProcessedFilesZip env latest b i original ;;
                zsize <- statSize env zipPath_ ;;
                updateSession latest (zipPatch zipPath_ zsize) ;;
                ret (withZipSize zsize
                       (withSizes (fileSize env b) (fileSize env i) result)))
               (fun error =>
                  logError "ZIP creation failed" error ;;
                  ret (withSizes (fileSize env b) (fileSize env i) result)) w2
             = (Ret (withSizes (fileSize env b) (fileSize env i) result), w') /\
             sessions w' = sessions w /\
             trace w' = (trace w ++ [Logged "ZIP creation failed" e])%list
         | None =>
             try_catch
               (zipPath_ <- createProcessedFilesZip env latest b i original ;;
                zsize <- statSize env zipPath_ ;;
                updateSession latest (zipPatch zipPath_ zsize) ;;
                ret (withZipSize zsize
                       (withSizes (fileSize env b) (fileSize env i) result)))
               (fun error =>
                  logError "ZIP creation failed" error ;;
                  ret (withSizes (fileSize env b) (fileSize env i) result)) w2
             = (Ret (withZipSize
                       (fileSize env
                          (filePath latest (zipFileName env original (now w2))))
                       (withSizes (fileSize env b) (fileSize env i) result)),
                w') /\
             sessions w'
             = opSessions
                 (OpUpdate latest
                    (zipPatch (filePath latest (zipFileName env original (now w2)))
                       (fileSize env
                          (filePath latest (zipFileName env original (now w2))))))
                 (sessions w) /\
             trace w' = trace w
         end /\
         tempDir w'
         = map (addFile (now w2) latest (zipFileName env original (now w2)))
             (tempDir w)).
  { intros (w' & H). exists w', (now w2). exact H. }
  destruct (fsFault env OpZip
              (filePath latest (zipFileName env original (now w2)))) as [e|].
  - eexists. split; [split; [|split]|].
    + rewrite (try_bind_throw _ _ _ _ _ _ E3). reflexivity.
    + simpl. congruence.
    + simpl. now rewrite T3, T2.
    + simpl. now rewrite D3, D2.
  - assert (Ez : existsPath (filePath latest (zipFileName env original (now w2)))
                   (tempDir w3) = true).
    { rewrite D3. apply existsPath_addFile_new with (d := d). congruence. }
    eexists. split; [split; [|split]|].
    + rewrite (try_bind_ret _ _ _ _ _ _ E3).
      rewrite (try_bind_ret _ _ _ _ _ _ (statSize_run env _ w3 Hfs Ez)).
      rewrite (try_bind_ret _ _ _ _ _ _ (updateSession_run _ _ _)).
      reflexivity.
    + simpl. now rewrite S3, S2.
    + simpl. now rewrite T3, T2.
    + simpl. now rewrite D3, D2.
Qed.

(** ** When the handler writes to the session store *)





Lemma filePath_truthy dir f : truthy_str (Some (filePath dir f)) = true.
Proof. unfold filePath. destruct dir; reflexivity. Qed.

Lemma logGrows_framing : Framing logGrows /\ FramesUpdates logGrows.
Proof.
  split; [constructor|unfold FramesUpdates]; unfold logGrows;
    try (intros; simpl; exists []; now rewrite app_nil_r).
  - intros a b c (e1 & H1) (e2 & H2). exists (e1 ++ e2)%list.
    now rewrite H2, H1, app_assoc.
  - intros w e. simpl. now exists [e].
Qed.

(** A request that goes well arrives at the archive step with the result
    of the job and the artifacts saved. *)
Lemma route_to_archive env fuel url intensity w latest original jobId n rep :
  requestGoesWell env fuel url w latest original jobId n rep ->
  exists w2 t1 t2,
    spatializeRoute env fuel (Some url) intensity w
    = try_catch
        (result <- archiveStep env latest original
                     (resultFor env jobId latest rep) ;;
         ret {| status := 200; body := Result result |})
        (fun error =>
           logError "Processing failed" error ;;
           ret {| status := 500; body := Message "Spatialization failed" |})
        w2 /\
    tempDir w2
    = withArtifact t2 latest (artifactFile env immersive (immersiveFile rep))
        (withArtifact t1 latest (artifactFile env binaural (binauralFile rep))
           (tempDir w)) /\
    sessions w2 = sessions w /\
    logGrows w w2 /\
    now w <= now w2.
Proof.
  intros (Hurl & Hauth & Hnow & Hfs & Hnd & Hlatest & (d & Hdir & Horig)
          & Hjob & Hfuel & Hsucc & Hb & Hi).
  destruct (resolve_session env fuel url intensity w latest d original
              Hurl Hfs Hnd Hlatest Hdir Horig)
    as (w1 & (T1 & D1 & S1 & J1 & P1 & N1) & E1).
  destruct (spatializeAudio_ok env fuel url intensity latest w1 jobId n rep d
              Hauth ltac:(lia) Hfs ltac:(now rewrite P1) Hfuel
              ltac:(now rewrite J1) Hb Hi ltac:(now rewrite D1))
    as (w2 & t1 & t2 & E2 & D2 & S2 & N2).
  exists w2, t1, t2. rewrite E1, (try_bind_ret _ _ _ _ _ _ E2).
  split; [reflexivity|]. rewrite D2, D1, S2, S1.
  repeat split; try lia.
  pose proof (framed_spatializeAudio env logGrows (proj1 logGrows_framing)
                fuel url intensity latest w1) as G.
  rewrite E2 in G. destruct G as (evs & G). exists evs.
  simpl in G. now rewrite G, T1.
Qed.
(** ** What the handler answers *)




(** ** The archive step in a request that goes well *)

Lemma existsPath_withArtifact t dir name path ds :
  existsPath path ds = true ->
  existsPath path (withArtifact t dir name ds) = true.
Proof.
  destruct name as [f|]; simpl; [apply existsPath_addFile_mono|auto].
Qed.

Lemma artifactPath_file env dir type f p :
  artifactPath env dir type f = Some p ->
  exists name, artifactFile env type f = Some name /\ p = filePath dir name.
Proof.
  unfold artifactPath. destruct (artifactFile env type f) as [name|];
    simpl; intros H; [|discriminate].
  injection H as <-. now exists name.
Qed.

Lemma opSessions_update_get s p m :
  JsMap.get s (opSessions (OpUpdate s p) m)
  = option_map (fun cur => applyPatch cur p) (JsMap.get s m).
Proof.
  simpl. destruct (JsMap.get s m) as [cur|] eqn:E; simpl.
  - apply get_set_same.
  - exact E.
Qed.

(** The request goes well and the result has both artifacts: the archive is
    written at [zip]; when that succeeds, it is recorded, when it fails,
    the error is logged and the result goes out without the archive. *)
Lemma route_archives env fuel url intensity w latest original jobId n rep b i :
  requestGoesWell env fuel url w latest original jobId n rep ->
  artifactPath env latest binaural (binauralFile rep) = Some b ->
  artifactPath env latest immersive (immersiveFile rep) = Some i ->
  exists w' t,
    let sized := withSizes (fileSize env b) (fileSize env i)
                   (resultFor env jobId latest rep) in
    let zip := filePath latest (zipFileName env original t) in
    match fsFault env OpZip zip with
    | Some e =>
        spatializeRoute env fuel (Some url) intensity w
        = (Ret {| status := 200; body := Result sized |}, w') /\
        sessions w' = sessions w /\
        exists evs,
          trace w' = (trace w ++ evs ++ [Logged "ZIP creation failed" e])%list
    | None =>
        spatializeRoute env fuel (Some url) intensity w
        = (Ret {| status := 200;
                  body := Result (withZipSize (fileSize env zip) sized) |}, w') /\
        sessions w'
        = opSessions (OpUpdate latest (zipPatch zip (fileSize env zip)))
            (sessions w) /\
        existsPath zip (tempDir w') = true
    end /\
    existsPath b (tempDir w') = true /\
    existsPath i (tempDir w') = true.
Proof.
  intros Hgo Hb Hi.
  destruct (route_to_archive env fuel url intensity w latest original jobId
              n rep Hgo) as (w2 & t1 & t2 & E & D2 & S2 & (evs & T2) & _).
  pose proof Hgo as (_ & _ & _ & Hfs & _ & _ & (d & Hdir & _) & _).
  destruct (artifactPath_file _ _ _ _ _ Hb) as (nb & Fb & ->).
  destruct (artifactPath_file _ _ _ _ _ Hi) as (ni & Fi & ->).
  rewrite Fb, Fi in D2. simpl in D2.
  assert (Hd1 : exists d1, findDir latest (map (addFile t1 latest nb) (tempDir w))
                           = Some d1)
    by (rewrite findDir_addFile, Hdir; simpl; eauto).
  destruct Hd1 as (d1 & Hd1).
  assert (Hd2 : exists d2, findDir latest (tempDir w2) = Some d2)
    by (rewrite D2, findDir_addFile, Hd1; simpl; eauto).
  destruct Hd2 as (d2 & Hd2).
  assert (Eb : existsPath (filePath latest nb) (tempDir w2) = true).
  { rewrite D2. apply existsPath_addFile_mono.
    exact (existsPath_addFile_new t1 latest nb (tempDir w) d Hdir). }
  assert (Ei : existsPath (filePath latest ni) (tempDir w2) = true).
  { rewrite D2. exact (existsPath_addFile_new t2 latest ni _ d1 Hd1). }
  destruct (archiveStep_run env latest original
              (resultFor env jobId latest rep) w2
              (filePath latest nb) (filePath latest ni) d2 Hfs
              Hb Hi (filePath_truthy latest nb) (filePath_truthy latest ni)
              Eb Ei Hd2)
    as (w3 & t & Hrun & D3).
  exists w3, t. cbv zeta in *.
  assert (Hkeep : forall path, existsPath path (tempDir w2) = true ->
                               existsPath path (tempDir w3) = true)
    by (intros path; rewrite D3; apply existsPath_addFile_mono).
  split; [|split; auto].
  rewrite E.
  destruct (fsFault env OpZip (filePath latest (zipFileName env original t)))
    as [e|].
  - destruct Hrun as (R3 & S3 & T3).
    rewrite (try_bind_ret _ _ _ _ _ _ R3).
    split; [reflexivity|]. split; [congruence|].
    exists evs. now rewrite T3, T2, app_assoc.
  - destruct Hrun as (R3 & S3 & T3).
    rewrite (try_bind_ret _ _ _ _ _ _ R3).
    split; [reflexivity|]. split; [congruence|].
    rewrite D3. exact (existsPath_addFile_new t latest _ _ d2 Hd2).
Qed.
(** ** Requests against the stub providers *)

Lemma stub_goes_well rep :
  requestGoesWell (stubProvider ["success"] (Some rep)) 5 "ias://s1"
    uploadedWorld "s1" "original_song.wav" "job-1" 0 rep.
Proof.
  unfold requestGoesWell. repeat split; try reflexivity; try (simpl; lia).
  all: try (intros op path; destruct op; reflexivity).
  - repeat constructor. simpl. tauto.
  - eexists. split; reflexivity.
  - eexists. split; reflexivity.
  - unfold deliverable. destruct (wanted (binauralFile rep)); [|exact I].
    split; [discriminate|now eexists].
  - unfold deliverable. destruct (wanted (immersiveFile rep)); [|exact I].
    split; [discriminate|now eexists].
Qed.

(** ** The archive and the two artifacts *)




(** The scenario of the spec: a stub provider that reports success with a
    binaural file only, intensity 3.  The result has the binaural path
    and no immersive path, the directory has the binaural file and no
    archive, and the session has no archive. *)
Example only_binaural_scenario :
  let r := spatializeRoute (stubProvider ["success"] (Some onlyBinaural)) 5
             (Some "ias://s1") "3" uploadedWorld in
  (exists res,
     fst r = Ret {| status := 200; body := Result res |} /\
     dl_binaural (r_downloads res) = Some "s1/binaural_bin-7.bin.mp3" /\
     dl_immersive (r_downloads res) = None /\
     dl_zipSize (r_downloads res) = None) /\
  sessions (snd r) = [("s1", sampleSession "s1")] /\
  option_map zipPath (JsMap.get "s1" (sessions (snd r))) = Some None /\
  map d_files (tempDir (snd r))
  = [["original_song.wav"; "binaural_bin-7.bin.mp3"]].
Proof.
  cbv zeta. split; [eexists; vm_compute; repeat split; reflexivity|].
  vm_compute. repeat split; reflexivity.
Qed.

(** With both files in the report and a file system that works, the
    archive is written and recorded. *)
Example both_artifacts_scenario :
  let r := spatializeRoute (stubProvider ["success"] (Some bothArtifacts)) 5
             (Some "ias://s1") "3" uploadedWorld in
  (exists res,
     fst r = Ret {| status := 200; body := Result res |} /\
     dl_binaural (r_downloads res) = Some "s1/binaural_bin-7.bin.mp3" /\
     dl_immersive (r_downloads res) = Some "s1/immersive_imm-8.bin.wav" /\
     dl_zipSize (r_downloads res) = Some 1024) /\
  option_map zipPath (JsMap.get "s1" (sessions (snd r)))
  = Some (Some "s1/original_song.wav_2025-01-01T00-00-00-000Z.zip") /\
  map d_files (tempDir (snd r))
  = [["original_song.wav"; "binaural_bin-7.bin.mp3";
      "immersive_imm-8.bin.wav";
      "original_song.wav_2025-01-01T00-00-00-000Z.zip"]].
Proof.
  cbv zeta. split; [eexists; vm_compute; repeat split; reflexivity|].
  vm_compute. repeat split; reflexivity.
Qed.
(** ** Failures and the caller *)






(** The job fails: the caller gets the fixed message, the error is in the
    log. *)
Example job_error_scenario :
  let r := spatializeRoute (stubProvider ["pending"; "error"] None) 5
             (Some "ias://s1") "3" uploadedWorld in
  fst r = Ret {| status := 500; body := Message "Spatialization failed" |} /\
  filter (fun ev => match ev with Logged _ _ => true | _ => false end)
    (trace (snd r))
  = [Logged "Spatialization failed" JobFailedError;
     Logged "Processing failed" JobFailedError].
Proof. cbv zeta. split; vm_compute; reflexivity. Qed.

(** After the archive could not be written, both artifacts are served by
    the download route, and the archive route finds nothing. *)
Example artifacts_after_archive_failure :
  let w' := snd (spatializeRoute zipFailingProvider 5 (Some "ias://s1") "3"
                   uploadedWorld) in
  fst (downloadFileRoute zipFailingProvider "s1" "binaural" w')
  = Ret {| status := 200; body := Download "s1/binaural_bin-7.bin.mp3" |} /\
  fst (downloadFileRoute zipFailingProvider "s1" "immersive" w')
  = Ret {| status := 200; body := Download "s1/immersive_imm-8.bin.wav" |} /\
  fst (downloadZipRoute zipFailingProvider "s1" w')
  = Ret {| status := 404; body := Message "ZIP file not found" |}.
Proof. cbv zeta. repeat split; vm_compute; reflexivity. Qed.
(** ** The token in the handlers *)

(** The handler and the calls to the provider keep the token stamped, so
    the bound of [ensureValidToken] holds all through a request. *)
Lemma tokenStamped_preserved env fuel iasUrl url intensity dir fid type w :
  tokenStamped w ->
  tokenStamped (snd (spatializeRoute env fuel iasUrl intensity w)) /\
  tokenStamped (snd (spatializeAudio env fuel url intensity dir w)) /\
  tokenStamped (snd (downloadFile env fid type dir w)).
Proof.
  intros H. repeat split.
  - exact (framed_spatializeRoute env stampKept (proj1 stampKept_framing)
             (proj2 stampKept_framing) fuel iasUrl intensity w H).
  - exact (framed_spatializeAudio env stampKept (proj1 stampKept_framing)
             fuel url intensity dir w H).
  - exact (framed_downloadFile env stampKept (proj1 stampKept_framing)
             fid type dir w H).
Qed.

Lemma ensureValidToken_within_window_witness :
  exists issued,
    tokenIssuedAt (snd (ensureValidToken (stubProvider ["success"] None)
                          uploadedWorld)) = Some issued /\
    ircamToken (snd (ensureValidToken (stubProvider ["success"] None)
                       uploadedWorld)) = Some "t0k3n" /\
    now (snd (ensureValidToken (stubProvider ["success"] None) uploadedWorld))
    - issued < 30 * 60 * 1000.
Proof.
  exact (proj2 (proj2 (proj1 (proj2 ensureValidToken_within_window)
                         (stubProvider ["success"] None) uploadedWorld I))
           "t0k3n" eq_refl).
Defined.

Lemma tokenStamped_preserved_witness :
  tokenStamped uploadedWorld /\
  tokenStamped
    (snd (spatializeRoute (stubProvider ["success"] (Some bothArtifacts)) 5
            (Some "ias://s1") "3" uploadedWorld)).
Proof.
  split; [exact I|].
  exact (proj1 (tokenStamped_preserved
                  (stubProvider ["success"] (Some bothArtifacts)) 5%nat
                  (Some "ias://s1") "ias://s1" "3" "s1" "bin-7" binaural
                  uploadedWorld I)).
Defined.
(* ================================================================== *)
(** * Part III: the rest of the server                                 *)
(* ================================================================== *)

(** ** Which session the routes work on *)

Lemma head_insertDesc x l :
  hd_error (insertDesc x l)
  = match hd_error l with
    | Some y => if snd y <=? snd x then Some x else Some y
    | None => Some x
    end.
Proof.
  destruct l as [|y rest]; simpl; [reflexivity|].
  destruct (snd y <=? snd x); reflexivity.
Qed.

(** The head of the sorted listing is the first of the entries with the
    greatest modification time. *)
Lemma head_sortDesc ds :
  match hd_error (sortDesc (map (fun d => (d_name d, d_mtime d)) ds)) with
  | None => ds = []
  | Some (s, t) =>
      exists pre d post,
        ds = (pre ++ d :: post)%list /\ d_name d = s /\ d_mtime d = t /\
        (forall d', In d' pre -> d_mtime d' < d_mtime d) /\
        (forall d', In d' post -> d_mtime d' <= d_mtime d)
  end.
Proof.
  induction ds as [|x ds IH]; simpl; [reflexivity|].
  unfold sortDesc in *. simpl. rewrite head_insertDesc.
  destruct (hd_error (fold_right insertDesc []
                        (map (fun d => (d_name d, d_mtime d)) ds)))
    as [[s t]|].
  - destruct IH as (pre & d & post & -> & Hs & Ht & Hpre & Hpost).
    simpl. destruct (t <=? d_mtime x) eqn:E.
    + apply Z.leb_le in E.
      exists [], x, (pre ++ d :: post)%list.
      split; [reflexivity|]. split; [reflexivity|]. split; [reflexivity|].
      split; [intros d' []|].
      intros d' Hd'. apply in_app_or in Hd'.
      destruct Hd' as [H|[H|H]].
      * specialize (Hpre d' H). lia.
      * subst d'. lia.
      * specialize (Hpost d' H). lia.
    + apply Z.leb_gt in E.
      exists (x :: pre), d, post. repeat split; auto.
      intros d' [H|H]; [subst d'; lia|now apply Hpre].
  - subst ds. exists [], x, []. repeat split; simpl; tauto.
Qed.

(** The handlers of [/api/spatialize] and [/api/current-file] sort the
    listing of the temp directory by modification time, latest first.
    When the file system answers, the session they take is the first of
    the directories with the greatest modification time, and there is
    none only if the directory is empty. *)
Theorem latestSessionDir_picks_greatest env w :
  fsReliable env ->
  NoDup (map d_name (tempDir w)) ->
  exists w',
    latestSessionDir env (map d_name (tempDir w)) w
    = (Ret (latestOf (tempDir w)), w') /\
    onlyLater w w' /\
    match latestOf (tempDir w) with
    | None => tempDir w = []
    | Some s =>
        exists pre d post,
          tempDir w = (pre ++ d :: post)%list /\ d_name d = s /\
          (forall d', In d' pre -> d_mtime d' < d_mtime d) /\
          (forall d', In d' post -> d_mtime d' <= d_mtime d)
    end.
Proof.
  intros Hfs Hnd.
  destruct (stats_run env (tempDir w) w Hfs) as (w' & E & Hl).
  { intros d Hd. now apply findDir_NoDup. }
  exists w'. split; [|split; [exact Hl|]].
  - unfold latestSessionDir. rewrite (bind_run_ret _ _ _ _ _ E). reflexivity.
  - unfold latestOf. pose proof (head_sortDesc (tempDir w)) as H.
    destruct (sortDesc (map (fun d => (d_name d, d_mtime d)) (tempDir w)))
      as [|[s t] rest]; simpl in *; [exact H|].
    destruct H as (pre & d & post & H1 & H2 & _ & H3 & H4).
    exists pre, d, post. auto.
Qed.

Lemma latestSessionDir_picks_greatest_witness :
  exists w',
    latestSessionDir (stubProvider ["success"] None)
      (map d_name (tempDir agedWorld)) agedWorld
    = (Ret (latestOf (tempDir agedWorld)), w') /\
    onlyLater agedWorld w' /\
    match latestOf (tempDir agedWorld) with
    | None => tempDir agedWorld = []
    | Some s =>
        exists pre d post,
          tempDir agedWorld = (pre ++ d :: post)%list /\ d_name d = s /\
          (forall d', In d' pre -> d_mtime d' < d_mtime d) /\
          (forall d', In d' post -> d_mtime d' <= d_mtime d)
    end.
Proof.
  apply (latestSessionDir_picks_greatest (stubProvider ["success"] None)
           agedWorld).
  - intros op path. destruct op; reflexivity.
  - repeat constructor; simpl; intuition discriminate.
Defined.

(** ** The token cache: when the provider is asked *)

Lemma getIrcamToken_fresh w tok :
  0 <= now w ->
  ircamToken w = tok ->
  tokenExpiry w = Some (now w + TOKEN_WINDOW) ->
  getIrcamToken w = (Ret (if truthy_str tok then tok else None), w).
Proof.
  intros Hnow Ht He. unfold getIrcamToken, gets. rewrite Ht, He.
  unfold TOKEN_WINDOW, truthy_num.
  replace (now w + 30 * 60 * 1000 =? 0) with false
    by (symmetry; apply Z.eqb_neq; lia).
  replace (now w >=? now w + 30 * 60 * 1000) with false
    by (symmetry; rewrite Z.geb_leb; apply Z.leb_gt; lia).
  destruct (truthy_str tok); reflexivity.
Qed.

Lemma refreshIrcamToken_run env w :
  refreshIrcamToken env w
  = match authReply env (authPosts w) with
    | Resolved (Some d) =>
        (Ret (id_token d),
         with_token (id_token d) (Some (now (afterAuth env w) + TOKEN_WINDOW))
           (Some (now (afterAuth env w))) (afterAuth env w))
    | Resolved None =>
        (Throw (TypeError "Cannot read properties of null"),
         with_trace (trace (afterAuth env w)
                     ++ [Logged "Token refresh failed"
                           (TypeError "Cannot read properties of null")])
           (afterAuth env w))
    | Rejected e =>
        (Throw e,
         with_trace (trace (afterAuth env w)
                     ++ [Logged "Token refresh failed" e])
           (afterAuth env w))
    end.
Proof.
  unfold refreshIrcamToken, try_catch, request, bind, emit, modify, gets,
    suspend, prop, logError, ret, throw, afterAuth. simpl.
  destruct (authReply env (authPosts w)) as [[d|]|e]; reflexivity.
Qed.

(** [ensureValidToken] with a token in the cache that has not expired
    returns it and does nothing else.  Otherwise it sends exactly one
    request for a token: a reply with a body puts its [id_token] into the
    cache with an expiry 30 minutes ahead, and the call returns that token,
    or nothing (and no error) when the reply has none, in which case
    [getIrcamHeaders] throws; a reply without a body or a rejection is
    rethrown, and the cache stays as it was. *)
Theorem ensureValidToken_cases env w :
  0 <= now w ->
  match fst (getIrcamToken w) with
  | Ret (Some tok) => ensureValidToken env w = (Ret (Some tok), w)
  | _ =>
      let r := ensureValidToken env w in
      authPosts (snd r) = S (authPosts w) /\
      match authReply env (authPosts w) with
      | Resolved (Some d) =>
          fst r = Ret (if truthy_str (id_token d) then id_token d else None) /\
          ircamToken (snd r) = id_token d /\
          tokenExpiry (snd r) = Some (now (snd r) + 30 * 60 * 1000) /\
          (truthy_str (id_token d) = false ->
           getIrcamHeaders (snd r)
           = (Throw (Error "IRCAM token not available"), snd r))
      | Resolved None =>
          (exists m, fst r = Throw (TypeError m)) /\
          ircamToken (snd r) = ircamToken w /\
          tokenExpiry (snd r) = tokenExpiry w
      | Rejected e =>
          fst r = Throw e /\
          ircamToken (snd r) = ircamToken w /\
          tokenExpiry (snd r) = tokenExpiry w /\
          exists t, trace (snd r) = (t ++ [Logged "Token refresh failed" e])%list
      end
  end.
Proof.
  intros Hnow.
  destruct (getIrcamToken_run w) as (r0 & E0 & H0).
  rewrite E0. simpl.
  assert (Hcase : r0 = None \/ exists tok, r0 = Some tok) by
    (destruct r0; eauto).
  destruct Hcase as [->|(tok & ->)].
  - assert (E : ensureValidToken env w
               = (_ <- refreshIrcamToken env ;; getIrcamToken) w).
    { unfold ensureValidToken. rewrite (bind_run_ret _ _ _ _ _ E0).
      simpl negb. cbv iota. unfold bind.
      destruct (refreshIrcamToken env w) as [[a|e|] w1]; reflexivity. }
    cbv zeta. rewrite E. unfold bind. rewrite refreshIrcamToken_run.
    destruct (authReply env (authPosts w)) as [[d|]|e].
    + set (w1 := with_token _ _ _ _).
      assert (N1 : 0 <= now w1) by (subst w1; simpl; lia).
      assert (T1 : ircamToken w1 = id_token d) by reflexivity.
      assert (X1 : tokenExpiry w1 = Some (now w1 + TOKEN_WINDOW))
        by reflexivity.
      rewrite (getIrcamToken_fresh w1 (id_token d) N1 T1 X1).
      unfold fst, snd.
      split; [reflexivity|]. split; [reflexivity|]. split; [exact T1|].
      split; [exact X1|].
      intros Hf. unfold getIrcamHeaders.
      rewrite (bind_run_ret _ _ _ _ _
                 (getIrcamToken_fresh w1 (id_token d) N1 T1 X1)).
      rewrite Hf. reflexivity.
    + unfold fst, snd.
      split; [reflexivity|]. split; [eauto|]. split; reflexivity.
    + unfold fst, snd.
      split; [reflexivity|]. split; [reflexivity|].
      split; [reflexivity|]. split; [reflexivity|]. now exists (trace (afterAuth env w)).
  - destruct (H0 tok eq_refl) as (_ & Ht & _).
    unfold ensureValidToken. rewrite (bind_run_ret _ _ _ _ _ E0).
    rewrite Ht. simpl negb. cbv iota.
    unfold bind at 1. unfold ret at 1. exact E0.
Qed.

Lemma ensureValidToken_cases_witness :
  let r := ensureValidToken (stubProvider ["success"] None) uploadedWorld in
  authPosts (snd r) = S (authPosts uploadedWorld) /\
  fst r = Ret (Some "t0k3n") /\
  ircamToken (snd r) = Some "t0k3n" /\
  tokenExpiry (snd r) = Some (now (snd r) + 30 * 60 * 1000).
Proof.
  pose proof (ensureValidToken_cases (stubProvider ["success"] None)
                uploadedWorld ltac:(simpl; lia)) as H.
  simpl in H. cbv zeta. tauto.
Defined.

(** ** The session store: saving and reading back *)

Lemma set_set (k : string) (v v' : SessionData) m :
  JsMap.set k v' (JsMap.set k v m) = JsMap.set k v' m.
Proof.
  induction m as [|[k0 v0] rest IH]; simpl.
  - now rewrite String.eqb_refl.
  - destruct (String.eqb k k0) eqn:E; simpl; rewrite E; [reflexivity|].
    now rewrite IH.
Qed.

(** After [saveSession s d], [getSession s] gives [d] (whatever was stored
    before, archive included, is replaced) and every other session reads
    as before; an update that follows is the same as having saved the
    patched record; and removing a session that was not there before the
    save gives back the store as it was. *)
Theorem saveSession_round_trip s d w :
  let w1 := snd (saveSession s d w) in
  getSession s w1 = (Ret (Some d), w1) /\
  (forall k, k <> s -> getSession k w1 = (Ret (JsMap.get k (sessions w)), w1)) /\
  (forall p, updateSession s p w1 = saveSession s (applyPatch d p) w) /\
  (JsMap.get s (sessions w) = None -> removeSession s w1 = (Ret tt, w)).
Proof.
  cbv zeta. unfold saveSession, getSession, removeSession, modify, gets.
  simpl. repeat split.
  - now rewrite get_set_same.
  - intros k Hk. now rewrite get_set_other.
  - intros p. rewrite updateSession_run. simpl.
    rewrite get_set_same, set_set. reflexivity.
  - intros H. rewrite delete_set_same, delete_absent by exact H.
    now destruct w.
Qed.

Lemma saveSession_round_trip_witness :
  removeSession "s2" (snd (saveSession "s2" (sampleSession "s2") uploadedWorld))
  = (Ret tt, uploadedWorld).
Proof.
  exact (proj2 (proj2 (proj2
           (saveSession_round_trip "s2" (sampleSession "s2") uploadedWorld)))
           eq_refl).
Defined.

(** ** Steps that leave the files and the sessions alone *)

Section Quieted.
Variable env : Env.
Variable R : World -> World -> Prop.
Hypothesis Qrefl : forall w, R w w.
Hypothesis Qtrans : forall a b c, R a b -> R b c -> R a c.
Hypothesis Qtrace : forall w e, R w (with_trace (trace w ++ [e])%list w).
Hypothesis Qnow : forall w t, now w <= t -> R w (with_now t w).
Hypothesis Qsusp : forall w n, R w (with_suspensions n w).
Hypothesis Qcount : forall w a s j, R w (with_counters a s j w).
Hypothesis Qtoken : forall w tok,
  R w (with_token tok (Some (now w + TOKEN_WINDOW)) (Some (now w)) w).

Ltac quiet_leaf :=
  first
    [ apply respects_modify; intros ?;
      first [ apply Qtrace | apply Qsusp | apply Qcount | apply Qtoken
            | apply Qnow; lia
            | apply Qrefl ]
    | solve [auto] ].

Ltac quiet := repeat (first [respects_step Qrefl Qtrans | quiet_leaf]).

Lemma quiet_emit e : respects R (emit e).
Proof. unfold emit. quiet. Qed.

Lemma quiet_suspend : respects R (suspend env).
Proof.
  intros w. unfold suspend, modify. simpl.
  apply Qtrans with (b := with_now (now w + Z.of_nat (elapsed env (suspensions w))) w).
  - apply Qnow. lia.
  - apply Qsusp.
Qed.

Lemma quiet_sleep : respects R (sleep env 5000).
Proof.
  unfold sleep. pose proof quiet_suspend. pose proof (quiet_emit (Slept 5000)).
  quiet.
Qed.

Lemma quiet_request {A} c (answer : World -> Reply A) count :
  (forall w, R w (count w)) ->
  respects R (request env c answer count).
Proof.
  intros Hc. unfold request.
  pose proof quiet_suspend. pose proof (quiet_emit (Issued c)).
  pose proof (quiet_emit (Returned c)).
  pose proof (respects_modify R count Hc).
  quiet.
Qed.

Lemma quiet_logError c e : respects R (logError c e).
Proof. apply quiet_emit. Qed.

Lemma quiet_refresh : respects R (refreshIrcamToken env).
Proof.
  unfold refreshIrcamToken.
  pose proof (fun c e => quiet_logError c e).
  assert (respects R (request env PostAuth
            (fun w => authReply env (authPosts w))
            (fun w => with_counters (S (authPosts w)) (submitPosts w) (jobGets w) w)))
    by (apply quiet_request; intros w; apply Qcount).
  quiet.
Qed.

Lemma quiet_getIrcamToken : respects R getIrcamToken.
Proof. unfold getIrcamToken. quiet. Qed.

Lemma quiet_ensureValid : respects R (ensureValidToken env).
Proof.
  unfold ensureValidToken.
  pose proof quiet_refresh. pose proof quiet_getIrcamToken. quiet.
Qed.

Lemma quiet_headers : respects R getIrcamHeaders.
Proof. unfold getIrcamHeaders. pose proof quiet_getIrcamToken. quiet. Qed.

Lemma quiet_fsCall op path : respects R (fsCall env op path).
Proof. unfold fsCall. pose proof quiet_suspend. quiet. Qed.

Lemma quiet_readdirTemp : respects R (readdirTemp env).
Proof. unfold readdirTemp. pose proof (quiet_fsCall OpReaddir ""). quiet. Qed.

Lemma quiet_readdirSession s : respects R (readdirSession env s).
Proof. unfold readdirSession. pose proof (quiet_fsCall OpReaddir s). quiet. Qed.

Lemma quiet_statMtime s : respects R (statMtime env s).
Proof. unfold statMtime. pose proof (quiet_fsCall OpStat s). quiet. Qed.

Lemma quiet_statSize p : respects R (statSize env p).
Proof. unfold statSize. pose proof (quiet_fsCall OpStat p). quiet. Qed.

Lemma quiet_accessFile p : respects R (accessFile env p).
Proof. unfold accessFile. pose proof (quiet_fsCall OpAccess p). quiet. Qed.

Lemma quiet_getSession s : respects R (getSession s).
Proof. unfold getSession. quiet. Qed.

Lemma quiet_jobGet c jobId :
  respects R (request env c (fun w => jobReply env jobId (jobGets w))
                (fun w => with_counters (authPosts w) (submitPosts w)
                            (S (jobGets w)) w)).
Proof. apply quiet_request. intros w. apply Qcount. Qed.

Lemma quiet_pollLoop jobId fuel : forall st pc,
  respects R (pollLoop env fuel jobId st pc).
Proof.
  pose proof quiet_ensureValid. pose proof quiet_headers.
  pose proof quiet_sleep. pose proof (quiet_jobGet (GetJobStatus jobId) jobId).
  induction fuel as [|fuel IH]; intros st pc; simpl.
  - quiet.
  - destruct (isSentinel st); [quiet|].
    destruct (1 <? S pc)%nat; quiet; apply IH.
Qed.

Lemma quiet_fetchFinalReport jobId : respects R (fetchFinalReport env jobId).
Proof.
  unfold fetchFinalReport.
  pose proof quiet_ensureValid. pose proof quiet_headers.
  pose proof (quiet_jobGet (GetFinalReport jobId) jobId).
  quiet.
Qed.

Lemma quiet_runToCompletion fuel jobId :
  respects R (runToCompletion env fuel jobId).
Proof.
  unfold runToCompletion.
  pose proof (quiet_pollLoop jobId fuel None 0).
  pose proof (quiet_fetchFinalReport jobId).
  quiet.
Qed.

Lemma quiet_latestSessionDir dirs : respects R (latestSessionDir env dirs).
Proof.
  unfold latestSessionDir.
  apply (respects_bind _ Qtrans).
  - apply (respects_mapM _ Qrefl Qtrans). intros s.
    pose proof (quiet_statMtime s). quiet.
  - intros a. quiet.
Qed.

Lemma quiet_checkTokenRoute : respects R (checkTokenRoute env).
Proof.
  unfold checkTokenRoute.
  pose proof quiet_refresh. pose proof quiet_getIrcamToken.
  pose proof (fun c e => quiet_logError c e). quiet.
Qed.

Lemma quiet_currentFileRoute : respects R (currentFileRoute env).
Proof.
  unfold currentFileRoute.
  pose proof quiet_readdirTemp. pose proof (fun d => quiet_latestSessionDir d).
  pose proof (fun s => quiet_readdirSession s).
  pose proof (fun s => quiet_getSession s).
  pose proof (fun c e => quiet_logError c e). quiet.
Qed.

Lemma quiet_downloadFileRoute s type : respects R (downloadFileRoute env s type).
Proof.
  unfold downloadFileRoute.
  pose proof (fun s => quiet_readdirSession s). quiet.
Qed.

Lemma quiet_downloadZipRoute s : respects R (downloadZipRoute env s).
Proof.
  unfold downloadZipRoute.
  pose proof (fun s => quiet_getSession s).
  pose proof (fun p => quiet_accessFile p).
  pose proof (fun c e => quiet_logError c e). quiet.
Qed.

End Quieted.

Lemma filesKept_refl w : filesKept w w.
Proof. now split. Qed.

Lemma filesKept_trans a b c : filesKept a b -> filesKept b c -> filesKept a c.
Proof. intros (F1 & S1) (F2 & S2). split; congruence. Qed.

Lemma onlyRead_refl w : onlyRead w w.
Proof. unfold onlyRead. tauto. Qed.

Lemma onlyRead_trans a b c : onlyRead a b -> onlyRead b c -> onlyRead a c.
Proof. unfold onlyRead. intuition congruence. Qed.

Lemma filesKept_trace w e : filesKept w (with_trace (trace w ++ [e])%list w).
Proof. now split. Qed.

Lemma filesKept_now w t : now w <= t -> filesKept w (with_now t w).
Proof. now split. Qed.

Lemma filesKept_susp w n : filesKept w (with_suspensions n w).
Proof. now split. Qed.

Lemma filesKept_count w a s j : filesKept w (with_counters a s j w).
Proof. now split. Qed.

Lemma filesKept_token w tok :
  filesKept w (with_token tok (Some (now w + TOKEN_WINDOW)) (Some (now w)) w).
Proof. now split. Qed.

Lemma onlyRead_trace w e : onlyRead w (with_trace (trace w ++ [e])%list w).
Proof. unfold onlyRead. simpl. tauto. Qed.

Lemma onlyRead_now w t : now w <= t -> onlyRead w (with_now t w).
Proof. unfold onlyRead. simpl. tauto. Qed.

Lemma onlyRead_susp w n : onlyRead w (with_suspensions n w).
Proof. unfold onlyRead. simpl. tauto. Qed.


Lemma kept_ensureValid env : respects filesKept (ensureValidToken env).
Proof.
  exact (quiet_ensureValid env filesKept filesKept_refl filesKept_trans
           filesKept_trace filesKept_now filesKept_susp filesKept_count
           filesKept_token).
Qed.

Lemma kept_headers : respects filesKept getIrcamHeaders.
Proof. exact (quiet_headers filesKept filesKept_refl filesKept_trans). Qed.

Lemma kept_request env {A} c (answer : World -> Reply A) count :
  (forall w, filesKept w (count w)) ->
  respects filesKept (request env c answer count).
Proof.
  exact (quiet_request env filesKept filesKept_refl filesKept_trans
           filesKept_trace filesKept_now filesKept_susp c answer count).
Qed.

Lemma kept_suspend env : respects filesKept (suspend env).
Proof.
  exact (quiet_suspend env filesKept filesKept_trans filesKept_now
           filesKept_susp).
Qed.

(** ** [downloadFile]: one file, or none *)


(** ** What a request never does to the directories and the store *)

Lemma namesKept_framing : Framing namesKept /\ FramesUpdates namesKept.
Proof.
  split; [constructor|]; unfold namesKept; try (intros; simpl; now split).
  - intros a b c (F1 & S1) (F2 & S2). split; congruence.
  - intros w t s f. simpl. split; [apply names_addFile|reflexivity].
  - intros w s cur p H. simpl. split; [reflexivity|].
    apply set_present_keys. congruence.
Qed.

(** Whatever the provider and the file system answer, a request to
    [/api/spatialize] creates no session directory and removes none, and
    it adds no session to the store and removes none. *)
Theorem spatializeRoute_keeps_names env fuel url intensity w :
  map d_name (tempDir (snd (spatializeRoute env fuel url intensity w)))
  = map d_name (tempDir w) /\
  JsMap.keys (sessions (snd (spatializeRoute env fuel url intensity w)))
  = JsMap.keys (sessions w).
Proof.
  exact (framed_spatializeRoute env namesKept (proj1 namesKept_framing)
           (proj2 namesKept_framing) fuel url intensity w).
Qed.

(** ** The sweeps: what stays *)

Lemma get_delete_some (k k' : string) (m : JsMap.t SessionData) v :
  JsMap.get k (JsMap.delete k' m) = Some v -> JsMap.get k m = Some v.
Proof.
  destruct (String.eqb k k') eqn:E.
  - apply String.eqb_eq in E. subst. now rewrite get_delete_same.
  - apply String.eqb_neq in E. now rewrite get_delete_other.
Qed.

Lemma sweep_only_deletes stop env t k v : forall ds m,
  JsMap.get k (snd (sweepModel stop env t ds m)) = Some v ->
  JsMap.get k m = Some v.
Proof.
  induction ds as [|d ds IH]; intros m; simpl; [auto|].
  destruct (sweepFault env t d).
  - destruct stop; [auto|].
    specialize (IH m). destruct (sweepModel false env t ds m). exact IH.
  - destruct (expired t d).
    + intros H. apply IH in H. now apply get_delete_some in H.
    + specialize (IH m). destruct (sweepModel stop env t ds m). exact IH.
Qed.

(** The sweeps only remove.  After [cleanupTempDirectory] and after
    [cleanupOldFiles], every directory that is left was there before,
    every session that is left was there with the same data, and a session
    without a directory of its name is still there: a sweep evicts no
    session but those whose directory it removes. *)
Theorem sweeps_only_remove env w :
  NoDup (map d_name (tempDir w)) ->
  forall w',
    w' = snd (cleanupTempDirectory env w) \/ w' = snd (cleanupOldFiles env w) ->
    (forall d, In d (tempDir w') -> In d (tempDir w)) /\
    (forall k v, JsMap.get k (sessions w') = Some v ->
                 JsMap.get k (sessions w) = Some v) /\
    (forall k, ~ In k (map d_name (tempDir w)) ->
               JsMap.get k (sessions w') = JsMap.get k (sessions w)).
Proof.
  intros Hnd w' Hw'.
  assert (H : exists stop t,
             (tempDir w', sessions w') = (tempDir w, sessions w) \/
             (tempDir w', sessions w')
             = sweepModel stop env t (tempDir w) (sessions w)).
  { destruct Hw' as [->| ->].
    - destruct (cleanupTempDirectory_run env w Hnd) as (w1 & E & Hres).
      rewrite E. simpl. exists false, (now w).
      destruct (fsFault env OpReaddir ""); auto.
    - destruct (cleanupOldFiles_run env w Hnd) as (w1 & E & Hres).
      rewrite E. simpl.
      exists true, (now w + Z.of_nat (elapsed env (suspensions w))).
      destruct (fsFault env OpReaddir ""); auto. }
  destruct H as (stop & t & [H|H]).
  - injection H as -> ->. repeat split; auto.
  - assert (Hd : tempDir w' = fst (sweepModel stop env t (tempDir w) (sessions w)))
      by (now rewrite <- H).
    assert (Hs : sessions w' = snd (sweepModel stop env t (tempDir w) (sessions w)))
      by (now rewrite <- H).
    rewrite Hd, Hs. repeat split.
    + intros d. apply sweep_sub.
    + intros k v. apply sweep_only_deletes.
    + intros k Hk. apply sweep_keeps_session.
      intros d Hin Hn. exfalso. apply Hk. rewrite <- Hn. now apply in_map.
Qed.

Lemma sweeps_only_remove_witness :
  JsMap.get "ghost"
    (sessions (snd (cleanupOldFiles (stubProvider ["success"] None)
                      orphanWorld)))
  = Some (sampleSession "ghost").
Proof.
  exact (proj2 (proj2 (sweeps_only_remove (stubProvider ["success"] None)
                         orphanWorld agedWorld_names _ (or_intror eq_refl)))
           "ghost"
           ltac:(simpl; intros [H|[H|[]]]; discriminate)).
Defined.

(** ** The sweep of [routes.ts] stops at the first failure *)

Lemma sweepFault_stat env t d e :
  fsFault env OpStat (d_name d) = Some e -> sweepFault env t d = true.
Proof. intros H. unfold sweepFault. now rewrite H. Qed.

Lemma sweep_stops env t d post : forall pre m,
  sweepFault env t d = true ->
  (exists kept,
     fst (sweepModel true env t (pre ++ d :: post) m) = (kept ++ d :: post)%list) /\
  (forall k, ~ In k (map d_name pre) ->
     JsMap.get k (snd (sweepModel true env t (pre ++ d :: post) m))
     = JsMap.get k m).
Proof.
  induction pre as [|x pre IH]; intros m Hd; simpl.
  - rewrite Hd. split; [now exists []|reflexivity].
  - destruct (sweepFault env t x).
    + split; [now exists (x :: pre)|reflexivity].
    + destruct (expired t x).
      * destruct (IH (JsMap.delete (d_name x) m) Hd) as (Hk & Hg).
        split; [exact Hk|].
        intros k Hn. rewrite Hg by tauto. apply get_delete_other.
        intros ->. tauto.
      * destruct (IH m Hd) as ((kept & Hk) & Hg).
        destruct (sweepModel true env t (pre ++ d :: post) m) as [l m'].
        simpl in *. split; [exists (x :: kept); now rewrite Hk|].
        intros k Hn. apply Hg. tauto.
Qed.

Lemma names_disjoint pre rest y :
  NoDup (map d_name (pre ++ rest)) -> In y rest ->
  ~ In (d_name y) (map d_name pre).
Proof.
  induction pre as [|a pre IH]; simpl; intros Hnd Hy; [tauto|].
  inversion Hnd as [|? ? Hna Hnd']; subst.
  intros [H|H].
  - apply Hna. rewrite H. apply in_map. apply in_or_app. now right.
  - exact (IH Hnd' Hy H).
Qed.

(** [cleanupOldFiles] has no [try] around one session: when [fs.stat]
    fails on a directory, the sweep ends there.  That directory and every
    directory listed after it stay, with their sessions, however old they
    are; [cleanupTempDirectory] in the same state goes on and removes the
    expired ones among them. *)
Theorem cleanupOldFiles_stops_at_failure env w pre d post e :
  NoDup (map d_name (tempDir w)) ->
  tempDir w = (pre ++ d :: post)%list ->
  fsFault env OpReaddir "" = None ->
  fsFault env OpStat (d_name d) = Some e ->
  fst (cleanupOldFiles env w) = Ret tt /\
  (forall y, In y (d :: post) ->
     In y (tempDir (snd (cleanupOldFiles env w))) /\
     JsMap.get (d_name y) (sessions (snd (cleanupOldFiles env w)))
     = JsMap.get (d_name y) (sessions w)) /\
  (forall y, In y post ->
     now w - d_mtime y > 15 * 60 * 1000 ->
     fsFault env OpStat (d_name y) = None ->
     fsFault env OpRm (d_name y) = None ->
     findDir (d_name y) (tempDir (snd (cleanupTempDirectory env w))) = None /\
     JsMap.get (d_name y) (sessions (snd (cleanupTempDirectory env w))) = None).
Proof.
  intros Hnd Hdir Hrd Hst.
  destruct (cleanupOldFiles_run env w Hnd) as (w1 & E1 & R1).
  rewrite Hrd in R1. rewrite E1. simpl.
  set (t := now w + Z.of_nat (elapsed env (suspensions w))) in *.
  split; [reflexivity|]. split.
  - intros y Hy.
    assert (D1 : tempDir w1 = fst (sweepModel true env t (tempDir w) (sessions w)))
      by (now rewrite <- R1).
    assert (S1 : sessions w1 = snd (sweepModel true env t (tempDir w) (sessions w)))
      by (now rewrite <- R1).
    destruct (sweep_stops env t d post pre (sessions w)
                (sweepFault_stat env t d e Hst)) as ((kept & Hk) & Hg).
    rewrite D1, S1, Hdir. split.
    + rewrite Hk. apply in_or_app. now right.
    + apply Hg. apply (names_disjoint pre (d :: post) y); [|exact Hy].
      now rewrite <- Hdir.
  - intros y Hy Hage Hs Hr.
    destruct (cleanupTempDirectory_run env w Hnd) as (w2 & E2 & R2).
    rewrite Hrd in R2. rewrite E2. simpl.
    assert (D2 : tempDir w2 = fst (sweepModel false env (now w) (tempDir w) (sessions w)))
      by (now rewrite <- R2).
    assert (S2 : sessions w2 = snd (sweepModel false env (now w) (tempDir w) (sessions w)))
      by (now rewrite <- R2).
    assert (Hin : In y (tempDir w))
      by (rewrite Hdir; apply in_or_app; right; now right).
    destruct (sweep_evicts env (now w) (tempDir w) (sessions w) y Hnd Hin
                (expired_true _ _ Hage) (sweepFault_none env _ y Hs Hr))
      as (N & G).
    rewrite D2, S2. split; [|exact G]. now apply findDir_fresh.
Qed.

Lemma cleanupOldFiles_stops_at_failure_witness :
  (In oldEntry (tempDir (snd (cleanupOldFiles statFailingProvider blockedWorld))) /\
   JsMap.get "old" (sessions (snd (cleanupOldFiles statFailingProvider
                                     blockedWorld)))
   = JsMap.get "old" (sessions blockedWorld)) /\
  (findDir "old" (tempDir (snd (cleanupTempDirectory statFailingProvider
                                  blockedWorld))) = None /\
   JsMap.get "old" (sessions (snd (cleanupTempDirectory statFailingProvider
                                     blockedWorld))) = None).
Proof.
  pose proof (cleanupOldFiles_stops_at_failure statFailingProvider blockedWorld
                [] youngEntry [oldEntry] (FsError "EACCES" "young")
                ltac:(simpl; repeat constructor; simpl; intuition discriminate)
                eq_refl eq_refl eq_refl) as (_ & H1 & H2).
  split.
  - exact (H1 oldEntry (or_intror (or_introl eq_refl))).
  - exact (H2 oldEntry (or_introl eq_refl) ltac:(simpl; lia) eq_refl eq_refl).
Defined.

(** ** Polling has no bound of its own *)

Lemma pollLoop_pending env jobId : forall fuel st pc w,
  authOk env -> 0 <= now w -> isSentinel st = false ->
  (forall k, pendingAt env jobId (jobGets w + k) = true) ->
  exists w',
    pollLoop env fuel jobId st pc w = (Diverge, w') /\
    jobGets w' = (jobGets w + fuel)%nat /\
    filesKept w w' /\ submitPosts w' = submitPosts w.
Proof.
  induction fuel as [|fuel IH]; intros st pc w Hauth Hnow Hst Hpend.
  - exists w. simpl. rewrite Hst.
    repeat split; auto using filesKept_refl; lia.
  - destruct (pendingAt_status env jobId (jobGets w)) as (st' & Hs & Hns).
    { specialize (Hpend 0%nat). now rewrite Nat.add_0_r in Hpend. }
    destruct (pollLoop_step env jobId fuel st pc w st' Hauth Hnow Hst Hs)
      as (w2 & E & (_ & J2 & S2 & D2 & P2 & N2)).
    destruct (IH st' (S pc) w2 Hauth ltac:(lia) Hns) as (w' & E' & J' & K' & P').
    { intros k. rewrite J2.
      replace (S (jobGets w) + k)%nat with (jobGets w + S k)%nat by lia.
      apply Hpend. }
    exists w'. rewrite E, E'. split; [reflexivity|].
    split; [lia|]. split; [|congruence].
    destruct K' as (Kd & Ks). split; congruence.
Qed.

(** The loop of [spatializeAudio] ends on ["success"] and on ["error"]
    only.  While the provider answers the status checks with any other
    status, the loop goes on: for every number of iterations it is allowed,
    it has made that many status checks and has not returned, and no
    request for the report is made. *)
Theorem runToCompletion_never_gives_up env jobId fuel w :
  authOk env -> 0 <= now w ->
  (forall k, pendingAt env jobId (jobGets w + k) = true) ->
  exists w',
    runToCompletion env fuel jobId w = (Diverge, w') /\
    jobGets w' = (jobGets w + fuel)%nat /\
    tempDir w' = tempDir w /\ sessions w' = sessions w.
Proof.
  intros Hauth Hnow Hpend.
  destruct (pollLoop_pending env jobId fuel None 0 w Hauth Hnow eq_refl Hpend)
    as (w' & E & J & (D & S) & _).
  exists w'. unfold runToCompletion, bind. rewrite E. auto.
Qed.

Lemma runToCompletion_never_gives_up_witness :
  exists w',
    runToCompletion (stubProvider ["pending"] None) 7 "job-1" uploadedWorld
    = (Diverge, w') /\
    jobGets w' = (jobGets uploadedWorld + 7)%nat /\
    tempDir w' = tempDir uploadedWorld /\ sessions w' = sessions uploadedWorld.
Proof.
  apply (runToCompletion_never_gives_up (stubProvider ["pending"] None)
           "job-1" 7 uploadedWorld).
  - intros k. reflexivity.
  - simpl. lia.
  - intros k. simpl. destruct k as [|[|k]]; reflexivity.
Defined.

(** ** Reading the temp directory *)

Lemma readdirTemp_run env w :
  readdirTemp env w
  = (match fsFault env OpReaddir "" with
     | Some e => Throw e
     | None => Ret (map d_name (tempDir w))
     end, snd (suspend env w)).
Proof.
  unfold readdirTemp, bind. rewrite fsCall_run.
  destruct (fsFault env OpReaddir ""); reflexivity.
Qed.

Lemma readdirSession_run env s w :
  readdirSession env s w
  = (match fsFault env OpReaddir s with
     | Some e => Throw e
     | None =>
         match findDir s (tempDir w) with
         | Some d => Ret (d_files d)
         | None => Throw (FsError "ENOENT" s)
         end
     end, snd (suspend env w)).
Proof.
  unfold readdirSession, bind. rewrite fsCall_run.
  destruct (fsFault env OpReaddir s); [reflexivity|].
  unfold gets. simpl. destruct (findDir s (tempDir w)); reflexivity.
Qed.

Lemma accessFile_cases env path w :
  accessFile env path w
  = (match fsFault env OpAccess path with
     | Some e => Throw e
     | None =>
         if existsPath path (tempDir w) then Ret tt
         else Throw (FsError "ENOENT" path)
     end, snd (suspend env w)).
Proof.
  unfold accessFile, bind. rewrite fsCall_run.
  destruct (fsFault env OpAccess path); [reflexivity|].
  unfold gets. simpl. destruct (existsPath path (tempDir w)); reflexivity.
Qed.

Lemma onlyRead_suspend env w : onlyRead w (snd (suspend env w)).
Proof. unfold onlyRead. simpl. tauto. Qed.

Lemma find_some_in {A} (p : A -> bool) l x :
  find p l = Some x -> In x l /\ p x = true.
Proof. apply find_some. Qed.


(** ** The download routes *)

Lemma downloadFileRoute_run env sid type w :
  downloadFileRoute env sid type w
  = if negb (String.eqb type "binaural") && negb (String.eqb type "immersive")
    then (Ret {| status := 400; body := Message "Invalid file type requested" |},
          w)
    else
      (Ret match fsFault env OpReaddir sid, findDir sid (tempDir w) with
           | None, Some d =>
               match find (String.prefix (type ++ "_")) (d_files d) with
               | Some f => {| status := 200; body := Download (filePath sid f) |}
               | None => {| status := 404;
                            body := Message (type ++ " file not found") |}
               end
           | _, _ => {| status := 404; body := Message "Session not found" |}
           end,
       snd (suspend env w)).
Proof.
  unfold downloadFileRoute.
  destruct (negb (String.eqb type "binaural")
            && negb (String.eqb type "immersive")); [reflexivity|].
  unfold try_catch, bind. rewrite readdirSession_run.
  destruct (fsFault env OpReaddir sid) as [e|]; [reflexivity|].
  destruct (findDir sid (tempDir w)) as [d|]; [|reflexivity].
  destruct (find (String.prefix (type ++ "_")) (d_files d)); reflexivity.
Qed.


Lemma downloadZipRoute_run env sid w :
  downloadZipRoute env sid w
  = let notFound := {| status := 404; body := Message "ZIP file not found" |} in
    match JsMap.get sid (sessions w) with
    | Some data =>
        match zipPath data with
        | Some p =>
            if truthy_str (Some p) then
              match fsFault env OpAccess p with
              | None =>
                  if existsPath p (tempDir w)
                  then (Ret {| status := 200; body := Download p |},
                        snd (suspend env w))
                  else (Ret notFound,
                        snd (logError "ZIP file not found" (FsError "ENOENT" p)
                               (snd (suspend env w))))
              | Some e =>
                  (Ret notFound,
                   snd (logError "ZIP file not found" e (snd (suspend env w))))
              end
            else (Ret notFound, w)
        | None => (Ret notFound, w)
        end
    | None => (Ret notFound, w)
    end.
Proof.
  cbv zeta. unfold downloadZipRoute. unfold bind at 1. unfold getSession, gets.
  destruct (JsMap.get sid (sessions w)) as [data|]; [|reflexivity].
  destruct (zipPath data) as [p|]; [|reflexivity].
  destruct (truthy_str (Some p)); [|reflexivity].
  change (negb true) with false. cbv iota.
  unfold try_catch, bind. rewrite accessFile_cases.
  destruct (fsFault env OpAccess p); [reflexivity|].
  destruct (existsPath p (tempDir w)); reflexivity.
Qed.

(** [/api/download-zip/:sessionId] changes nothing but the log and always
    answers.  Status 200 comes with the archive path that the store has for
    the session, and the file is there; in every other case (no session,
    no archive recorded, file gone or not accessible) the answer is 404. *)
Theorem downloadZipRoute_cases env sid w :
  let r := downloadZipRoute env sid w in
  onlyRead w (snd r) /\
  exists resp,
    fst r = Ret resp /\
    match JsMap.get sid (sessions w) with
    | Some data =>
        match zipPath data with
        | Some p =>
            if truthy_str (Some p) then
              match fsFault env OpAccess p with
              | None =>
                  if existsPath p (tempDir w)
                  then resp = {| status := 200; body := Download p |}
                  else resp = {| status := 404;
                                 body := Message "ZIP file not found" |}
              | Some _ =>
                  resp = {| status := 404; body := Message "ZIP file not found" |}
              end
            else resp = {| status := 404; body := Message "ZIP file not found" |}
        | None => resp = {| status := 404; body := Message "ZIP file not found" |}
        end
    | None => resp = {| status := 404; body := Message "ZIP file not found" |}
    end.
Proof.
  cbv zeta. rewrite downloadZipRoute_run. cbv zeta.
  destruct (JsMap.get sid (sessions w)) as [data|];
    [|split; [apply onlyRead_refl|eexists; split; reflexivity]].
  destruct (zipPath data) as [p|];
    [|split; [apply onlyRead_refl|eexists; split; reflexivity]].
  destruct (truthy_str (Some p));
    [|split; [apply onlyRead_refl|eexists; split; reflexivity]].
  destruct (fsFault env OpAccess p) as [e|].
  - split; [|eexists; split; reflexivity].
    unfold onlyRead. simpl. tauto.
  - destruct (existsPath p (tempDir w)).
    + split; [apply onlyRead_suspend|eexists; split; reflexivity].
    + split; [|eexists; split; reflexivity].
      unfold onlyRead. simpl. tauto.
Qed.

(** ** What a request that goes well leaves in the directory *)

Lemma files_addFile t s f d :
  d_name d = s -> d_files (addFile t s f d) = addName f (d_files d).
Proof.
  intros H. unfold addFile, addName. rewrite H, String.eqb_refl.
  destruct (existsb (String.eqb f) (d_files d)); reflexivity.
Qed.

Lemma find_addName (p : string -> bool) f files :
  find p (addName f files)
  = match find p files with
    | Some x => Some x
    | None => if p f then Some f else None
    end.
Proof.
  unfold addName. destruct (existsb (String.eqb f) files) eqn:E.
  - destruct (find p files) eqn:F; [reflexivity|].
    apply existsb_exists in E. destruct E as (x & Hx & Ex).
    apply String.eqb_eq in Ex. subst x.
    now rewrite (find_none _ _ F f Hx).
  - induction files as [|x files IH]; simpl.
    + destruct (p f); reflexivity.
    + destruct (p x); [reflexivity|]. apply IH.
      simpl in E. apply orb_false_iff in E. tauto.
Qed.

Lemma findDir_added t s f ds d :
  findDir s ds = Some d ->
  exists d', findDir s (map (addFile t s f) ds) = Some d' /\
             d_files d' = addName f (d_files d).
Proof.
  intros H. rewrite findDir_addFile, H. simpl. eexists. split; [reflexivity|].
  apply files_addFile. now apply findDir_In in H.
Qed.

Lemma findDir_artifact t s name ds d :
  findDir s ds = Some d ->
  exists d', findDir s (withArtifact t s name ds) = Some d' /\
             d_files d' = addNameOpt name (d_files d).
Proof.
  intros H. destruct name as [f|]; simpl; [now apply findDir_added|eauto].
Qed.

(** The directory of the session after a request that went well: the
    artifacts that the report offers, then the archive when it offers
    both. *)
Lemma route_directory env fuel url intensity w latest original jobId n rep :
  requestGoesWell env fuel url w latest original jobId n rep ->
  exists d d' t,
    findDir latest (tempDir w) = Some d /\
    findDir latest
      (tempDir (snd (spatializeRoute env fuel (Some url) intensity w)))
    = Some d' /\
    d_files d'
    = (match artifactFile env binaural (binauralFile rep),
             artifactFile env immersive (immersiveFile rep) with
       | Some _, Some _ => addName (zipFileName env original t)
       | _, _ => fun files => files
       end)
        (addNameOpt (artifactFile env immersive (immersiveFile rep))
           (addNameOpt (artifactFile env binaural (binauralFile rep))
              (d_files d))).
Proof.
  intros Hgo.
  destruct (route_to_archive env fuel url intensity w latest original jobId
              n rep Hgo) as (w2 & t1 & t2 & E & D2 & S2 & _ & _).
  pose proof Hgo as (_ & _ & _ & Hfs & _ & _ & (d & Hdir & _) & _).
  destruct (findDir_artifact t1 latest
              (artifactFile env binaural (binauralFile rep)) _ d Hdir)
    as (d1 & Hd1 & F1).
  destruct (findDir_artifact t2 latest
              (artifactFile env immersive (immersiveFile rep)) _ d1 Hd1)
    as (d2 & Hd2 & F2).
  rewrite <- D2 in Hd2.
  destruct (artifactFile env binaural (binauralFile rep)) as [nb|] eqn:Fb.
  - destruct (artifactFile env immersive (immersiveFile rep)) as [ni|] eqn:Fi.
    + assert (Hb : dl_binaural (r_downloads (resultFor env jobId latest rep))
                   = Some (filePath latest nb))
        by (simpl; unfold artifactPath; now rewrite Fb).
      assert (Hi : dl_immersive (r_downloads (resultFor env jobId latest rep))
                   = Some (filePath latest ni))
        by (simpl; unfold artifactPath; now rewrite Fi).
      simpl in D2, Hd1.
      assert (Eb : existsPath (filePath latest nb) (tempDir w2) = true).
      { rewrite D2. apply existsPath_addFile_mono.
        exact (existsPath_addFile_new t1 latest nb (tempDir w) d Hdir). }
      assert (Ei : existsPath (filePath latest ni) (tempDir w2) = true).
      { rewrite D2. exact (existsPath_addFile_new t2 latest ni _ d1 Hd1). }
      destruct (archiveStep_run env latest original
                  (resultFor env jobId latest rep) w2
                  (filePath latest nb) (filePath latest ni) d2 Hfs
                  Hb Hi (filePath_truthy latest nb) (filePath_truthy latest ni)
                  Eb Ei Hd2)
        as (w3 & t & Hrun & D3).
      destruct (findDir_added t latest (zipFileName env original t) _ d2 Hd2)
        as (d3 & Hd3 & F3).
      rewrite <- D3 in Hd3.
      assert (Hw : snd (spatializeRoute env fuel (Some url) intensity w) = w3).
      { rewrite E. cbv zeta in Hrun.
        destruct (fsFault env OpZip _); destruct Hrun as (R3 & _);
          now rewrite (try_bind_ret _ _ _ _ _ _ R3). }
      exists d, d3, t. rewrite Hw. split; [exact Hdir|]. split; [exact Hd3|].
      rewrite F3, F2, F1. reflexivity.
    + exists d, d2, 0. split; [exact Hdir|].
      rewrite E, (try_bind_ret _ _ _ _ _ _
                    (archiveStep_skip env latest original
                       (resultFor env jobId latest rep) w2
                       ltac:(right; simpl; unfold artifactPath; now rewrite Fi))).
      split; [exact Hd2|]. rewrite F2, F1. reflexivity.
  - exists d, d2, 0. split; [exact Hdir|].
    rewrite E, (try_bind_ret _ _ _ _ _ _
                  (archiveStep_skip env latest original
                     (resultFor env jobId latest rep) w2
                     ltac:(left; simpl; unfold artifactPath; now rewrite Fb))).
    split; [exact Hd2|]. rewrite F2, F1.
    destruct (artifactFile env immersive (immersiveFile rep)); reflexivity.
Qed.

(** ** From a processed session to its downloads *)

Lemma prefix_app s t : String.prefix s (s ++ t) = true.
Proof.
  induction s as [|a s IH]; simpl; [now destruct t|].
  destruct (ascii_dec a a); [exact IH|congruence].
Qed.

Lemma prefix_first a b s t :
  a <> b -> String.prefix (String a s) (String b t) = false.
Proof. intros H. simpl. destruct (ascii_dec a b); [contradiction|reflexivity]. Qed.

Lemma artifactFile_prefix env type f name :
  artifactFile env type f = Some name ->
  String.prefix (typeName type ++ "_") name = true /\
  forall type', type' <> type ->
    String.prefix (typeName type' ++ "_") name = false.
Proof.
  unfold artifactFile. destruct (wanted f); [|discriminate].
  destruct (originalOf env s) as [original|]; [|discriminate].
  intros H. injection H as <-. split.
  - destruct type.
    + exact (prefix_app "binaural_" _).
    + exact (prefix_app "immersive_" _).
  - intros type' Hne. destruct type, type'; try congruence;
      apply prefix_first; discriminate.
Qed.

Lemma find_addName_some (p : string -> bool) f files x :
  find p files = Some x -> find p (addName f files) = Some x.
Proof. intros H. now rewrite find_addName, H. Qed.

Lemma find_addNameOpt_some (p : string -> bool) f files x :
  find p files = Some x -> find p (addNameOpt f files) = Some x.
Proof. destruct f; simpl; [apply find_addName_some|auto]. Qed.

Lemma typeName_valid type :
  negb (String.eqb (typeName type) "binaural")
  && negb (String.eqb (typeName type) "immersive") = false.
Proof. destruct type; reflexivity. Qed.

(** After a request to [/api/spatialize] that went well, the download
    route of the session serves each artifact that the request produced, at
    the path that the response gave for it, provided the directory held no
    other file with the prefix of that type before. *)
Theorem download_after_spatialize env fuel url intensity w latest original
    jobId n rep type p :
  requestGoesWell env fuel url w latest original jobId n rep ->
  artifactPath env latest type (reportFile type rep) = Some p ->
  (forall d f, findDir latest (tempDir w) = Some d -> In f (d_files d) ->
     String.prefix (typeName type ++ "_") f = true -> filePath latest f = p) ->
  fst (downloadFileRoute env latest (typeName type)
         (snd (spatializeRoute env fuel (Some url) intensity w)))
  = Ret {| status := 200; body := Download p |}.
Proof.
  intros Hgo Hp Hold.
  destruct (route_directory env fuel url intensity w latest original jobId n
              rep Hgo) as (d & d' & t & Hd & Hd' & Hfiles).
  pose proof Hgo as (_ & _ & _ & Hfs & _).
  set (w' := snd (spatializeRoute env fuel (Some url) intensity w)) in *.
  rewrite downloadFileRoute_run, typeName_valid. unfold fst.
  rewrite (fsReliable_op env OpReaddir latest Hfs) by discriminate.
  rewrite Hd'.
  destruct (artifactPath_file _ _ _ _ _ Hp) as (name & Hname & ->).
  destruct (artifactFile_prefix env type _ name Hname) as (Hpre & Hother).
  set (P := String.prefix (typeName type ++ "_")) in *.
  assert (Hfind : exists f, find P (d_files d') = Some f /\
                            filePath latest f = filePath latest name).
  { rewrite Hfiles.
    assert (H2 : exists f,
               find P (addNameOpt (artifactFile env immersive (immersiveFile rep))
                         (addNameOpt (artifactFile env binaural (binauralFile rep))
                            (d_files d))) = Some f /\
               filePath latest f = filePath latest name).
    { destruct (find P (d_files d)) as [x|] eqn:F0.
      - exists x. split.
        + apply find_addNameOpt_some. now apply find_addNameOpt_some.
        + apply find_some in F0. destruct F0 as (Hin & Hx).
          exact (Hold d x Hd Hin Hx).
      - exists name. split; [|reflexivity].
        destruct type; simpl in Hname.
        + rewrite Hname. simpl addNameOpt at 2.
          apply find_addNameOpt_some. rewrite find_addName, F0.
          now rewrite Hpre.
        + rewrite Hname. simpl addNameOpt at 1.
          rewrite find_addName.
          destruct (artifactFile env binaural (binauralFile rep)) as [nb|] eqn:Fb;
            simpl addNameOpt.
          * rewrite find_addName, F0.
            destruct (artifactFile_prefix env binaural _ nb Fb) as (_ & Hnb).
            unfold P at 1.
            rewrite (Hnb immersive ltac:(discriminate)).
            now rewrite Hpre.
          * rewrite F0. now rewrite Hpre. }
    destruct H2 as (f & Hf & Hpath). exists f. split; [|exact Hpath].
    destruct (artifactFile env binaural (binauralFile rep));
      destruct (artifactFile env immersive (immersiveFile rep));
      try exact Hf.
    now apply find_addName_some. }
  destruct Hfind as (f & -> & ->). reflexivity.
Qed.

Lemma download_after_spatialize_witness :
  fst (downloadFileRoute (stubProvider ["success"] (Some bothArtifacts)) "s1"
         "immersive"
         (snd (spatializeRoute (stubProvider ["success"] (Some bothArtifacts)) 5
                 (Some "ias://s1") "3" uploadedWorld)))
  = Ret {| status := 200; body := Download "s1/immersive_imm-8.bin.wav" |}.
Proof.
  apply (download_after_spatialize (stubProvider ["success"] (Some bothArtifacts))
           5 "ias://s1" "3" uploadedWorld "s1" "original_song.wav" "job-1" 0
           bothArtifacts immersive "s1/immersive_imm-8.bin.wav"
           (stub_goes_well bothArtifacts) eq_refl).
  intros d f Hd Hin Hp. simpl in Hd. injection Hd as <-.
  destruct Hin as [<-|[]]. discriminate.
Defined.

(** After a request that went well with both artifacts and an archive
    that could be written, the archive is on the disk; the archive route
    serves it when the store has a session under the name of the directory,
    and answers 404 when it has none, since nothing was recorded. *)
Theorem downloadZip_after_spatialize env fuel url intensity w latest original
    jobId n rep b i :
  requestGoesWell env fuel url w latest original jobId n rep ->
  artifactPath env latest binaural (binauralFile rep) = Some b ->
  artifactPath env latest immersive (immersiveFile rep) = Some i ->
  (forall p, fsFault env OpZip p = None) ->
  exists t,
    let w' := snd (spatializeRoute env fuel (Some url) intensity w) in
    let zip := filePath latest (zipFileName env original t) in
    existsPath zip (tempDir w') = true /\
    fst (downloadZipRoute env latest w')
    = Ret (if JsMap.has latest (sessions w)
           then {| status := 200; body := Download zip |}
           else {| status := 404; body := Message "ZIP file not found" |}).
Proof.
  intros Hgo Hb Hi Hzip.
  destruct (route_archives env fuel url intensity w latest original jobId n
              rep b i Hgo Hb Hi) as (w' & t & Hrun & _ & _).
  pose proof Hgo as (_ & _ & _ & Hfs & _).
  exists t. cbv zeta in *.
  rewrite Hzip in Hrun. destruct Hrun as (E & S & X).
  rewrite E. unfold snd. split; [exact X|].
  rewrite downloadZipRoute_run. cbv zeta. rewrite S.
  rewrite opSessions_update_get. unfold JsMap.has.
  destruct (JsMap.get latest (sessions w)) as [cur|]; [|reflexivity].
  simpl option_map. cbv iota. simpl zipPath. cbv iota.
  rewrite filePath_truthy.
  rewrite (fsReliable_op env OpAccess _ Hfs) by discriminate.
  now rewrite X.
Qed.

Lemma downloadZip_after_spatialize_witness :
  exists t,
    existsPath
      (filePath "s1"
         (zipFileName (stubProvider ["success"] (Some bothArtifacts))
            "original_song.wav" t))
      (tempDir (snd (spatializeRoute
                       (stubProvider ["success"] (Some bothArtifacts)) 5
                       (Some "ias://s1") "3" uploadedWorld))) = true /\
    fst (downloadZipRoute (stubProvider ["success"] (Some bothArtifacts)) "s1"
           (snd (spatializeRoute
                   (stubProvider ["success"] (Some bothArtifacts)) 5
                   (Some "ias://s1") "3" uploadedWorld)))
    = Ret (if JsMap.has "s1" (sessions uploadedWorld)
           then {| status := 200;
                   body := Download
                     (filePath "s1"
                        (zipFileName
                           (stubProvider ["success"] (Some bothArtifacts))
                           "original_song.wav" t)) |}
           else {| status := 404; body := Message "ZIP file not found" |}).
Proof.
  exact (downloadZip_after_spatialize
           (stubProvider ["success"] (Some bothArtifacts)) 5 "ias://s1" "3"
           uploadedWorld "s1" "original_song.wav" "job-1" 0 bothArtifacts
           "s1/binaural_bin-7.bin.mp3" "s1/immersive_imm-8.bin.wav"
           (stub_goes_well bothArtifacts) eq_refl eq_refl
           (fun p => eq_refl)).
Defined.

(** ** After a sweep *)

(** Once a sweep has removed the directory of a session and its entry in
    the store, neither download route serves anything for it. *)
Theorem downloads_after_eviction env w d type :
  NoDup (map d_name (tempDir w)) ->
  In d (tempDir w) ->
  now w - d_mtime d > 15 * 60 * 1000 ->
  fsFault env OpReaddir "" = None ->
  fsFault env OpStat (d_name d) = None ->
  fsFault env OpRm (d_name d) = None ->
  let w' := snd (cleanupTempDirectory env w) in
  fst (downloadFileRoute env (d_name d) (typeName type) w')
  = Ret {| status := 404; body := Message "Session not found" |} /\
  fst (downloadZipRoute env (d_name d) w')
  = Ret {| status := 404; body := Message "ZIP file not found" |}.
Proof.
  intros Hnd Hin Hage Hrd Hs Hr. cbv zeta.
  destruct (cleanupTempDirectory_run env w Hnd) as (w1 & E & R1).
  rewrite Hrd in R1. rewrite E. unfold snd.
  assert (D1 : tempDir w1 = fst (sweepModel false env (now w) (tempDir w) (sessions w)))
    by (now rewrite <- R1).
  assert (S1 : sessions w1 = snd (sweepModel false env (now w) (tempDir w) (sessions w)))
    by (now rewrite <- R1).
  destruct (sweep_evicts env (now w) (tempDir w) (sessions w) d Hnd Hin
              (expired_true _ _ Hage) (sweepFault_none env _ d Hs Hr))
    as (N & G).
  split.
  - rewrite downloadFileRoute_run, typeName_valid. unfold fst.
    rewrite D1, (findDir_fresh _ _ N).
    destruct (fsFault env OpReaddir (d_name d)); reflexivity.
  - rewrite downloadZipRoute_run. cbv zeta. now rewrite S1, G.
Qed.

Lemma downloads_after_eviction_witness :
  fst (downloadFileRoute (stubProvider ["success"] None) "old" "binaural"
         (snd (cleanupTempDirectory (stubProvider ["success"] None) agedWorld)))
  = Ret {| status := 404; body := Message "Session not found" |} /\
  fst (downloadZipRoute (stubProvider ["success"] None) "old"
         (snd (cleanupTempDirectory (stubProvider ["success"] None) agedWorld)))
  = Ret {| status := 404; body := Message "ZIP file not found" |}.
Proof.
  exact (downloads_after_eviction (stubProvider ["success"] None)
           agedWorld oldEntry binaural
           agedWorld_names (or_introl eq_refl) ltac:(simpl; lia)
           eq_refl eq_refl eq_refl).
Defined.

(** ** [/api/check-token] *)

Lemma getIrcamToken_falsy w :
  truthy_str (ircamToken w) = false -> getIrcamToken w = (Ret None, w).
Proof. intros H. unfold getIrcamToken, gets. now rewrite H. Qed.

(** [/api/check-token] always answers and touches neither files nor
    sessions.  With a token in the cache that has not expired it answers
    ok and does nothing.  Otherwise it asks the provider once: whenever the
    reply has a body the answer is ok, also when that body has no
    [id_token] and the cache still holds no token that [getIrcamToken]
    would return; when the request fails the answer is 500 and the cache is
    as before. *)
Theorem checkTokenRoute_cases env w :
  let r := checkTokenRoute env w in
  filesKept w (snd r) /\
  match fst (getIrcamToken w) with
  | Ret (Some tok) =>
      r = (Ret {| api_status := 200; api_body := StatusOk |}, w)
  | _ =>
      authPosts (snd r) = S (authPosts w) /\
      match authReply env (authPosts w) with
      | Resolved (Some d) =>
          fst r = Ret {| api_status := 200; api_body := StatusOk |} /\
          ircamToken (snd r) = id_token d /\
          (truthy_str (id_token d) = false ->
           getIrcamToken (snd r) = (Ret None, snd r))
      | _ =>
          fst r = Ret {| api_status := 500;
                         api_body := ApiMessage "Failed to verify IRCAM token" |} /\
          ircamToken (snd r) = ircamToken w /\
          tokenExpiry (snd r) = tokenExpiry w
      end
  end.
Proof.
  cbv zeta. split.
  - exact (quiet_checkTokenRoute env filesKept filesKept_refl filesKept_trans
             filesKept_trace filesKept_now filesKept_susp filesKept_count
             filesKept_token w).
  - destruct (getIrcamToken_run w) as (r0 & E0 & H0).
    rewrite E0. unfold fst at 1.
    assert (E : checkTokenRoute env w
                = try_catch
                    ((if negb (truthy_str r0)
                      then refreshIrcamToken env ;; ret tt else ret tt) ;;
                     ret {| api_status := 200; api_body := StatusOk |})
                    (fun error =>
                       logError "Token verification failed" error ;;
                       ret {| api_status := 500;
                              api_body :=
                                ApiMessage "Failed to verify IRCAM token" |}) w).
    { unfold checkTokenRoute, try_catch. now rewrite (bind_run_ret _ _ _ _ _ E0). }
    rewrite E.
    assert (Hcase : r0 = None \/ exists tok, r0 = Some tok) by
      (destruct r0; eauto).
    destruct Hcase as [->|(tok & ->)].
    + change (negb (truthy_str None)) with true. cbv iota.
      unfold try_catch, bind. rewrite refreshIrcamToken_run.
      destruct (authReply env (authPosts w)) as [[d|]|e]; unfold fst, snd.
      * split; [reflexivity|]. split; [reflexivity|]. split; [reflexivity|].
        intros Hf. now apply getIrcamToken_falsy.
      * split; [reflexivity|]. split; [reflexivity|]. split; reflexivity.
      * split; [reflexivity|]. split; [reflexivity|]. split; reflexivity.
    + destruct (H0 tok eq_refl) as (_ & Ht & _). rewrite Ht. reflexivity.
Qed.

(** ** [/api/current-file] *)

Lemma onlyRead_logError c e w : onlyRead w (snd (logError c e w)).
Proof. unfold onlyRead. simpl. tauto. Qed.

Lemma stats_total env : forall dirs w,
  exists o w',
    mapM (fun session =>
            timestamp <- statMtime env session ;; ret (session, timestamp))
      dirs w = (o, w') /\
    o <> Diverge /\ onlyRead w w' /\ trace w' = trace w.
Proof.
  induction dirs as [|s dirs IH]; intros w; simpl.
  - exists (Ret []), w.
    split; [reflexivity|]. split; [discriminate|].
    split; [apply onlyRead_refl|reflexivity].
  - unfold bind at 1. unfold bind at 1. rewrite statMtime_run.
    destruct (IH (snd (suspend env w))) as (o & w' & E & Hn & Hr & Ht).
    assert (Hr' : onlyRead w w')
      by exact (onlyRead_trans _ _ _ (onlyRead_suspend env w) Hr).
    destruct (fsFault env OpStat s) as [e|].
    + exists (Throw e), (snd (suspend env w)).
      split; [reflexivity|]. split; [discriminate|].
      split; [apply onlyRead_suspend|reflexivity].
    + destruct (findDir s (tempDir w)) as [d|].
      * unfold ret at 1. unfold bind at 1. rewrite E.
        destruct o as [l|e|]; [| |congruence].
        -- exists (Ret ((s, d_mtime d) :: l)), w'.
           split; [reflexivity|]. split; [discriminate|].
           split; [exact Hr'|exact Ht].
        -- exists (Throw e), w'.
           split; [reflexivity|]. split; [discriminate|].
           split; [exact Hr'|exact Ht].
      * exists (Throw (FsError "ENOENT" s)), (snd (suspend env w)).
        split; [reflexivity|]. split; [discriminate|].
        split; [apply onlyRead_suspend|reflexivity].
Qed.

Lemma latestSessionDir_total env dirs w :
  exists o w',
    latestSessionDir env dirs w = (o, w') /\
    o <> Diverge /\ onlyRead w w' /\ trace w' = trace w.
Proof.
  destruct (stats_total env dirs w) as (o & w' & E & Hn & Hr & Ht).
  unfold latestSessionDir. unfold bind at 1. rewrite E.
  destruct o as [l|e|]; [| |congruence].
  - eexists _, w'. split; [reflexivity|]. split; [discriminate|].
    split; [exact Hr|exact Ht].
  - eexists _, w'. split; [reflexivity|]. split; [discriminate|].
    split; [exact Hr|exact Ht].
Qed.

(** [/api/current-file] always answers, with status 200 and a file (or
    none), or with status 500; it reads the disk and the store and changes
    neither, and it never asks the provider. *)
Theorem currentFileRoute_total env w :
  let r := currentFileRoute env w in
  onlyRead w (snd r) /\
  exists resp,
    fst r = Ret resp /\
    ((exists audioUrl ircam,
        resp = {| api_status := 200;
                  api_body := CurrentFile audioUrl ircam |}) \/
     resp = {| api_status := 500;
               api_body := ApiMessage "Failed to get current file" |}).
Proof.
  cbv zeta.
  set (P := fun (r : Outcome ApiResponse * World) (v : World) =>
    onlyRead v (snd r) /\
    exists resp,
      fst r = Ret resp /\
      ((exists audioUrl ircam,
          resp = {| api_status := 200;
                    api_body := CurrentFile audioUrl ircam |}) \/
       resp = {| api_status := 500;
                 api_body := ApiMessage "Failed to get current file" |})).
  change (P (currentFileRoute env w) w).
  assert (Hfail : forall e v, onlyRead w v ->
            P ((logError "Failed to get current file" e ;;
                ret {| api_status := 500;
                       api_body := ApiMessage "Failed to get current file" |}) v) w).
  { intros e v Hv. split.
    - exact (onlyRead_trans _ _ _ Hv (onlyRead_logError _ e v)).
    - eexists. split; [reflexivity|]. now right. }
  assert (Hok : forall a i v, onlyRead w v ->
            P (Ret {| api_status := 200; api_body := CurrentFile a i |}, v) w).
  { intros a i v Hv. split; [exact Hv|].
    eexists. split; [reflexivity|]. left. eauto. }
  unfold currentFileRoute, try_catch. unfold bind at 1.
  rewrite readdirTemp_run.
  pose proof (onlyRead_suspend env w) as H1.
  destruct (fsFault env OpReaddir "") as [e|]; [now apply Hfail|].
  destruct (0 <? List.length (map d_name (tempDir w)))%nat; [|now apply Hok].
  unfold bind at 1.
  destruct (latestSessionDir_total env (map d_name (tempDir w))
              (snd (suspend env w))) as (o & w2 & E2 & Hn2 & Hr2 & _).
  rewrite E2.
  assert (H2 : onlyRead w w2) by exact (onlyRead_trans _ _ _ H1 Hr2).
  destruct o as [[latest|]|e|]; [| | |congruence];
    try (now apply Hfail).
  unfold bind at 1. rewrite readdirSession_run.
  assert (H3 : onlyRead w (snd (suspend env w2)))
    by exact (onlyRead_trans _ _ _ H2 (onlyRead_suspend env w2)).
  destruct (fsFault env OpReaddir latest) as [e|]; [now apply Hfail|].
  destruct (findDir latest (tempDir w2)) as [d|]; [|now apply Hfail].
  destruct (find (String.prefix "original_") (d_files d)) as [o|];
    [|now apply Hok].
  unfold bind, getSession, gets, ret. now apply Hok.
Qed.

Lemma currentFile_latest env w latest d :
  fsReliable env ->
  NoDup (map d_name (tempDir w)) ->
  latestOf (tempDir w) = Some latest ->
  findDir latest (tempDir w) = Some d ->
  fst (currentFileRoute env w)
  = Ret {| api_status := 200;
           api_body :=
             match find (String.prefix "original_") (d_files d) with
             | Some original =>
                 CurrentFile (Some ("/temp/" ++ latest ++ "/" ++ original))
                   (JsMap.get latest (sessions w))
             | None => CurrentFile None None
             end |}.
Proof.
  intros Hfs Hnd Hlatest Hdir.
  unfold currentFileRoute, try_catch. unfold bind at 1.
  rewrite readdirTemp_run.
  rewrite (fsReliable_op env OpReaddir _ Hfs) by discriminate.
  assert (Hne : (0 <? List.length (map d_name (tempDir w)))%nat = true).
  { destruct (tempDir w); [discriminate|reflexivity]. }
  rewrite Hne.
  destruct (stats_run env (tempDir w) (snd (suspend env w)) Hfs)
    as (w1 & E1 & Hl1).
  { intros d' Hd'. now apply findDir_NoDup. }
  assert (E1' : latestSessionDir env (map d_name (tempDir w))
                  (snd (suspend env w)) = (Ret (Some latest), w1)).
  { unfold latestSessionDir. rewrite (bind_run_ret _ _ _ _ _ E1).
    unfold ret. unfold latestOf in Hlatest. now rewrite Hlatest. }
  unfold bind at 1. rewrite E1'.
  unfold bind at 1. rewrite readdirSession_run.
  rewrite (fsReliable_op env OpReaddir _ Hfs) by discriminate.
  destruct Hl1 as (_ & D1 & S1 & _). simpl in D1, S1.
  rewrite D1, Hdir.
  destruct (find (String.prefix "original_") (d_files d)); [|reflexivity].
  unfold bind, getSession, gets, ret. simpl. now rewrite S1.
Qed.

(** When the file system answers, [/api/current-file] shows the original
    file of the directory with the latest modification time, with what the
    store has for that directory, and a request to [/api/spatialize] in the
    same state works on that directory and that file, whatever [iasUrl] it
    carries. *)
Theorem currentFileRoute_shows_latest env w latest d :
  fsReliable env ->
  NoDup (map d_name (tempDir w)) ->
  latestOf (tempDir w) = Some latest ->
  findDir latest (tempDir w) = Some d ->
  match find (String.prefix "original_") (d_files d) with
  | Some original =>
      fst (currentFileRoute env w)
      = Ret {| api_status := 200;
               api_body :=
                 CurrentFile (Some ("/temp/" ++ latest ++ "/" ++ original))
                   (JsMap.get latest (sessions w)) |} /\
      forall fuel url intensity,
        truthy_str (Some url) = true ->
        exists w1,
          onlyLater w w1 /\
          spatializeRoute env fuel (Some url) intensity w
          = try_catch
              (result <- spatializeAudio env fuel url intensity latest ;;
               result <- archiveStep env latest original result ;;
               ret {| status := 200; body := Result result |})
              (fun error =>
                 logError "Processing failed" error ;;
                 ret {| status := 500; body := Message "Spatialization failed" |})
              w1
  | None =>
      fst (currentFileRoute env w)
      = Ret {| api_status := 200; api_body := CurrentFile None None |}
  end.
Proof.
  intros Hfs Hnd Hlatest Hdir.
  pose proof (currentFile_latest env w latest d Hfs Hnd Hlatest Hdir) as E.
  destruct (find (String.prefix "original_") (d_files d)) as [original|] eqn:Ho;
    [|exact E].
  split; [exact E|].
  intros fuel url intensity Hurl.
  exact (resolve_session env fuel url intensity w latest d original
           Hurl Hfs Hnd Hlatest Hdir Ho).
Qed.

Lemma currentFileRoute_shows_latest_witness :
  fst (currentFileRoute (stubProvider ["success"] None) uploadedWorld)
  = Ret {| api_status := 200;
           api_body :=
             CurrentFile (Some "/temp/s1/original_song.wav")
               (Some (sampleSession "s1")) |}.
Proof.
  exact (proj1 (currentFileRoute_shows_latest (stubProvider ["success"] None)
                  uploadedWorld "s1"
                  {| d_name := "s1"; d_mtime := 900;
                     d_files := ["original_song.wav"] |}
                  ltac:(intros op path; destruct op; reflexivity)
                  ltac:(simpl; repeat constructor; simpl; tauto)
                  eq_refl eq_refl)).
Defined.

(** ** Computations that come to an end *)

Lemma ends_ret {A} (a : A) : ends (ret a).
Proof. intros w. discriminate. Qed.

Lemma ends_throw {A} e : ends (@throw A e).
Proof. intros w. discriminate. Qed.

Lemma ends_gets {A} (f : World -> A) : ends (gets f).
Proof. intros w. discriminate. Qed.

Lemma ends_modify f : ends (modify f).
Proof. intros w. discriminate. Qed.

Lemma ends_bind {A B} (m : M A) (k : A -> M B) :
  ends m -> (forall a, ends (k a)) -> ends (bind m k).
Proof.
  intros Hm Hk w. unfold bind. specialize (Hm w).
  destruct (m w) as [[a|e|] w1]; simpl in *;
    [apply Hk|discriminate|congruence].
Qed.

Lemma ends_try_catch {A} (m : M A) (h : Err -> M A) :
  ends m -> (forall e, ends (h e)) -> ends (try_catch m h).
Proof.
  intros Hm Hh w. unfold try_catch. specialize (Hm w).
  destruct (m w) as [[a|e|] w1]; simpl in *;
    [discriminate|apply Hh|congruence].
Qed.

Lemma ends_prop {A B} (b : option A) (f : A -> option B) : ends (prop b f).
Proof. destruct b; intros w; discriminate. Qed.

Ltac ends_step :=
  lazymatch goal with
  | |- ends (bind _ _) => apply ends_bind; [|intros ?]
  | |- ends (try_catch _ _) => apply ends_try_catch; [|intros ?]
  | |- ends (ret _) => apply ends_ret
  | |- ends (throw _) => apply ends_throw
  | |- ends (gets _) => apply ends_gets
  | |- ends (modify _) => apply ends_modify
  | |- ends (prop _ _) => apply ends_prop
  | |- ends (match ?x with _ => _ end) => destruct x
  end.

Ltac ends_all := repeat (first [ends_step | solve [auto]]).

Lemma ends_emit e : ends (emit e).
Proof. unfold emit. ends_all. Qed.

Lemma ends_logError c e : ends (logError c e).
Proof. apply ends_emit. Qed.

Lemma ends_suspend env : ends (suspend env).
Proof. unfold suspend. ends_all. Qed.

Lemma ends_request env {A} c (answer : World -> Reply A) count :
  ends (request env c answer count).
Proof.
  unfold request. pose proof (ends_suspend env).
  pose proof (fun e => ends_emit e). ends_all.
Qed.

Lemma ends_refresh env : ends (refreshIrcamToken env).
Proof.
  unfold refreshIrcamToken.
  pose proof (fun c e => ends_logError c e).
  pose proof (fun A c (a : World -> Reply A) k => ends_request env c a k).
  ends_all.
Qed.

Lemma ends_getIrcamToken : ends getIrcamToken.
Proof. unfold getIrcamToken. ends_all. Qed.

Lemma ends_ensureValid env : ends (ensureValidToken env).
Proof.
  unfold ensureValidToken.
  pose proof (ends_refresh env). pose proof ends_getIrcamToken. ends_all.
Qed.

Lemma ends_headers : ends getIrcamHeaders.
Proof. unfold getIrcamHeaders. pose proof ends_getIrcamToken. ends_all. Qed.

(** ** Uploads *)

Lemma ends_storageCall env {A} (r : Reply A) : ends (storageCall env r).
Proof. unfold storageCall. pose proof (ends_suspend env). ends_all. Qed.

Lemma ends_readFile env uenv path : ends (readFile env uenv path).
Proof. unfold readFile. pose proof (ends_suspend env). ends_all. Qed.

Lemma ends_validate env uenv file : ends (validateAudioFile env uenv file).
Proof.
  unfold validateAudioFile. pose proof (ends_suspend env).
  pose proof (fun c e => ends_logError c e). ends_all.
Qed.

Lemma ends_upload env uenv s f : ends (uploadToIrcamStorage env uenv s f).
Proof.
  unfold uploadToIrcamStorage. cbv zeta.
  pose proof (ends_ensureValid env). pose proof ends_headers.
  pose proof (fun A (r : Reply A) => ends_storageCall env r).
  pose proof (fun p => ends_readFile env uenv p).
  pose proof (fun c e => ends_logError c e). ends_all.
Qed.

Ltac kept := repeat (first [respects_step filesKept_refl filesKept_trans
                           | solve [auto] ]).

Lemma kept_logError c e : respects filesKept (logError c e).
Proof. intros w. apply filesKept_trace. Qed.

Lemma kept_storageCall env {A} (r : Reply A) :
  respects filesKept (storageCall env r).
Proof. unfold storageCall. pose proof (kept_suspend env). kept. Qed.

Lemma kept_readFile env uenv path : respects filesKept (readFile env uenv path).
Proof. unfold readFile. pose proof (kept_suspend env). kept. Qed.

Lemma kept_validate env uenv file :
  respects filesKept (validateAudioFile env uenv file).
Proof.
  unfold validateAudioFile. pose proof (kept_suspend env).
  pose proof (fun c e => kept_logError c e). kept.
Qed.

Lemma kept_upload env uenv s f :
  respects filesKept (uploadToIrcamStorage env uenv s f).
Proof.
  unfold uploadToIrcamStorage. cbv zeta.
  pose proof (kept_ensureValid env). pose proof kept_headers.
  pose proof (fun A (r : Reply A) => kept_storageCall env r).
  pose proof (fun p => kept_readFile env uenv p).
  pose proof (fun c e => kept_logError c e). kept.
Qed.

(** Case analysis on the first step of a sequence that comes to an end. *)
Lemma peel_ending {A B} (R : World -> World -> Prop) (m : M A) (k : A -> M B)
    (P : Outcome B * World -> Prop) w0 w :
  (forall a b c, R a b -> R b c -> R a c) ->
  respects R m -> ends m -> R w0 w ->
  (forall a w1, R w0 w1 -> P (k a w1)) ->
  (forall e w1, R w0 w1 -> P (Throw e, w1)) ->
  P (bind m k w).
Proof.
  intros Htrans Hm He Hw Hret Hthrow. unfold bind.
  pose proof (Hm w) as H1. specialize (He w).
  destruct (m w) as [[a|e|] w1]; simpl in H1, He.
  - apply Hret. eapply Htrans; eassumption.
  - apply Hthrow. eapply Htrans; eassumption.
  - congruence.
Qed.

Lemma peel_try_ending {A B} (R : World -> World -> Prop) (m : M A)
    (k : A -> M B) h (P : Outcome B * World -> Prop) w0 w :
  (forall a b c, R a b -> R b c -> R a c) ->
  respects R m -> ends m -> R w0 w ->
  (forall a w1, R w0 w1 -> P (try_catch (k a) h w1)) ->
  (forall e w1, R w0 w1 -> P (h e w1)) ->
  P (try_catch (bind m k) h w).
Proof.
  intros Htrans Hm He Hw Hret Hthrow. unfold try_catch, bind.
  pose proof (Hm w) as H1. specialize (He w).
  pose proof (Hret) as Hret'. unfold try_catch in Hret'.
  destruct (m w) as [[a|e|] w1]; simpl in H1, He.
  - apply Hret'. eapply Htrans; eassumption.
  - apply Hthrow. eapply Htrans; eassumption.
  - congruence.
Qed.

Lemma validateAudioFile_run env uenv file w :
  validateAudioFile env uenv file w
  = match file with
    | None =>
        (Ret (Reject {| api_status := 400;
                        api_body := ApiMessage "No file uploaded" |}), w)
    | Some f =>
        if negb (existsb (String.eqb (u_mimetype f)) validatorTypes) then
          (Ret (Reject
                  {| api_status := 400;
                     api_body := ApiMessage
                       "Invalid file type. Only FLAC and WAV files are supported." |}),
           w)
        else
          match audioDuration uenv (filePath (u_session f) (u_filename f)) with
          | inl e =>
              (Ret (Reject
                      {| api_status := 400;
                         api_body := ApiMessage
                           "Error validating audio file. Please ensure the file is a valid FLAC or WAV file." |}),
               snd (logError "Failed to validate audio file" e
                      (snd (suspend env (snd (suspend env w))))))
          | inr duration =>
              (Ret (if negb (QArith_base.Qle_bool duration MAX_DURATION)
                    then Reject
                           {| api_status := 400;
                              api_body := ApiMessage
                                "Audio file exceeds maximum duration of 30 minutes" |}
                    else Pass),
               snd (suspend env (snd (suspend env w))))
          end
    end.
Proof.
  unfold validateAudioFile. destruct file as [f|]; [|reflexivity].
  destruct (negb (existsb (String.eqb (u_mimetype f)) validatorTypes));
    [reflexivity|].
  unfold try_catch, bind.
  destruct (audioDuration uenv (filePath (u_session f) (u_filename f)))
    as [e|d]; [reflexivity|].
  destruct (negb (QArith_base.Qle_bool d MAX_DURATION)); reflexivity.
Qed.

Lemma validate_rejects_400 env uenv file w r w1 :
  validateAudioFile env uenv file w = (Ret (Reject r), w1) ->
  exists m, r = {| api_status := 400; api_body := ApiMessage m |}.
Proof.
  rewrite validateAudioFile_run. destruct file as [f|].
  - destruct (negb (existsb (String.eqb (u_mimetype f)) validatorTypes)).
    + intros H. injection H as <- _. eauto.
    + destruct (audioDuration uenv (filePath (u_session f) (u_filename f)))
        as [e|d].
      * intros H. injection H as <- _. eauto.
      * destruct (negb (QArith_base.Qle_bool d MAX_DURATION));
          intros H; [injection H as <- _; eauto|discriminate].
  - intros H. injection H as <- _. eauto.
Qed.

Lemma validate_returns env uenv file w :
  exists v w1, validateAudioFile env uenv file w = (Ret v, w1).
Proof.
  rewrite validateAudioFile_run. destruct file as [f|]; [|eauto].
  destruct (negb (existsb (String.eqb (u_mimetype f)) validatorTypes));
    [eauto|].
  destruct (audioDuration uenv (filePath (u_session f) (u_filename f)));
    eauto.
Qed.

(** The upload route always answers, and it leaves the temp directory as
    multer made it: also a rejected or failed upload keeps its directory
    and its file.  Status 200 is given exactly when a session was saved
    under the name of the upload's directory, with the file id and the
    URL that the storage returned (either may be missing: the handler does
    not look at them); with status 400 or 500 the store is as before. *)
Theorem uploadRoute_cases env uenv file w :
  let r := uploadRoute env uenv file w in
  tempDir (snd r) = tempDir w /\
  exists resp,
    fst r = Ret resp /\
    ((exists f fileId_ iasUrl_,
        file = Some f /\
        resp = {| api_status := 200;
                  api_body :=
                    Uploaded (u_session f)
                      ("/temp/" ++ u_session f ++ "/" ++ u_filename f)
                      fileId_ iasUrl_ |} /\
        sessions (snd r)
        = JsMap.set (u_session f)
            {| fileId := fileId_; iasUrl := iasUrl_;
               zipPath := None; zipSize := None |} (sessions w)) \/
     (exists m, resp = {| api_status := 400; api_body := ApiMessage m |}) /\
     sessions (snd r) = sessions w \/
     resp = {| api_status := 500; api_body := ApiMessage "Upload failed" |} /\
     sessions (snd r) = sessions w).
Proof.
  cbv zeta.
  set (P := fun (r : Outcome ApiResponse * World) =>
    tempDir (snd r) = tempDir w /\
    exists resp,
      fst r = Ret resp /\
      ((exists f fileId_ iasUrl_,
          file = Some f /\
          resp = {| api_status := 200;
                    api_body :=
                      Uploaded (u_session f)
                        ("/temp/" ++ u_session f ++ "/" ++ u_filename f)
                        fileId_ iasUrl_ |} /\
          sessions (snd r)
          = JsMap.set (u_session f)
              {| fileId := fileId_; iasUrl := iasUrl_;
                 zipPath := None; zipSize := None |} (sessions w)) \/
       (exists m, resp = {| api_status := 400; api_body := ApiMessage m |}) /\
       sessions (snd r) = sessions w \/
       resp = {| api_status := 500; api_body := ApiMessage "Upload failed" |} /\
       sessions (snd r) = sessions w)).
  change (P (uploadRoute env uenv file w)).
  unfold uploadRoute.
  destruct (validate_returns env uenv file w) as (verdict & w1 & Ev).
  pose proof (kept_validate env uenv file w) as K1. rewrite Ev in K1.
  destruct K1 as (D1 & S1). simpl in D1, S1.
  rewrite (bind_run_ret _ _ _ _ _ Ev).
  destruct verdict as [|r].
  - destruct file as [f|].
    + apply (peel_try_ending filesKept _ _ _ P w w1 filesKept_trans
               (kept_upload env uenv (u_session f) (u_filename f))
               (ends_upload env uenv (u_session f) (u_filename f))
               (conj D1 S1)).
      * intros [fid ias_] w2 (D2 & S2). cbv zeta.
        unfold try_catch, bind, saveSession, modify, ret. simpl.
        split; [exact D2|]. eexists. split; [reflexivity|].
        left. exists f, fid, ias_. rewrite S2. auto.
      * intros e w2 (D2 & S2).
        unfold bind, logError, emit, modify, ret. simpl.
        split; [exact D2|]. eexists. split; [reflexivity|]. auto.
    + unfold ret. split; [exact D1|]. eexists. split; [reflexivity|].
      right. left. eauto.
  - destruct (validate_rejects_400 env uenv file w r w1 Ev) as (m & ->).
    unfold ret. split; [exact D1|]. eexists. split; [reflexivity|].
    right. left. eauto.
Qed.

(** ** The checks before an upload is taken *)

Lemma existsb_eqb_In m l : existsb (String.eqb m) l = true <-> In m l.
Proof.
  rewrite existsb_exists. split.
  - intros (x & Hx & E). apply String.eqb_eq in E. now subst.
  - intros H. exists m. split; [exact H|apply String.eqb_refl].
Qed.

(** [validateAudioFile] lets an upload through exactly when its declared
    type is one of the four FLAC/WAV types and the duration probe gives a
    duration of at most 1800 seconds; it never throws and changes neither
    files nor sessions.  Whatever it lets through, the filter of the multer
    instance accepts too; but that filter also accepts [audio/mpeg], which
    the validator rejects with status 400 after the file was stored. *)
Theorem validateAudioFile_passes env uenv f w :
  let r := validateAudioFile env uenv (Some f) w in
  filesKept w (snd r) /\
  (exists v, fst r = Ret v) /\
  (fst r = Ret Pass <->
   In (u_mimetype f) validatorTypes /\
   exists d,
     audioDuration uenv (filePath (u_session f) (u_filename f)) = inr d /\
     QArith_base.Qle d MAX_DURATION) /\
  (fst r = Ret Pass -> fileFilter (u_mimetype f) = inr true) /\
  (u_mimetype f = "audio/mpeg" ->
   fileFilter (u_mimetype f) = inr true /\
   r = (Ret (Reject
               {| api_status := 400;
                  api_body := ApiMessage
                    "Invalid file type. Only FLAC and WAV files are supported." |}),
        w)).
Proof.
  cbv zeta.
  split; [apply kept_validate|].
  assert (Hiff : fst (validateAudioFile env uenv (Some f) w) = Ret Pass <->
            In (u_mimetype f) validatorTypes /\
            exists d,
              audioDuration uenv (filePath (u_session f) (u_filename f)) = inr d /\
              QArith_base.Qle d MAX_DURATION).
  { rewrite validateAudioFile_run.
    destruct (existsb (String.eqb (u_mimetype f)) validatorTypes) eqn:Et.
    - apply existsb_eqb_In in Et. unfold negb at 1.
      destruct (audioDuration uenv (filePath (u_session f) (u_filename f)))
        as [e|d].
      + split; [discriminate|]. intros (_ & d & Hd & _). discriminate.
      + destruct (QArith_base.Qle_bool d MAX_DURATION) eqn:Eq; unfold negb, fst.
        * split; [|reflexivity]. intros _. split; [exact Et|].
          exists d. split; [reflexivity|].
          now apply QArith_base.Qle_bool_iff.
        * split; [discriminate|]. intros (_ & d' & Hd & Hle).
          injection Hd as <-. apply QArith_base.Qle_bool_iff in Hle.
          congruence.
    - unfold negb, fst. split; [discriminate|]. intros (Hin & _).
      apply existsb_eqb_In in Hin. congruence. }
  split; [|split; [exact Hiff|split]].
  - destruct (validate_returns env uenv (Some f) w) as (v & w1 & ->).
    now exists v.
  - intros H. apply Hiff in H. destruct H as (Hin & _).
    unfold fileFilter.
    replace (existsb (String.eqb (u_mimetype f)) allowedTypes) with true;
      [reflexivity|].
    symmetry. apply existsb_eqb_In. unfold validatorTypes in Hin.
    unfold allowedTypes. simpl in *. tauto.
  - intros Hm. split; [now rewrite Hm|].
    rewrite validateAudioFile_run, Hm. reflexivity.
Qed.

(** ** The name under which an upload is stored *)

Lemma sanitized_char_safe c :
  safeChar (lowerChar (if isAlnum c then c else "-"%char)) = true.
Proof.
  destruct c as [[] [] [] [] [] [] [] []]; reflexivity.
Qed.

Lemma sanitized_safe s :
  Forall (fun c => safeChar c = true)
    (list_ascii_of_string (toLowerAscii (replaceNonAlnum s))).
Proof.
  induction s as [|c s IH]; simpl; constructor;
    [apply sanitized_char_safe|exact IH].
Qed.

Lemma sanitized_length s :
  String.length (toLowerAscii (replaceNonAlnum s)) = String.length s.
Proof. induction s as [|c s IH]; simpl; [reflexivity|now rewrite IH]. Qed.

(** The name that the disk storage gives to an upload starts with
    [original_], so the routes that look for the first file with that
    prefix find it in a directory that holds nothing else; between the
    prefix and the extension it has one character for each character of
    the base name, and only lower-case letters, digits and hyphens. *)
Theorem storageFilename_safe extname basename toLowerCase originalname :
  let name := storageFilename extname basename toLowerCase originalname in
  let ext := toLowerCase (extname originalname) in
  String.prefix "original_" name = true /\
  find (String.prefix "original_") [name] = Some name /\
  exists base,
    name = "original_" ++ base ++ ext /\
    String.length base = String.length (basename originalname ext) /\
    Forall (fun c => safeChar c = true) (list_ascii_of_string base).
Proof.
  cbv zeta. unfold storageFilename.
  assert (Hp : String.prefix "original_"
                 ("original_"
                  ++ toLowerAscii
                       (replaceNonAlnum
                          (basename originalname
                             (toLowerCase (extname originalname))))
                  ++ toLowerCase (extname originalname)) = true)
    by apply prefix_app.
  split; [exact Hp|]. split.
  - simpl find. simpl in Hp. now rewrite Hp.
  - eexists. split; [reflexivity|].
    split; [apply sanitized_length|apply sanitized_safe].
Qed.

(** ** An upload that goes well *)

Lemma storageCall_run env {A} (r : Reply A) w :
  storageCall env r w
  = (match r with Resolved d => Ret d | Rejected e => Throw e end,
     snd (suspend env w)).
Proof. unfold storageCall, bind. destruct r; reflexivity. Qed.

Lemma readFile_run env uenv path w :
  readFile env uenv path w
  = (match readFault uenv path with
     | Some e => Throw e
     | None =>
         if existsPath path (tempDir w) then Ret tt
         else Throw (FsError "ENOENT" path)
     end, snd (suspend env w)).
Proof.
  unfold readFile, bind. simpl.
  destruct (readFault uenv path); [reflexivity|].
  unfold gets. simpl. destruct (existsPath path (tempDir w)); reflexivity.
Qed.

(** Files, sessions, and a clock that has not gone back. *)
Lemma authOnly_later w w' :
  authOnly w w' ->
  tempDir w' = tempDir w /\ sessions w' = sessions w /\ now w <= now w'.
Proof. intros (_ & S & D & _ & _ & N). auto. Qed.

Lemma upload_ok env uenv sid fname w cd pr sd :
  authOk env -> 0 <= now w ->
  existsPath (filePath sid fname) (tempDir w) = true ->
  readFault uenv (filePath sid fname) = None ->
  createReply uenv (filePath sid fname) = Resolved (Some cd) ->
  putReply uenv (created_id cd) fname = Resolved pr ->
  storageReply uenv (created_id cd) = Resolved (Some sd) ->
  exists w',
    uploadToIrcamStorage env uenv sid fname w
    = (Ret (created_id cd, ias sd), w') /\
    tempDir w' = tempDir w /\ sessions w' = sessions w /\ now w <= now w'.
Proof.
  intros Hauth Hnow Hfile Hread Hcreate Hput Hstat.
  unfold uploadToIrcamStorage. cbv zeta. apply (fun H => H).
  destruct (ensureValidToken_ok env w Hauth Hnow) as (t1 & w1 & E1 & H1 & A1).
  apply authOnly_later in A1. destruct A1 as (D1 & S1 & N1).
  set (w2 := snd (suspend env w1)).
  set (w3 := snd (suspend env w2)).
  assert (N3 : 0 <= now w3) by (subst w3 w2; simpl; lia).
  destruct (ensureValidToken_ok env w3 Hauth N3) as (t4 & w4 & E4 & H4 & A4).
  apply authOnly_later in A4. destruct A4 as (D4 & S4 & N4).
  set (w5 := snd (suspend env w4)).
  assert (N5 : 0 <= now w5) by (subst w5; simpl; lia).
  destruct (ensureValidToken_ok env w5 Hauth N5) as (t6 & w6 & E6 & H6 & A6).
  apply authOnly_later in A6. destruct A6 as (D6 & S6 & N6).
  exists (snd (suspend env w6)).
  split.
  - unfold try_catch.
    rewrite (bind_run_ret _ _ _ _ _ E1), (bind_run_ret _ _ _ _ _ H1).
    unfold bind at 1. rewrite storageCall_run, Hcreate.
    unfold bind at 1, prop at 1, ret at 1.
    unfold bind at 1. rewrite readFile_run, Hread.
    replace (tempDir (snd (suspend env w1))) with (tempDir w) by (simpl; congruence).
    rewrite Hfile. fold w2 w3.
    rewrite (bind_run_ret _ _ _ _ _ E4), (bind_run_ret _ _ _ _ _ H4).
    unfold bind at 1. rewrite storageCall_run, Hput. fold w5.
    rewrite (bind_run_ret _ _ _ _ _ E6), (bind_run_ret _ _ _ _ _ H6),
      (bind_run_ret _ _ _ _ _ H6).
    unfold bind at 1. rewrite storageCall_run, Hstat.
    reflexivity.
  - subst w5 w3 w2. simpl in *. repeat split; try congruence; try lia.
Qed.

(** An upload that passes the validator, whose file is on the disk and
    for which the provider grants the token and the storage answers every
    call: the route answers 200 with the path of the file and the file id
    and URL that the storage gave, and saves a session with these under
    the name of the directory.  The store then gives that session back; it
    is the latest session of the store when the name is new; and when the
    directory is the latest on the disk and the file is its first
    [original_] file, [/api/current-file] shows the same path and the same
    data. *)
Theorem upload_registers_session env uenv f w d cd pr sd :
  authOk env -> 0 <= now w ->
  In (u_mimetype f) validatorTypes ->
  audioDuration uenv (filePath (u_session f) (u_filename f)) = inr d ->
  QArith_base.Qle d MAX_DURATION ->
  existsPath (filePath (u_session f) (u_filename f)) (tempDir w) = true ->
  readFault uenv (filePath (u_session f) (u_filename f)) = None ->
  createReply uenv (filePath (u_session f) (u_filename f)) = Resolved (Some cd) ->
  putReply uenv (created_id cd) (u_filename f) = Resolved pr ->
  storageReply uenv (created_id cd) = Resolved (Some sd) ->
  let data := {| fileId := created_id cd; iasUrl := ias sd;
                 zipPath := None; zipSize := None |} in
  let path := "/temp/" ++ u_session f ++ "/" ++ u_filename f in
  exists w',
    uploadRoute env uenv (Some f) w
    = (Ret {| api_status := 200;
              api_body := Uploaded (u_session f) path (created_id cd) (ias sd) |},
       w') /\
    tempDir w' = tempDir w /\
    sessions w' = JsMap.set (u_session f) data (sessions w) /\
    getSession (u_session f) w' = (Ret (Some data), w') /\
    (JsMap.get (u_session f) (sessions w) = None ->
     fst (getLatestSession w') = Ret (Some (u_session f, data))) /\
    (fsReliable env ->
     NoDup (map d_name (tempDir w)) ->
     latestOf (tempDir w) = Some (u_session f) ->
     (forall e, findDir (u_session f) (tempDir w) = Some e ->
                find (String.prefix "original_") (d_files e)
                = Some (u_filename f)) ->
     fst (currentFileRoute env w')
     = Ret {| api_status := 200;
              api_body := CurrentFile (Some path) (Some data) |}).
Proof.
  intros Hauth Hnow Htype Hdur Hle Hfile Hread Hcreate Hput Hstat. cbv zeta.
  assert (Ev : validateAudioFile env uenv (Some f) w
               = (Ret Pass, snd (suspend env (snd (suspend env w))))).
  { rewrite validateAudioFile_run.
    apply existsb_eqb_In in Htype. rewrite Htype, Hdur.
    apply QArith_base.Qle_bool_iff in Hle. rewrite Hle. reflexivity. }
  set (w1 := snd (suspend env (snd (suspend env w)))) in *.
  assert (N1 : 0 <= now w1) by (subst w1; simpl; lia).
  assert (D1 : tempDir w1 = tempDir w) by reflexivity.
  assert (S1 : sessions w1 = sessions w) by reflexivity.
  destruct (upload_ok env uenv (u_session f) (u_filename f) w1 cd pr sd
              Hauth N1 ltac:(now rewrite D1) Hread Hcreate Hput Hstat)
    as (w2 & E2 & D2 & S2 & N2).
  set (data := {| fileId := created_id cd; iasUrl := ias sd;
                  zipPath := None; zipSize := None |}).
  exists (with_sessions (JsMap.set (u_session f) data (sessions w2)) w2).
  assert (Hs : sessions (with_sessions
                 (JsMap.set (u_session f) data (sessions w2)) w2)
               = JsMap.set (u_session f) data (sessions w))
    by (simpl; congruence).
  split; [|split; [simpl; congruence|split; [exact Hs|split; [|split]]]].
  - unfold uploadRoute. rewrite (bind_run_ret _ _ _ _ _ Ev).
    rewrite (try_bind_ret _ _ _ _ _ _ E2). reflexivity.
  - unfold getSession, gets. rewrite Hs, get_set_same. reflexivity.
  - intros Hnew.
    apply (latest_of_sessions _ (sessions w) (u_session f) data).
    rewrite Hs. now apply set_absent.
  - intros Hfs Hnd Hlatest Horig.
    set (w' := with_sessions (JsMap.set (u_session f) data (sessions w2)) w2)
      in *.
    assert (D' : tempDir w' = tempDir w) by (subst w'; simpl; congruence).
    assert (Hd : exists e, findDir (u_session f) (tempDir w) = Some e).
    { unfold latestOf in Hlatest.
      pose proof (head_sortDesc (tempDir w)) as Hh.
      destruct (sortDesc (map (fun d0 => (d_name d0, d_mtime d0)) (tempDir w)))
        as [|[s t] rest]; [discriminate|].
      simpl in Hlatest, Hh. injection Hlatest as ->.
      destruct Hh as (pre & e & post & Hw & Hn & _).
      exists e. rewrite <- Hn. apply findDir_NoDup; [exact Hnd|].
      rewrite Hw. apply in_or_app. right. now left. }
    destruct Hd as (e & He).
    rewrite (currentFile_latest env w' (u_session f) e Hfs
               ltac:(now rewrite D') ltac:(now rewrite D')
               ltac:(now rewrite D')).
    rewrite (Horig e He). subst w'. rewrite Hs, get_set_same. reflexivity.
Qed.

Lemma upload_registers_session_witness :
  exists w',
    uploadRoute (stubProvider ["success"] None) stubStorage (Some sampleUpload)
      uploadedWorld
    = (Ret {| api_status := 200;
              api_body := Uploaded "s1" "/temp/s1/original_song.wav"
                            (Some "file-9") (Some "ias://file-9") |}, w') /\
    tempDir w' = tempDir uploadedWorld /\
    getSession "s1" w'
    = (Ret (Some {| fileId := Some "file-9"; iasUrl := Some "ias://file-9";
                    zipPath := None; zipSize := None |}), w').
Proof.
  destruct (upload_registers_session (stubProvider ["success"] None)
              stubStorage sampleUpload uploadedWorld
              (QArith_base.Qmake 200 1) {| created_id := Some "file-9" |}
              (Some tt) {| ias := Some "ias://file-9" |}
              (fun k => eq_refl) ltac:(simpl; lia)
              ltac:(simpl; tauto) eq_refl ltac:(vm_compute; discriminate)
              eq_refl eq_refl eq_refl eq_refl eq_refl)
    as (w' & E & D & _ & G & _).
  exists w'. split; [exact E|]. split; [exact D|exact G].
Defined.

(** ** No session to work on *)

(** When no session directory holds an [original_] file (in particular
    when the temp directory is empty), [/api/spatialize] answers 400 or
    500 and never contacts the provider: the token cache and the request
    counters are as before, like the files and the sessions. *)
Theorem spatializeRoute_needs_original env fuel url intensity w :
  (forall d, In d (tempDir w) ->
             find (String.prefix "original_") (d_files d) = None) ->
  let r := spatializeRoute env fuel url intensity w in
  onlyRead w (snd r) /\
  (fst r = Ret {| status := 400; body := Message "Missing iasUrl parameter" |} \/
   fst r = Ret {| status := 500; body := Message "Spatialization failed" |}).
Proof.
  intros Hnone. cbv zeta.
  set (P := fun (r : Outcome Response * World) =>
    onlyRead w (snd r) /\
    (fst r = Ret {| status := 400; body := Message "Missing iasUrl parameter" |} \/
     fst r = Ret {| status := 500; body := Message "Spatialization failed" |})).
  change (P (spatializeRoute env fuel url intensity w)).
  assert (Hfail : forall e v, onlyRead w v ->
            P ((logError "Processing failed" e ;;
                ret {| status := 500; body := Message "Spatialization failed" |})
                 v)).
  { intros e v Hv. split.
    - exact (onlyRead_trans _ _ _ Hv (onlyRead_logError _ e v)).
    - now right. }
  unfold spatializeRoute.
  destruct url as [u|]; [|split; [apply onlyRead_refl|now left]].
  destruct (negb (truthy_str (Some u)));
    [split; [apply onlyRead_refl|now left]|].
  unfold try_catch. unfold bind at 1. rewrite readdirTemp_run.
  pose proof (onlyRead_suspend env w) as H1.
  destruct (fsFault env OpReaddir "") as [e|]; [now apply Hfail|].
  destruct (Nat.eqb (List.length (map d_name (tempDir w))) 0);
    [now apply Hfail|].
  unfold bind at 1.
  destruct (latestSessionDir_total env (map d_name (tempDir w))
              (snd (suspend env w))) as (o & w2 & E2 & Hn2 & Hr2 & _).
  rewrite E2.
  assert (H2 : onlyRead w w2) by exact (onlyRead_trans _ _ _ H1 Hr2).
  destruct o as [[latest|]|e|]; [| | |congruence];
    try (now apply Hfail).
  unfold bind at 1. rewrite readdirSession_run.
  assert (H3 : onlyRead w (snd (suspend env w2)))
    by exact (onlyRead_trans _ _ _ H2 (onlyRead_suspend env w2)).
  destruct (fsFault env OpReaddir latest) as [e|]; [now apply Hfail|].
  destruct (findDir latest (tempDir w2)) as [d|] eqn:Hd; [|now apply Hfail].
  apply findDir_In in Hd. destruct Hd as (Hin & _).
  destruct H2 as (D2 & _). rewrite D2 in Hin.
  rewrite (Hnone d Hin). now apply Hfail.
Qed.

Lemma spatializeRoute_needs_original_witness :
  onlyRead (initialWorld 0)
    (snd (spatializeRoute (stubProvider ["success"] None) 5 (Some "ias://x")
            "3" (initialWorld 0))) /\
  (fst (spatializeRoute (stubProvider ["success"] None) 5 (Some "ias://x")
          "3" (initialWorld 0))
   = Ret {| status := 400; body := Message "Missing iasUrl parameter" |} \/
   fst (spatializeRoute (stubProvider ["success"] None) 5 (Some "ias://x")
          "3" (initialWorld 0))
   = Ret {| status := 500; body := Message "Spatialization failed" |}).
Proof.
  apply (spatializeRoute_needs_original (stubProvider ["success"] None) 5
           (Some "ias://x") "3" (initialWorld 0)).
  intros d [].
Defined.

(** ** A submission that gives no job *)

(** When the reply to the submission carries no usable job id, or the
    submission is rejected, [spatializeAudio] throws (the error of the
    spec for a reply without id, the rejection itself otherwise) right
    after that one request: it logs the error and makes no status check,
    and files and sessions are as before. *)
Theorem spatializeAudio_without_job env fuel url intensity dir w :
  authOk env -> 0 <= now w ->
  jobIdOf (submitReply env (submitPosts w)) = None ->
  exists w',
    let e := match submitReply env (submitPosts w) with
             | Rejected e0 => e0
             | Resolved None => TypeError "Cannot read properties of null"
             | Resolved (Some _) => JobSubmissionError
             end in
    spatializeAudio env fuel url intensity dir w = (Throw e, w') /\
    jobGets w' = jobGets w /\
    tempDir w' = tempDir w /\ sessions w' = sessions w /\
    exists t, trace w' = (t ++ [Logged "Spatialization failed" e])%list.
Proof.
  intros Hauth Hnow Hno.
  destruct (ensureValidToken_ok env w Hauth Hnow) as (tok & w1 & E1 & H1 & A1).
  destruct A1 as (_ & S1 & D1 & J1 & P1 & N1).
  destruct (submit_run env url intensity w1) as (w2 & E2 & D2 & S2 & J2 & N2).
  rewrite P1 in E2.
  exists (with_trace
            (trace w2 ++
             [Logged "Spatialization failed"
                match submitReply env (submitPosts w) with
                | Rejected e0 => e0
                | Resolved None => TypeError "Cannot read properties of null"
                | Resolved (Some _) => JobSubmissionError
                end]) w2).
  cbv zeta. split.
  - unfold spatializeAudio.
    rewrite (try_bind_ret _ _ _ _ _ _ E1), (try_bind_ret _ _ _ _ _ _ H1).
    unfold try_catch. unfold bind at 1. rewrite E2.
    destruct (submitReply env (submitPosts w)) as [[sd|]|e0]; try reflexivity.
    unfold bind at 1, prop, ret. simpl in Hno.
    destruct (submit_id sd) as [j|] eqn:Ej; [|reflexivity].
    destruct (truthy_str (Some j)) eqn:Tj; [discriminate|].
    unfold negb. reflexivity.
  - simpl. repeat split; try congruence. eauto.
Qed.

Lemma spatializeAudio_without_job_witness :
  exists w',
    spatializeAudio noJobProvider 5 "ias://s1" "3" "s1" uploadedWorld
    = (Throw JobSubmissionError, w') /\
    jobGets w' = jobGets uploadedWorld /\
    tempDir w' = tempDir uploadedWorld /\ sessions w' = sessions uploadedWorld /\
    exists t,
      trace w' = (t ++ [Logged "Spatialization failed" JobSubmissionError])%list.
Proof.
  exact (spatializeAudio_without_job noJobProvider 5 "ias://s1" "3" "s1"
           uploadedWorld (fun k => eq_refl) ltac:(simpl; lia) eq_refl).
Defined.

(** ** The type under which an artifact is served *)

Lemma length_app_string s t :
  String.length (s ++ t) = (String.length s + String.length t)%nat.
Proof. induction s as [|c s IH]; simpl; [reflexivity|now rewrite IH]. Qed.

Lemma substring_all s : String.substring 0 (String.length s) s = s.
Proof. induction s as [|c s IH]; simpl; [reflexivity|now rewrite IH]. Qed.

Lemma substring_skip s t m :
  String.substring (String.length s) m (s ++ t) = String.substring 0 m t.
Proof. induction s as [|c s IH]; simpl; [reflexivity|exact IH]. Qed.

Lemma endsWith_app s suffix suffix' :
  String.length suffix' = String.length suffix ->
  endsWith (s ++ suffix) suffix' = String.eqb suffix suffix'.
Proof.
  intros Hl. unfold endsWith. rewrite length_app_string, Hl.
  replace (String.length suffix <=? String.length s + String.length suffix)%nat
    with true by (symmetry; apply Nat.leb_le; lia).
  replace (String.length s + String.length suffix - String.length suffix)%nat
    with (String.length s) by lia.
  now rewrite substring_skip, substring_all.
Qed.

Lemma append_assoc_string a b c : ((a ++ b) ++ c = a ++ (b ++ c))%string.
Proof. induction a as [|x a IH]; simpl; [reflexivity|now rewrite IH]. Qed.

Lemma substring_split s : forall k,
  (k <= String.length s)%nat ->
  s = String.substring 0 k s
      ++ String.substring k (String.length s - k) s.
Proof.
  induction s as [|c s IH]; intros k Hk; simpl in *.
  - destruct k; [reflexivity|lia].
  - destruct k as [|k]; simpl.
    + now rewrite substring_all.
    + rewrite <- IH by lia. reflexivity.
Qed.

Lemma endsWith_iff s suffix :
  endsWith s suffix = true <-> exists p, s = p ++ suffix.
Proof.
  split.
  - unfold endsWith.
    destruct (String.length suffix <=? String.length s)%nat eqn:E;
      [|discriminate].
    apply Nat.leb_le in E. intros H. apply String.eqb_eq in H.
    exists (String.substring 0 (String.length s - String.length suffix) s).
    pose proof (substring_split s (String.length s - String.length suffix)
                  ltac:(lia)) as Hs.
    replace (String.length s - (String.length s - String.length suffix))%nat
      with (String.length suffix) in Hs by lia.
    rewrite H in Hs. exact Hs.
  - intros (p & ->). rewrite endsWith_app by reflexivity.
    apply String.eqb_refl.
Qed.

Lemma endsWith_tail s c suffix :
  endsWith s (String c suffix) = true -> endsWith s suffix = true.
Proof.
  rewrite !endsWith_iff. intros (p & ->).
  exists (p ++ String c ""). now rewrite append_assoc_string.
Qed.

(** An artifact that [downloadFile] has saved is served from [/temp]
    with the audio type of its kind: the binaural file (an [.mp3]) as
    [audio/mpeg], the immersive file (a [.wav]) as [audio/wav]. *)
Theorem artifact_content_type env type f name dir :
  artifactFile env type f = Some name ->
  staticContentType (filePath dir name)
  = Some (match type with
          | binaural => "audio/mpeg"
          | immersive => "audio/wav"
          end).
Proof.
  unfold artifactFile. destruct (wanted f) as [fid|]; [|discriminate].
  destruct (originalOf env fid) as [original|]; [|discriminate].
  intros H. injection H as <-.
  set (p := dir ++ "/" ++ typeName type ++ "_" ++ baseNameOf env original).
  assert (E : filePath dir
                (typeName type ++ "_" ++ baseNameOf env original ++ typeExt type)
              = p ++ typeExt type).
  { subst p. unfold filePath. rewrite !append_assoc_string. reflexivity. }
  match goal with |- staticContentType ?x = _ =>
    replace x with (p ++ typeExt type) by (symmetry; exact E) end.
  unfold staticContentType.
  destruct type; simpl typeExt.
  - rewrite (endsWith_app p ".mp3" ".wav") by reflexivity.
    rewrite (endsWith_app p ".mp3" ".mp3") by reflexivity.
    destruct (endsWith (p ++ ".mp3") ".flac") eqn:Ef; [|reflexivity].
    apply endsWith_tail in Ef.
    rewrite (endsWith_app p ".mp3" "flac") in Ef by reflexivity.
    discriminate.
  - rewrite (endsWith_app p ".wav" ".wav") by reflexivity. reflexivity.
Qed.

Lemma artifact_content_type_witness :
  staticContentType "s1/binaural_bin-7.bin.mp3" = Some "audio/mpeg".
Proof.
  exact (artifact_content_type (stubProvider ["success"] (Some bothArtifacts))
           binaural (binauralFile bothArtifacts) "binaural_bin-7.bin.mp3" "s1"
           eq_refl).
Defined.
